(** * The table storage engine of sky (db/table.go)

    A shallow embedding of the table type of [db/table.go]: the expiration
    sweeper [SweepNextBatch], the transaction wrapper [Update] with its
    statistics report [ddEmitStats], [open], the schema document
    ([marshal] / [unmarshal]), the event record ([rawEvent]) and
    [shardIndex]; then the names of buckets and keys, the storage
    statistics [Stats], [close] and the operation statistics [Stat.Diff].

    Conventions.
    - A Go [int] is 64 bits wide and is modelled as a [Z].  The counters of
      the sweeper are bounded by the batch size and by the number of stored
      events, far below [2^63], so their additions are written without
      wrap-around; where a conversion between integer types matters
      ([shardIndex], the event record) the ranges are written out.
    - A [[]byte] is a [list byte]; [bytes.Compare] is [bytes_Compare].
    - The Bolt store, the statsd sink, the clock, [encoding/json] and the
      MessagePack codec are libraries outside the repository.  The store is
      a finite map from bucket names to key-sorted association lists, the
      sink is the list of emitted metrics, and what Bolt does behind its
      interface ([bolt.Open], the statistics it keeps) is a parameter of
      the section that uses it.  A database handle is open or closed: a
      closed one begins no transaction.
    - A string is a [string] of bytes; [encoding/json] writes and reads
      valid UTF-8 only. *)

From Stdlib Require Import ZArith Lia List Bool.
From Stdlib Require Import Strings.Byte.
From stdpp Require Import base option list gmap strings pretty sorting.

Local Open Scope Z_scope.

(** ** Byte strings *)

Abbreviation bytes := (list byte).

Definition byte_val (b : byte) : Z := Z.of_N (Byte.to_N b).

(** [bytes.Compare]: lexicographic order, result in {-1, 0, 1}. *)
Fixpoint bytes_Compare (a b : bytes) : Z :=
  match a, b with
  | [], [] => 0
  | [], _ :: _ => -1
  | _ :: _, [] => 1
  | x :: a', y :: b' =>
      if byte_val x <? byte_val y then -1
      else if byte_val y <? byte_val x then 1
      else bytes_Compare a' b'
  end.

(** ** Outcomes of Go code: a value, a run-time panic, or (for the model's
    bounded loops only) exhausted fuel. *)

Inductive Res (A : Type) : Type :=
  | Ok (a : A)
  | Panic (msg : string)
  | OutOfFuel.
Arguments Ok {A} a.
Arguments Panic {A} msg.
Arguments OutOfFuel {A}.

Global Instance Res_bind : MBind Res := λ A B k r,
  match r with
  | Ok a => k a
  | Panic m => Panic m
  | OutOfFuel => OutOfFuel
  end.

Global Instance Res_ret : MRet Res := λ A a, Ok a.

(** ** Errors *)

(** Modelled from the spec: the last constructor, [TableBusy], is the
    lifecycle error kind of the spec's error list ("TableNotOpen,
    TableBusy"); nothing in table.go declares or returns it.  The other
    constructors are the errors that table.go declares, receives from Bolt
    or makes with [fmt.Errorf]. *)
Inductive error : Type :=
  | ErrObjectIDRequired          (* errors.New("object id required") *)
  | NoDeletes                    (* errors.New("nothing was deleted, ...") *)
  | bolt_ErrTimeout              (* bolt.ErrTimeout = errors.New("timeout") *)
  | bolt_Err (msg : string)      (* any other error of the store *)
  | Errorf (msg : string)        (* a fresh error made by fmt.Errorf *)
  | TableBusy.

Definition Error (e : error) : string :=
  match e with
  | ErrObjectIDRequired => "object id required"
  | NoDeletes => "nothing was deleted, rollback instead of commit"
  | bolt_ErrTimeout => "timeout"
  | bolt_Err m => m
  | Errorf m => m
  | TableBusy => "table busy"
  end.

Global Instance error_eq_dec : EqDecision error.
Proof. solve_decision. Defined.

(** ** The Bolt store

    A shard bucket holds one sub-bucket per object, keyed by the object id;
    an object bucket holds the event records, keyed by timestamp.  A bucket
    is the list of its entries in key order, the order in which a Bolt
    cursor yields them. *)

Abbreviation ObjectBucket := (list (bytes * bytes)).
Abbreviation ShardBucket := (list (bytes * list (bytes * bytes))).
Abbreviation Root := (gmap string (list (bytes * list (bytes * bytes)))).

Section Bucket.
Context {V : Type}.

(** [Cursor.First]: the key of the first entry, [nil] on an empty bucket. *)
Definition cursor_First (b : list (bytes * V)) : option bytes :=
  fst <$> head b.

(** [Cursor.Seek k]: the cursor moves to the first entry whose key is
    [>= k]; the cursor is the list of the entries from its position on. *)
Fixpoint cursor_Seek (k : bytes) (b : list (bytes * V)) : list (bytes * V) :=
  match b with
  | [] => []
  | e :: b' => if bytes_Compare (fst e) k <? 0 then cursor_Seek k b' else b
  end.

(** [Cursor.Next]: the key of the entry after the cursor's position. *)
Definition cursor_Next (c : list (bytes * V)) : option bytes :=
  fst <$> head (tail c).

(** [Bucket.Bucket key] / [Bucket.Get key]. *)
Fixpoint bucket_get (k : bytes) (b : list (bytes * V)) : option V :=
  match b with
  | [] => None
  | e :: b' => if bytes_Compare (fst e) k =? 0 then Some (snd e) else bucket_get k b'
  end.

(** The bucket after the entry at [k] was replaced by [v]. *)
Fixpoint bucket_set (k : bytes) (v : V) (b : list (bytes * V)) : list (bytes * V) :=
  match b with
  | [] => []
  | e :: b' =>
      if bytes_Compare (fst e) k =? 0 then (fst e, v) :: b' else e :: bucket_set k v b'
  end.

(** [Bucket.DeleteBucket key] / [Bucket.Delete key]. *)
Fixpoint bucket_delete (k : bytes) (b : list (bytes * V)) : list (bytes * V) :=
  match b with
  | [] => []
  | e :: b' =>
      if bytes_Compare (fst e) k =? 0 then b' else e :: bucket_delete k b'
  end.
End Bucket.

(** Statistics kept by Bolt ([bolt.Stats], with its [TxStats]); durations
    are nanoseconds. *)
Record TxStats := {
  PageCount : Z; PageAlloc : Z; CursorCount : Z; NodeCount : Z; NodeDeref : Z;
  Rebalance : Z; RebalanceTime : Z; Split : Z; Spill : Z; SpillTime : Z;
  Write : Z; WriteTime : Z
}.

Record Stats := {
  FreePageN : Z; PendingPageN : Z; FreeAlloc : Z; FreelistInuse : Z;
  TxN : Z; OpenTxN : Z; TxStats_ : TxStats
}.

(** [*bolt.DB]: the committed buckets, the statistics counters and
    whether the handle is open ([DB.Close] closes it; a closed handle
    begins no transaction). *)
Record DB := {
  db_root : Root;
  db_stats : Stats;
  FillPercent : Z * Z;           (* 0.9 is (9, 10) *)
  db_StrictMode : bool;
  db_opened : bool
}.

(** ** The statsd sink: the metrics emitted so far, oldest first.  A
    histogram value that the code computes as a floating-point quotient is
    kept as its numerator and denominator. *)
Inductive Metric : Type :=
  | Count (name : string) (value : Z) (tags : list string)
  | Gauge (name : string) (value : Z) (tags : list string)
  | Histogram (name : string) (num den : Z) (tags : list string).

Global Instance Metric_eq_dec : EqDecision Metric.
Proof. solve_decision. Defined.

Definition metric_name (m : Metric) : string :=
  match m with
  | Count n _ _ | Gauge n _ _ | Histogram n _ _ _ => n
  end.

(** ** Properties and the table *)

(** Modelled from the spec: the [Property] type is declared outside
    table.go; the spec gives its fields as
    [{id: int, name: string, dataType: string, transient: bool}].  The
    back-reference [table] of a property is not a field of the model: it
    always points to the table that owns the property. *)
Record Property := {
  ID : Z;
  Name : string;
  Transient : bool;
  DataType : string
}.

Global Instance Property_eq_dec : EqDecision Property.
Proof. solve_decision. Defined.

(** [Table]: the fields of the struct that the modelled methods read or
    write.  [db] is [None] for a nil pointer.  The mutex and the factor
    caches have no part in the modelled methods. *)
Record Table := {
  StrictMode : bool;
  db : option DB;
  name : string;
  path : string;
  properties : gmap string Property;
  propertiesByID : gmap Z Property;
  shardCount : Z;
  maxPermanentID : Z;
  maxTransientID : Z;
  currentShard : Z;
  currentObject : option bytes;
  ddTagsCache : option (list string);
  boltStats : option Stats
}.

Definition set_db (d : option DB) (t : Table) : Table :=
  {| StrictMode := StrictMode t; db := d; name := name t; path := path t;
     properties := properties t; propertiesByID := propertiesByID t;
     shardCount := shardCount t; maxPermanentID := maxPermanentID t;
     maxTransientID := maxTransientID t; currentShard := currentShard t;
     currentObject := currentObject t; ddTagsCache := ddTagsCache t;
     boltStats := boltStats t |}.

Definition set_sweep (s : Z) (o : option bytes) (t : Table) : Table :=
  {| StrictMode := StrictMode t; db := db t; name := name t; path := path t;
     properties := properties t; propertiesByID := propertiesByID t;
     shardCount := shardCount t; maxPermanentID := maxPermanentID t;
     maxTransientID := maxTransientID t; currentShard := s;
     currentObject := o; ddTagsCache := ddTagsCache t;
     boltStats := boltStats t |}.

Definition set_ddTagsCache (c : option (list string)) (t : Table) : Table :=
  {| StrictMode := StrictMode t; db := db t; name := name t; path := path t;
     properties := properties t; propertiesByID := propertiesByID t;
     shardCount := shardCount t; maxPermanentID := maxPermanentID t;
     maxTransientID := maxTransientID t; currentShard := currentShard t;
     currentObject := currentObject t; ddTagsCache := c;
     boltStats := boltStats t |}.

Definition set_boltStats (s : option Stats) (t : Table) : Table :=
  {| StrictMode := StrictMode t; db := db t; name := name t; path := path t;
     properties := properties t; propertiesByID := propertiesByID t;
     shardCount := shardCount t; maxPermanentID := maxPermanentID t;
     maxTransientID := maxTransientID t; currentShard := currentShard t;
     currentObject := currentObject t; ddTagsCache := ddTagsCache t;
     boltStats := s |}.

(** [NewTable]. *)
Definition NewTable (name path : string) : Table :=
  {| StrictMode := false; db := None; name := name; path := path;
     properties := ∅; propertiesByID := ∅;
     shardCount := 0; maxPermanentID := 0; maxTransientID := 0;
     currentShard := 0; currentObject := None; ddTagsCache := None;
     boltStats := None |}.

Definition SweepBatchSize : Z := 1000.

Definition ShardCount (t : Table) : Z := shardCount t.

Definition opened (t : Table) : bool := bool_decide (db t ≠ None).

(** [ddTags]: the tag list, memoised in [ddTagsCache] on first use. *)
Definition ddTags (t : Table) : list string * Table :=
  match ddTagsCache t with
  | Some tags => (tags, t)
  | None =>
      let tags := ["table:" +:+ name t] in
      (tags, set_ddTagsCache (Some tags) t)
  end.

(** [shardDBName]: [fmt.Sprintf("shards/%d", index)]. *)
Definition shardDBName (index : Z) : string := "shards/" +:+ pretty index.

(** [bolt.Options]; the timeout is a [time.Duration], in nanoseconds. *)
Record bolt_Options := { Timeout : Z }.

Definition time_Second : Z := 1000000000.

(** The file mode [0600]. *)
Definition mode_0600 : Z := 6 * 64.

(** ** The engine over the store's parameters *)

Section Engine.

(** [bolt.Stats.Sub]: the difference of two snapshots ([other] may be a
    nil pointer). *)
Variable Stats_Sub : Stats → option Stats → Stats.

(** The statistics of the database after a write transaction that started
    on the buckets [before], ended on [after], and was committed or rolled
    back. *)
Variable bolt_tx_stats : Stats → Root → Root → bool → Stats.

(** [ShiftTimeBytes], declared outside table.go: the timestamp key of an
    instant (nanoseconds since the epoch). *)
Variable ShiftTimeBytes : Z → bytes.

(** The statsd calls of [ddEmitStats], in order. *)
Definition statMetrics (stats : Stats) (tags : list string) : list Metric :=
  let tx := TxStats_ stats in
  [ Gauge "bolt.pages.free" (FreePageN stats) tags;
    Gauge "bolt.pages.pending" (PendingPageN stats) tags;
    Gauge "bolt.pages.free.alloc" (FreeAlloc stats) tags;
    Gauge "bolt.pages.freelist.inuse" (FreeAlloc stats) tags;
    Count "bolt.txn.total" (TxN stats) tags;
    Gauge "bolt.txn.open" (OpenTxN stats) tags;
    Count "bolt.txn.page.count" (PageCount tx) tags;
    Count "bolt.txn.page.alloc" (PageAlloc tx) tags;
    Count "bolt.txn.cursor.count" (CursorCount tx) tags;
    Count "bolt.txn.node.count" (NodeCount tx) tags;
    Count "bolt.txn.node.deref" (NodeDeref tx) tags;
    Count "bolt.txn.node.rebalance.count" (Rebalance tx) tags;
    Count "bolt.txn.node.rebalance.time" (RebalanceTime tx) tags;
    Histogram "bolt.txn.node.rebalance.period" (RebalanceTime tx) (Rebalance tx) tags;
    Count "bolt.txn.node.split" (Split tx) tags;
    Count "bolt.txn.node.spill.count" (Spill tx) tags;
    Count "bolt.txn.node.spill.time" (SpillTime tx) tags;
    Histogram "bolt.txn.node.spill.period" (SpillTime tx) (Spill tx) tags;
    Count "bolt.txn.write.count" (Write tx) tags;
    Count "bolt.txn.write.time" (WriteTime tx) tags;
    Histogram "bolt.txn.write.period" (WriteTime tx) (Write tx) tags ].

(** [ddEmitStats]. *)
Definition ddEmitStats (t : Table) (sink : list Metric) : Res (Table * list Metric) :=
  match db t with
  | None => Panic "invalid memory address or nil pointer dereference"
  | Some d =>
      let fresh := db_stats d in
      let stats := Stats_Sub fresh (boltStats t) in
      let t := set_boltStats (Some fresh) t in
      let '(tags, t) := ddTags t in
      Ok (t, sink ++ statMetrics stats tags)
  end.

(** A closure passed to [Update]: it works on the buckets of the write
    transaction, on the table it captured and on the sink, and leaves the
    variables it captured (type [A]) and its error result.  No closure of
    table.go assigns [t.db]. *)
Definition TxFn (A : Type) : Type :=
  Root → Table → list Metric → Res (Root * Table * list Metric * A * option error).

(** [bolt.ErrDatabaseNotOpen]. *)
Definition bolt_ErrDatabaseNotOpen : error := bolt_Err "database not open".

(** [bolt.DB.Update] on an open handle: run [fn] in a write transaction;
    commit when it returns nil, roll back when it returns an error.  (A
    commit that fails on I/O is outside the model.) *)
Definition bolt_Update (d : DB) (committed : bool) (tx : Root) : DB :=
  {| db_root := if committed then tx else db_root d;
     db_stats := bolt_tx_stats (db_stats d) (db_root d) tx committed;
     FillPercent := FillPercent d;
     db_StrictMode := db_StrictMode d;
     db_opened := db_opened d |}.

(** [Update].  On a handle that is closed, [bolt.DB.Update] returns
    [ErrDatabaseNotOpen] without calling the closure: the variables that the
    closure captured keep their values [a0], the database is as it was,
    and the statistics are reported all the same. *)
Definition Update {A} (fn : TxFn A) (a0 : A) (t : Table) (sink : list Metric)
  : Res (Table * list Metric * A * option error) :=
  match db t with
  | None => Panic "invalid memory address or nil pointer dereference"
  | Some d =>
      if db_opened d then
        '(tx, t1, sink1, a, err) ← fn (db_root d) t sink;
        let d' := bolt_Update d (bool_decide (err = None)) tx in
        '(t2, sink2) ← ddEmitStats (set_db (Some d') t1) sink1;
        Ok (t2, sink2, a, err)
      else
        '(t2, sink2) ← ddEmitStats t sink;
        Ok (t2, sink2, a0, Some bolt_ErrDatabaseNotOpen)
  end.

(** *** The expiration sweeper *)

(** The variables of the closure of [SweepNextBatch]: the table, the
    transaction, the sink, the name of the bucket that [sb] and [sc] refer
    to, and the three named results. *)
Record SweepState := {
  sw_t : Table;
  sw_tx : Root;
  sw_sink : list Metric;
  sw_sb : string;
  swept : Z;
  events : Z;
  objects : Z
}.

(** The inner loop over the events of one object: delete while the key is
    below [bound]; the result has the bucket left, the events count and
    [eventKey] at the exit of the loop. *)
Fixpoint sweepEvents (bound : bytes) (ob : ObjectBucket) (events : Z)
  : ObjectBucket * Z * option bytes :=
  match ob with
  | [] => ([], events, None)
  | e :: ob' =>
      if bytes_Compare (fst e) bound <? 0
      then sweepEvents bound ob' (events + 1)
      else (ob, events, Some (fst e))
  end.

(** The object key that an iteration visits: the first key of the shard
    when [currentObject] is nil, the key after the position that
    [Seek(currentObject)] reaches otherwise; [None] on an exhausted
    cursor. *)
Definition nextObjectKey (t : Table) (sb : ShardBucket) : option bytes :=
  match currentObject t with
  | None => cursor_First sb
  | Some k => cursor_Next (cursor_Seek k sb)
  end.

(** The body of the outer loop (without its post statement). *)
Definition sweepStep (bound : bytes) (s : SweepState) : Res SweepState :=
  match sw_tx s !! sw_sb s with
  | None => Panic "invalid memory address or nil pointer dereference"
  | Some sb =>
      let t := sw_t s in
      match nextObjectKey t sb with
      | None =>
          if ShardCount t =? 0 then Panic "integer divide by zero" else
          let t := set_sweep (Z.rem (currentShard t + 1) (ShardCount t)) None t in
          let sbn := shardDBName (currentShard t) in
          match sw_tx s !! sbn with
          | None => Panic "invalid memory address or nil pointer dereference"
          | Some _ =>
              let '(tags, t) := ddTags t in
              Ok {| sw_t := t; sw_tx := sw_tx s;
                    sw_sink := sw_sink s ++ [Count "expiration.rollover" 1 tags];
                    sw_sb := sbn;
                    swept := swept s; events := events s; objects := objects s |}
          end
      | Some objectKey =>
          let t := set_sweep (currentShard t) (Some objectKey) t in
          match bucket_get objectKey sb with
          | None => Panic "invalid memory address or nil pointer dereference"
          | Some ob =>
              let '(ob', events', eventKey) := sweepEvents bound ob (events s) in
              let sb' := bucket_set objectKey ob' sb in
              match eventKey with
              | None =>
                  Ok {| sw_t := t;
                        sw_tx := <[sw_sb s := bucket_delete objectKey sb']> (sw_tx s);
                        sw_sink := sw_sink s; sw_sb := sw_sb s;
                        swept := swept s; events := events';
                        objects := objects s + 1 |}
              | Some _ =>
                  Ok {| sw_t := t;
                        sw_tx := <[sw_sb s := sb']> (sw_tx s);
                        sw_sink := sw_sink s; sw_sb := sw_sb s;
                        swept := swept s; events := events';
                        objects := objects s |}
              end
          end
      end
  end.

Definition incr_swept (s : SweepState) : SweepState :=
  {| sw_t := sw_t s; sw_tx := sw_tx s; sw_sink := sw_sink s; sw_sb := sw_sb s;
     swept := swept s + 1; events := events s; objects := objects s |}.

(** The outer loop
    [for ; swept < SweepBatchSize && events < SweepBatchSize; swept += 1]. *)
Fixpoint sweepLoop (fuel : nat) (bound : bytes) (s : SweepState) : Res SweepState :=
  if (swept s <? SweepBatchSize) && (events s <? SweepBatchSize) then
    match fuel with
    | O => OutOfFuel
    | S fuel' =>
        s' ← sweepStep bound s;
        sweepLoop fuel' bound (incr_swept s')
    end
  else Ok s.

(** The closure that [SweepNextBatch] passes to [Update]; [now] is the
    reading of the clock. *)
Definition sweepTx (now expiration : Z) : TxFn (Z * Z * Z) :=
  λ tx t sink,
    let bound := ShiftTimeBytes (now - expiration) in
    let sbn := shardDBName (currentShard t) in
    match tx !! sbn with
    | None => Panic "invalid memory address or nil pointer dereference"
    | Some _ =>
        s ← sweepLoop (Z.to_nat SweepBatchSize) bound
              {| sw_t := t; sw_tx := tx; sw_sink := sink; sw_sb := sbn;
                 swept := 0; events := 0; objects := 0 |};
        let '(tags, t) := ddTags (sw_t s) in
        let sink := sw_sink s ++ [Count "expiration.sweep" 1 tags] in
        let res := (swept s, events s, objects s) in
        if (events s =? 0) && (objects s =? 0) then
          Ok (sw_tx s, t, sink, res, Some NoDeletes)
        else
          let '(t, sink) :=
            if 0 <? events s then
              let '(tags, t) := ddTags t in
              (t, sink ++ [Count "expiration.events" (events s) tags])
            else (t, sink) in
          let '(t, sink) :=
            if 0 <? objects s then
              let '(tags, t) := ddTags t in
              (t, sink ++ [Count "expiration.objects" (objects s) tags])
            else (t, sink) in
          Ok (sw_tx s, t, sink, res, None)
    end.

(** [SweepNextBatch]: the table and the sink after the call, and the
    results [(swept, events, objects)]. *)
Definition SweepNextBatch (now expiration : Z) (t : Table) (sink : list Metric)
  : Res (Table * list Metric * (Z * Z * Z)) :=
  if negb (opened t) then Ok (t, sink, (0, 0, 0))
  else
    '(t', sink', res, _) ← Update (sweepTx now expiration) (0, 0, 0) t sink;
    Ok (t', sink', res).

(** *** Opening the table *)

(** [bolt.Open path mode options]: the database behind the file, or the
    error of the store (with [Timeout] set, [bolt.ErrTimeout] when the
    file lock cannot be obtained in that time).  The handle that a
    successful [bolt.Open] returns is open. *)
Variable bolt_Open : string → Z → bolt_Options → DB + error.

(** The closure of [open] that initialises the schema: it reads the meta
    bucket through [unmarshal] and creates the shard and factor buckets,
    with methods of [Tx] declared outside table.go. *)
Variable initSchema : TxFn unit.

(** [open]; the result is the table, the sink and the returned error.
    (The factor caches that the last statements fill are not part of the
    model.) *)
Definition open (t : Table) (sink : list Metric)
  : Res (Table * list Metric * option error) :=
  if bool_decide (db t ≠ None) then Ok (t, sink, None)
  else
    match bolt_Open (path t) mode_0600 {| Timeout := 1 * time_Second |} with
    | inr err => Ok (t, sink, Some (Errorf ("table open: " +:+ Error err)))
    | inl d =>
        let d := {| db_root := db_root d; db_stats := db_stats d;
                    FillPercent := (9, 10); db_StrictMode := StrictMode t;
                    db_opened := true |} in
        let t := set_db (Some d) t in
        let stats := db_stats d in
        let t := set_boltStats (Some stats) t in
        '(t, sink, _, err) ← Update initSchema () t sink;
        match err with
        | Some e => Ok (t, sink, Some e)
        | None => Ok (t, sink, None)
        end
    end.

End Engine.

(** ** Fixed-width big-endian integers ([encoding/binary], BigEndian) *)

Definition byte_of_Z (x : Z) : byte :=
  default Byte.x00 (Byte.of_N (Z.to_N (x mod 256))).

(** The [n] bytes of [z mod 256^n], most significant first. *)
Fixpoint be_encode (n : nat) (z : Z) : bytes :=
  match n with
  | O => []
  | S n' => byte_of_Z (z / 256 ^ Z.of_nat n') :: be_encode n' z
  end.

(** The unsigned value of a big-endian byte string. *)
Definition be_decode (bs : bytes) : Z :=
  fold_left (λ acc b, acc * 256 + byte_val b) bs 0.

(** Conversion of an unsigned [w]-bit pattern to the signed integer of the
    same width, and back. *)
Definition to_signed (w : Z) (u : Z) : Z :=
  if u <? 2 ^ (w - 1) then u else u - 2 ^ w.

Definition to_unsigned (w : Z) (i : Z) : Z := i mod 2 ^ w.

(** Modelled from the spec: [ShiftTimeBytes] is declared outside table.go;
    the spec gives the timestamp key as the "8-byte big-endian signed
    integer = (unix_microseconds + SHIFT) where SHIFT = 2^62".  The instant
    is in nanoseconds since the epoch. *)
Definition ShiftTimeBytes_spec (t : Z) : bytes :=
  be_encode 8 (to_unsigned 64 (t / 1000 + 2 ^ 62)).

(** ** Instances of the store's parameters, for the examples *)

(** A difference of snapshots, as [bolt.Stats.Sub] computes it: the page
    gauges are read from the fresh snapshot, the counters are subtracted,
    and [OpenTxN] is left zero. *)
Definition TxStats_sub (a b : TxStats) : TxStats :=
  {| PageCount := PageCount a - PageCount b;
     PageAlloc := PageAlloc a - PageAlloc b;
     CursorCount := CursorCount a - CursorCount b;
     NodeCount := NodeCount a - NodeCount b;
     NodeDeref := NodeDeref a - NodeDeref b;
     Rebalance := Rebalance a - Rebalance b;
     RebalanceTime := RebalanceTime a - RebalanceTime b;
     Split := Split a - Split b;
     Spill := Spill a - Spill b;
     SpillTime := SpillTime a - SpillTime b;
     Write := Write a - Write b;
     WriteTime := WriteTime a - WriteTime b |}.

Definition Stats_sub (s : Stats) (other : option Stats) : Stats :=
  match other with
  | None => s
  | Some o =>
      {| FreePageN := FreePageN s; PendingPageN := PendingPageN s;
         FreeAlloc := FreeAlloc s; FreelistInuse := FreelistInuse s;
         TxN := TxN s - TxN o; OpenTxN := 0;
         TxStats_ := TxStats_sub (TxStats_ s) (TxStats_ o) |}
  end.

Definition TxStats_zero : TxStats :=
  {| PageCount := 0; PageAlloc := 0; CursorCount := 0; NodeCount := 0;
     NodeDeref := 0; Rebalance := 0; RebalanceTime := 0; Split := 0;
     Spill := 0; SpillTime := 0; Write := 0; WriteTime := 0 |}.

Definition Stats_zero : Stats :=
  {| FreePageN := 0; PendingPageN := 0; FreeAlloc := 0; FreelistInuse := 0;
     TxN := 0; OpenTxN := 0; TxStats_ := TxStats_zero |}.

(** A stand-in for the accounting of the store, which depends on the pages
    that a transaction touches: every write transaction adds one to [TxN]
    and changes no other counter. *)
Definition count_tx (s : Stats) (before after : Root) (committed : bool) : Stats :=
  {| FreePageN := FreePageN s; PendingPageN := PendingPageN s;
     FreeAlloc := FreeAlloc s; FreelistInuse := FreelistInuse s;
     TxN := TxN s + 1; OpenTxN := OpenTxN s; TxStats_ := TxStats_ s |}.

(** A database over the buckets [root], and an open table named ["t"] with
    [n] shards on it. *)
Definition store (root : Root) : DB :=
  {| db_root := root; db_stats := Stats_zero;
     FillPercent := (9, 10); db_StrictMode := false; db_opened := true |}.

Definition open_table (n : Z) (root : Root) : Table :=
  {| StrictMode := false; db := Some (store root); name := "t"; path := "/tmp/t";
     properties := ∅; propertiesByID := ∅;
     shardCount := n; maxPermanentID := 0; maxTransientID := 0;
     currentShard := 0; currentObject := None; ddTagsCache := None;
     boltStats := Some Stats_zero |}.

(** [n] events with the timestamp keys of the microseconds [0 .. n-1]. *)
Definition events_upto (n : Z) : ObjectBucket :=
  (λ i, (ShiftTimeBytes_spec (i * 1000), [])) <$> seqZ 0 n.

(** Two empty shards; two shards with the objects ["a"] (3 events) and
    ["b"] (5 events) in the first; one shard with an object of 1001
    events. *)
Definition empty_root : Root :=
  {[ shardDBName 0 := []; shardDBName 1 := [] ]}.

Definition sample_root : Root :=
  {[ shardDBName 0 := [([x61], events_upto 3); ([x62], events_upto 5)];
     shardDBName 1 := [] ]}.

Definition big_root : Root :=
  {[ shardDBName 0 := [([x61], events_upto 1001)] ]}.

(** ** Vocabulary of the statements *)

(** The tag list that [ddTags] returns on [t]. *)
Definition tags_of (t : Table) : list string :=
  match ddTagsCache t with
  | Some tags => tags
  | None => ["table:" +:+ name t]
  end.

(** The metrics of a given name in a sink. *)
Definition emitted (n : string) (sink : list Metric) : list Metric :=
  filter (λ m, metric_name m = n) sink.

(** Every shard bucket [shards/0 .. shards/(n-1)] exists, as [open] leaves
    them. *)
Definition shards_exist (n : Z) (tx : Root) : Prop :=
  Forall (λ i, is_Some (tx !! shardDBName i)) (seqZ 0 n).

Global Instance shards_exist_dec n tx : Decision (shards_exist n tx).
Proof. unfold shards_exist. apply _. Defined.

(** No object holds more than [m] events. *)
Definition object_events_le (m : Z) (tx : Root) : Prop :=
  map_Forall (λ _ (sb : ShardBucket), Forall (λ e, Z.of_nat (length e.2) ≤ m) sb) tx.

Global Instance object_events_le_dec m tx : Decision (object_events_le m tx).
Proof. unfold object_events_le. apply _. Defined.

(** A table that the sweeper can run on: open on the database [d], with a
    positive shard count, its shard cursor in range and its shard buckets
    in place. *)
Definition sweepable (t : Table) (d : DB) : Prop :=
  db t = Some d ∧ 0 < shardCount t ∧ 0 ≤ currentShard t < shardCount t ∧
  shards_exist (shardCount t) (db_root d).

(** The invariant of the sweep loop over a table with [n] shards whose
    objects hold at most [m] events and whose tag list is [tg]. *)
Definition sweep_inv (n m : Z) (tg : list string) (s : SweepState) : Prop :=
  shardCount (sw_t s) = n ∧ 0 < n ∧ 0 ≤ currentShard (sw_t s) < n ∧
  sw_sb s = shardDBName (currentShard (sw_t s)) ∧
  shards_exist n (sw_tx s) ∧ object_events_le m (sw_tx s) ∧
  tags_of (sw_t s) = tg ∧ 0 ≤ m.

(** Every shard bucket exists and holds no object. *)
Definition all_empty (n : Z) (tx : Root) : Prop :=
  Forall (λ i, tx !! shardDBName i = Some []) (seqZ 0 n).

(** [k] rollover counters. *)
Definition rollovers (k : nat) (tg : list string) : list Metric :=
  replicate k (Count "expiration.rollover" 1 tg).

(** The results [(swept, events, objects)] of a call that returned. *)
Definition counts_of (r : Res (Table * list Metric * (Z * Z * Z))) : option (Z * Z * Z) :=
  match r with
  | Ok (_, _, c) => Some c
  | _ => None
  end.

(** A store whose file lock is held by another process for longer than any
    timeout, and a schema closure that does nothing: instances for the
    examples of [open]. *)
Definition bolt_Open_locked (path : string) (mode : Z) (o : bolt_Options) : DB + error :=
  inr bolt_ErrTimeout.

Definition initSchema_nop : TxFn unit :=
  λ tx t sink, Ok (tx, t, sink, (), None).

(** ** Sharding *)

(** Conversion of an unsigned value to a 64-bit [int]. *)
Definition int_of_unsigned (u : Z) : Z := to_signed 64 (to_unsigned 64 u).

Section Sharding.
(** [hash.Local], declared outside table.go (package hash). *)
Variable hash_Local : string → Z.

(** [shardIndex]: [int(hash.Local(id)) % t.shardCount]; the remainder of
    Go truncates towards zero and panics on a zero divisor. *)
Definition shardIndex (t : Table) (id : string) : Res Z :=
  if shardCount t =? 0 then Panic "integer divide by zero"
  else Ok (Z.rem (int_of_unsigned (hash_Local id)) (shardCount t)).
End Sharding.

(** The 32-bit FNV-1a hash of a string, an instance of [hash.Local] for the
    examples. *)
Definition fnv32a (s : string) : Z :=
  fold_left (λ h b, (Z.lxor h (byte_val b) * 16777619) `mod` 2 ^ 32)
    (String.list_byte_of_string s) 2166136261.

(** ** The schema document *)

#[local] Unset Elimination Schemes.

(** A JSON value: what the text of a document denotes.  A number is an
    integer literal, written without fraction or exponent.  The string of a
    text is valid UTF-8; the decoder below coerces the strings it is given,
    as [encoding/json] does with the text. *)
Inductive json : Type :=
  | JNull
  | JBool (b : bool)
  | JNumber (z : Z)
  | JString (s : string)
  | JArray (l : list json)
  | JObject (fields : list (string * json)).
#[local] Set Elimination Schemes.

(** *** Strings of [encoding/json] *)

Global Instance byte_eq_dec : EqDecision byte := Byte.byte_eq_dec.

Definition in_range (lo hi : Z) (b : byte) : bool :=
  (lo <=? byte_val b) && (byte_val b <=? hi).

(** The length of the UTF-8 sequence that starts with the byte [b0], 0 for
    a byte that starts none; and the range of the second byte of the
    sequence ([unicode/utf8]). *)
Definition utf8_len (b0 : byte) : nat :=
  if byte_val b0 <? 0x80 then 1%nat
  else if in_range 0xc2 0xdf b0 then 2%nat
  else if in_range 0xe0 0xef b0 then 3%nat
  else if in_range 0xf0 0xf4 b0 then 4%nat
  else 0%nat.

Definition utf8_second (b0 b1 : byte) : bool :=
  if byte_val b0 =? 0xe0 then in_range 0xa0 0xbf b1
  else if byte_val b0 =? 0xed then in_range 0x80 0x9f b1
  else if byte_val b0 =? 0xf0 then in_range 0x90 0xbf b1
  else if byte_val b0 =? 0xf4 then in_range 0x80 0x8f b1
  else in_range 0x80 0xbf b1.

Definition utf8_cont (b : byte) : bool := in_range 0x80 0xbf b.

(** The UTF-8 form of U+FFFD, the replacement character. *)
Definition utf8_RuneError : bytes := [xef; xbf; xbd].

(** The coercion to valid UTF-8 of the encoder and of the decoder: every
    byte that [utf8.DecodeRune] does not take as the start of a well-formed
    sequence is replaced by U+FFFD. *)
Fixpoint utf8_coerce (s : bytes) : bytes :=
  match s with
  | [] => []
  | b0 :: r0 =>
      let bad := utf8_RuneError ++ utf8_coerce r0 in
      match utf8_len b0 with
      | 1%nat => b0 :: utf8_coerce r0
      | 2%nat =>
          match r0 with
          | b1 :: r1 =>
              if utf8_second b0 b1 then b0 :: b1 :: utf8_coerce r1 else bad
          | _ => bad
          end
      | 3%nat =>
          match r0 with
          | b1 :: b2 :: r2 =>
              if utf8_second b0 b1 && utf8_cont b2
              then b0 :: b1 :: b2 :: utf8_coerce r2 else bad
          | _ => bad
          end
      | 4%nat =>
          match r0 with
          | b1 :: b2 :: b3 :: r3 =>
              if utf8_second b0 b1 && utf8_cont b2 && utf8_cont b3
              then b0 :: b1 :: b2 :: b3 :: utf8_coerce r3 else bad
          | _ => bad
          end
      | _ => bad
      end
  end.

Definition to_valid_utf8 (s : string) : string :=
  String.string_of_list_byte (utf8_coerce (String.list_byte_of_string s)).

(** A string that is valid UTF-8. *)
Definition valid_utf8 (s : string) : Prop := to_valid_utf8 s = s.

Global Instance valid_utf8_dec s : Decision (valid_utf8 s).
Proof. unfold valid_utf8. apply _. Defined.

(** The folding under which the decoder matches the name of an object
    member with the name of a struct field when they are not equal: ASCII
    letters without their case, the long s (U+017F) as [s] and the Kelvin
    sign (U+212A) as [k]. *)
Fixpoint fold_name (s : bytes) : bytes :=
  match s with
  | [] => []
  | b0 :: r0 =>
      let keep := b0 :: fold_name r0 in
      if in_range 0x41 0x5a b0 then byte_of_Z (byte_val b0 + 32) :: fold_name r0
      else
        match r0 with
        | b1 :: r1 =>
            if Byte.eqb b0 xc5 && Byte.eqb b1 xbf then x73 :: fold_name r1
            else
              match r1 with
              | b2 :: r2 =>
                  if Byte.eqb b0 xe2 && Byte.eqb b1 x84 && Byte.eqb b2 xaa
                  then x6b :: fold_name r2 else keep
              | [] => keep
              end
        | [] => keep
        end
  end.

(** The member named [key] of a document is decoded into the field named
    [field].  (The names of the fields below differ under the folding, so
    that a member has at most one field.) *)
Definition member_of (field key : string) : bool :=
  bool_decide (fold_name (String.list_byte_of_string (to_valid_utf8 key)) =
               fold_name (String.list_byte_of_string field)).

(** The range of an [int]. *)
Definition int_range (z : Z) : Prop := - 2 ^ 63 ≤ z < 2 ^ 63.

Global Instance int_range_dec z : Decision (int_range z).
Proof. unfold int_range. apply _. Defined.

(** [tableRawMessage]; an element of [Properties] is a pointer, [None]
    when nil. *)
Record tableRawMessage := {
  msg_Name : string;
  msg_ShardCount : Z;
  msg_MaxPermanentID : Z;
  msg_MaxTransientID : Z;
  msg_Properties : list (option Property)
}.

(** Modelled from the spec: the JSON form of a property, declared with the
    [Property] type outside table.go; the spec gives it as
    [{"id": int, "name": string, "dataType": string, "transient": bool}]. *)
Definition Property_to_json (p : Property) : json :=
  JObject [("id", JNumber (ID p)); ("name", JString (to_valid_utf8 (Name p)));
           ("dataType", JString (to_valid_utf8 (DataType p)));
           ("transient", JBool (Transient p))].

(** [json.Marshal] of a [tableRawMessage]: the fields under their tags, in
    the order of the struct; strings are coerced to valid UTF-8; a nil
    slice and a nil pointer are written as [null]. *)
Definition json_Marshal (m : tableRawMessage) : json :=
  JObject [("name", JString (to_valid_utf8 (msg_Name m)));
           ("shardCount", JNumber (msg_ShardCount m));
           ("maxPermanentID", JNumber (msg_MaxPermanentID m));
           ("maxTransientID", JNumber (msg_MaxTransientID m));
           ("properties",
             match msg_Properties m with
             | [] => JNull
             | ps => JArray ((λ p, from_option Property_to_json JNull p) <$> ps)
             end)].

(** Decoding of a JSON value into a Go variable of a given type: [null]
    leaves a string, a number or a boolean as it is; a value of another
    kind, or a number outside the range of the type, is an error. *)
Definition json_to_string (j : json) (old : string) : option string :=
  match j with JString s => Some (to_valid_utf8 s) | JNull => Some old | _ => None end.

Definition json_to_int (j : json) (old : Z) : option Z :=
  match j with
  | JNumber z => if bool_decide (int_range z) then Some z else None
  | JNull => Some old
  | _ => None
  end.

Definition json_to_bool (j : json) (old : bool) : option bool :=
  match j with JBool b => Some b | JNull => Some old | _ => None end.

(** Modelled from the spec: decoding of a value into a [*Property] that
    holds [old] (see [Property_to_json]): [null] makes the pointer nil; an
    object is decoded into the property that the pointer refers to, a new
    one when the pointer is nil; the members are assigned in the order of
    the document, members of other names are skipped. *)
Definition json_to_Property (j : json) (old : option Property)
  : option (option Property) :=
  match j with
  | JNull => Some None
  | JObject fields =>
      Some <$>
      foldl (λ acc '(k, v),
               p ← acc;
               if member_of "id" k then
                 i ← json_to_int v (ID p);
                 Some {| ID := i; Name := Name p; Transient := Transient p; DataType := DataType p |}
               else if member_of "name" k then
                 s ← json_to_string v (Name p);
                 Some {| ID := ID p; Name := s; Transient := Transient p; DataType := DataType p |}
               else if member_of "dataType" k then
                 s ← json_to_string v (DataType p);
                 Some {| ID := ID p; Name := Name p; Transient := Transient p; DataType := s |}
               else if member_of "transient" k then
                 b ← json_to_bool v (Transient p);
                 Some {| ID := ID p; Name := Name p; Transient := b; DataType := DataType p |}
               else Some p)
            (Some (default {| ID := 0; Name := ""; Transient := false; DataType := "" |} old))
            fields
  | _ => None
  end.

(** Decoding of an array into a slice whose backing array holds [old]
    from the first element on: the element at an index is decoded into the
    pointer that the backing array has there.  The result is the slice and
    what the backing array holds behind it. *)
Fixpoint json_to_elements (l : list json) (old : list (option Property))
  : option (list (option Property) * list (option Property)) :=
  match l with
  | [] => Some ([], old)
  | j :: l' =>
      p ← json_to_Property j (default None (head old));
      '(ps, rest) ← json_to_elements l' (tail old);
      Some (p :: ps, rest)
  end.

(** Decoding into the field [Properties], a slice [old] with the elements
    [spare] behind it in its backing array: [null] makes the slice nil, an
    empty array makes it a new empty slice. *)
Definition json_to_Properties (j : json) (old spare : list (option Property))
  : option (list (option Property) * list (option Property)) :=
  match j with
  | JArray [] => Some ([], [])
  | JArray l => json_to_elements l (old ++ spare)
  | JNull => Some ([], [])
  | _ => None
  end.

(** [json.Unmarshal] into a zero [tableRawMessage]; [None] is the decoding
    error.  A document that is [null] leaves the message as it is. *)
Definition json_Unmarshal (j : json) : option tableRawMessage :=
  match j with
  | JNull =>
      Some {| msg_Name := ""; msg_ShardCount := 0; msg_MaxPermanentID := 0;
              msg_MaxTransientID := 0; msg_Properties := [] |}
  | JObject fields =>
      fst <$>
      foldl (λ acc '(k, v),
               '(m, spare) ← acc;
               if member_of "name" k then
                 s ← json_to_string v (msg_Name m);
                 Some ({| msg_Name := s; msg_ShardCount := msg_ShardCount m;
                          msg_MaxPermanentID := msg_MaxPermanentID m;
                          msg_MaxTransientID := msg_MaxTransientID m;
                          msg_Properties := msg_Properties m |}, spare)
               else if member_of "shardCount" k then
                 i ← json_to_int v (msg_ShardCount m);
                 Some ({| msg_Name := msg_Name m; msg_ShardCount := i;
                          msg_MaxPermanentID := msg_MaxPermanentID m;
                          msg_MaxTransientID := msg_MaxTransientID m;
                          msg_Properties := msg_Properties m |}, spare)
               else if member_of "maxPermanentID" k then
                 i ← json_to_int v (msg_MaxPermanentID m);
                 Some ({| msg_Name := msg_Name m; msg_ShardCount := msg_ShardCount m;
                          msg_MaxPermanentID := i;
                          msg_MaxTransientID := msg_MaxTransientID m;
                          msg_Properties := msg_Properties m |}, spare)
               else if member_of "maxTransientID" k then
                 i ← json_to_int v (msg_MaxTransientID m);
                 Some ({| msg_Name := msg_Name m; msg_ShardCount := msg_ShardCount m;
                          msg_MaxPermanentID := msg_MaxPermanentID m;
                          msg_MaxTransientID := i;
                          msg_Properties := msg_Properties m |}, spare)
               else if member_of "properties" k then
                 '(ps, spare) ← json_to_Properties v (msg_Properties m) spare;
                 Some ({| msg_Name := msg_Name m; msg_ShardCount := msg_ShardCount m;
                          msg_MaxPermanentID := msg_MaxPermanentID m;
                          msg_MaxTransientID := msg_MaxTransientID m;
                          msg_Properties := ps |}, spare)
               else Some (m, spare))
            (Some ({| msg_Name := ""; msg_ShardCount := 0; msg_MaxPermanentID := 0;
                      msg_MaxTransientID := 0; msg_Properties := [] |}, []))
            fields
  | _ => None
  end.

(** [Table.marshal] with the properties taken from the map in the order
    [ps]. *)
Definition marshal_in_order (ps : list Property) (t : Table) : json :=
  json_Marshal {| msg_Name := name t; msg_ShardCount := shardCount t;
                  msg_MaxPermanentID := maxPermanentID t;
                  msg_MaxTransientID := maxTransientID t;
                  msg_Properties := Some <$> ps |}.

(** [Table.marshal]: [range t.properties] yields the values of the map in an
    order that Go leaves open, so the method is a relation between the
    table and the documents it can return. *)
Definition marshal (t : Table) (doc : json) : Prop :=
  ∃ ps, ps ≡ₚ (map_to_list (properties t)).*2 ∧ doc = marshal_in_order ps t.

(** [Table.unmarshal]: the table after the call, or the decoding error (the
    table is then as before); the loop over the properties panics on a nil
    pointer, at [p.table = t]. *)
Definition unmarshal (data : json) (t : Table) : Res (Table + error) :=
  match json_Unmarshal data with
  | None => Ok (inr (Errorf "json: cannot unmarshal"))
  | Some msg =>
      match mapM id (msg_Properties msg) with
      | None => Panic "invalid memory address or nil pointer dereference"
      | Some ps =>
          Ok (inl {| StrictMode := StrictMode t; db := db t;
                     name := msg_Name msg; path := path t;
                     properties := foldl (λ m p, <[Name p := p]> m) ∅ ps;
                     propertiesByID := foldl (λ m p, <[ID p := p]> m) ∅ ps;
                     shardCount := msg_ShardCount msg;
                     maxPermanentID := msg_MaxPermanentID msg;
                     maxTransientID := msg_MaxTransientID msg;
                     currentShard := currentShard t; currentObject := currentObject t;
                     ddTagsCache := ddTagsCache t; boltStats := boltStats t |})
      end
  end.

(** A schema: the index by name holds each property under its name, and the
    index by id holds the same properties, each under its id. *)
Definition schema_indexed (t : Table) : Prop :=
  map_Forall (λ k p, Name p = k) (properties t) ∧
  map_Forall (λ i p, ID p = i ∧ properties t !! Name p = Some p) (propertiesByID t) ∧
  map_Forall (λ _ p, propertiesByID t !! ID p = Some p) (properties t).

(** A schema that a document can hold as it is: the numbers in the range
    of an [int], the strings valid UTF-8. *)
Definition schema_encodable (t : Table) : Prop :=
  valid_utf8 (name t) ∧ int_range (shardCount t) ∧
  int_range (maxPermanentID t) ∧ int_range (maxTransientID t) ∧
  map_Forall (λ _ p, int_range (ID p) ∧ valid_utf8 (Name p) ∧ valid_utf8 (DataType p))
    (properties t).

Global Instance schema_encodable_dec t : Decision (schema_encodable t).
Proof. unfold schema_encodable. apply _. Defined.

(** ** The event record *)

(** The dynamic values of an event's data map: nil, booleans, the signed
    and unsigned integer types, the two float types and strings ([uint64] is
    also what the decoder produces for the unsigned formats, [[]byte] what
    it produces for the binary formats).  A float is its IEEE-754 bit
    pattern; a string is its bytes. *)
Inductive int_kind := Kint | Kint8 | Kint16 | Kint32 | Kint64.
Inductive uint_kind := Kuint | Kuint8 | Kuint16 | Kuint32 | Kuint64.

Inductive value : Type :=
  | VNil
  | VBool (b : bool)
  | VInt (k : int_kind) (i : Z)
  | VUint (k : uint_kind) (u : Z)
  | VFloat32 (bits : Z)
  | VFloat64 (bits : Z)
  | VString (s : bytes)
  | VBytes (s : bytes).

Definition int_bits (k : int_kind) : Z :=
  match k with Kint8 => 8 | Kint16 => 16 | Kint32 => 32 | Kint | Kint64 => 64 end.

Definition uint_bits (k : uint_kind) : Z :=
  match k with Kuint8 => 8 | Kuint16 => 16 | Kuint32 => 32 | Kuint | Kuint64 => 64 end.

(** [rawEvent]. *)
Record rawEvent := {
  timestamp : Z;
  data : gmap Z value
}.

(** The values of the kinds that an event holds (nil, booleans, integers,
    floats and strings), within the range of their Go types. *)
Definition valid_value (v : value) : Prop :=
  match v with
  | VNil | VBool _ => True
  | VInt k i => - 2 ^ (int_bits k - 1) ≤ i < 2 ^ (int_bits k - 1)
  | VUint k u => 0 ≤ u < 2 ^ uint_bits k
  | VFloat32 b => 0 ≤ b < 2 ^ 32
  | VFloat64 b => 0 ≤ b < 2 ^ 64
  | VString s => Z.of_nat (length s) < 2 ^ 32
  | VBytes _ => False
  end.

Global Instance valid_value_dec v : Decision (valid_value v).
Proof. destruct v; simpl; apply _. Defined.

Definition valid_event (e : rawEvent) : Prop :=
  - 2 ^ 63 ≤ timestamp e < 2 ^ 63 ∧
  Z.of_nat (size (data e)) < 2 ^ 32 ∧
  map_Forall (λ k v, - 2 ^ 63 ≤ k < 2 ^ 63 ∧ valid_value v) (data e).

Global Instance valid_event_dec e : Decision (valid_event e).
Proof. unfold valid_event. apply _. Defined.

(** *** The MessagePack codec, as far as the event record uses it

    The codec library is outside the repository; these are the formats of
    MessagePack that its encoder writes for the values above (strings in the
    raw formats, as the handle does not ask for the newer string formats) and
    that its decoder reads into an [interface{}] (values) or an [int]
    (keys).  The decoder of the model covers the scalar formats and maps
    whose keys differ, which is more than the encoder writes for an event;
    on arrays, nested maps, extensions and repeated keys it stands for no
    run of the codec. *)

Definition encodeInt (i : Z) : bytes :=
  if (-32 <=? i) && (i <=? 127) then [byte_of_Z i]
  else if (i <? -32) && (-128 <=? i) then [xd0; byte_of_Z i]
  else if (-32768 <=? i) && (i <=? 32767) then xd1 :: be_encode 2 i
  else if (-2147483648 <=? i) && (i <=? 2147483647) then xd2 :: be_encode 4 i
  else xd3 :: be_encode 8 i.

Definition encodeUint (u : Z) : bytes :=
  if u <=? 127 then [byte_of_Z u]
  else if u <=? 255 then [xcc; byte_of_Z u]
  else if u <=? 65535 then xcd :: be_encode 2 u
  else if u <=? 4294967295 then xce :: be_encode 4 u
  else xcf :: be_encode 8 u.

Definition encodeString (s : bytes) : bytes :=
  let l := Z.of_nat (length s) in
  if l <? 32 then byte_of_Z (0xa0 + l) :: s
  else if l <? 65536 then xda :: be_encode 2 l ++ s
  else xdb :: be_encode 4 l ++ s.

Definition encodeMapLen (n : Z) : bytes :=
  if n <? 16 then [byte_of_Z (0x80 + n)]
  else if n <? 65536 then xde :: be_encode 2 n
  else xdf :: be_encode 4 n.

Definition encode_value (v : value) : bytes :=
  match v with
  | VNil => [xc0]
  | VBool false => [xc2]
  | VBool true => [xc3]
  | VInt _ i => encodeInt i
  | VUint _ u => encodeUint u
  | VFloat32 b => xca :: be_encode 4 b
  | VFloat64 b => xcb :: be_encode 8 b
  | VString s | VBytes s => encodeString s
  end.

(** The encoding of a map whose entries are visited in the order [l]. *)
Definition encode_map (l : list (Z * value)) : bytes :=
  encodeMapLen (Z.of_nat (length l))
    ++ concat ((λ kv, encodeInt kv.1 ++ encode_value kv.2) <$> l).

(** The next [n] bytes of the input and the rest. *)
Definition read (n : Z) (bs : bytes) : option (bytes * bytes) :=
  if Z.of_nat (length bs) <? n then None
  else Some (take (Z.to_nat n) bs, drop (Z.to_nat n) bs).

(** An integer in any of the integer formats. *)
Definition decode_integer (bs : bytes) : option (value * bytes) :=
  match bs with
  | [] => None
  | b :: r =>
      let bd := byte_val b in
      if bd <=? 0x7f then Some (VInt Kint64 bd, r)
      else if 0xe0 <=? bd then Some (VInt Kint64 (bd - 256), r)
      else if bd =? 0xcc then '(x, r) ← read 1 r; Some (VUint Kuint64 (be_decode x), r)
      else if bd =? 0xcd then '(x, r) ← read 2 r; Some (VUint Kuint64 (be_decode x), r)
      else if bd =? 0xce then '(x, r) ← read 4 r; Some (VUint Kuint64 (be_decode x), r)
      else if bd =? 0xcf then '(x, r) ← read 8 r; Some (VUint Kuint64 (be_decode x), r)
      else if bd =? 0xd0 then
        '(x, r) ← read 1 r; Some (VInt Kint64 (to_signed 8 (be_decode x)), r)
      else if bd =? 0xd1 then
        '(x, r) ← read 2 r; Some (VInt Kint64 (to_signed 16 (be_decode x)), r)
      else if bd =? 0xd2 then
        '(x, r) ← read 4 r; Some (VInt Kint64 (to_signed 32 (be_decode x)), r)
      else if bd =? 0xd3 then
        '(x, r) ← read 8 r; Some (VInt Kint64 (to_signed 64 (be_decode x)), r)
      else None
  end.

(** A map key, decoded into an [int]: an integer format; an unsigned
    value is converted to the signed type of 64 bits. *)
Definition decode_key (bs : bytes) : option (Z * bytes) :=
  '(v, r) ← decode_integer bs;
  match v with
  | VInt _ i => Some (i, r)
  | VUint _ u => Some (to_signed 64 (to_unsigned 64 u), r)
  | _ => None
  end.

(** The first byte of an integer format. *)
Definition integer_tag (bd : Z) : Prop :=
  bd ≤ 0x7f ∨ 0xe0 ≤ bd ∨ 0xcc ≤ bd ≤ 0xd3.

Section EventCodec.

(** The conversion [float64(x)] of a [float32], on bit patterns. *)
Variable float64_of_float32 : Z → Z.

(** A value decoded into an [interface{}]: integers come out as [int64]
    or [uint64], floats as [float64], the string formats as a string (the
    handle sets [RawToString]), the binary formats as a [[]byte].  Arrays,
    maps and extensions cannot occur in the data of an event record and
    are not decoded by the model. *)
Definition decode_value (bs : bytes) : option (value * bytes) :=
  match bs with
  | [] => None
  | b :: r =>
      let bd := byte_val b in
      if bd =? 0xc0 then Some (VNil, r)
      else if bd =? 0xc2 then Some (VBool false, r)
      else if bd =? 0xc3 then Some (VBool true, r)
      else if bd =? 0xca then
        '(x, r) ← read 4 r; Some (VFloat64 (float64_of_float32 (be_decode x)), r)
      else if bd =? 0xcb then
        '(x, r) ← read 8 r; Some (VFloat64 (be_decode x), r)
      else if (0xa0 <=? bd) && (bd <=? 0xbf) then
        '(s, r) ← read (bd - 0xa0) r; Some (VString s, r)
      else if bd =? 0xda then
        '(x, r) ← read 2 r; '(s, r) ← read (be_decode x) r; Some (VString s, r)
      else if bd =? 0xdb then
        '(x, r) ← read 4 r; '(s, r) ← read (be_decode x) r; Some (VString s, r)
      else if bd =? 0xd9 then
        '(x, r) ← read 1 r; '(s, r) ← read (be_decode x) r; Some (VString s, r)
      else if bd =? 0xc4 then
        '(x, r) ← read 1 r; '(s, r) ← read (be_decode x) r; Some (VBytes s, r)
      else if bd =? 0xc5 then
        '(x, r) ← read 2 r; '(s, r) ← read (be_decode x) r; Some (VBytes s, r)
      else if bd =? 0xc6 then
        '(x, r) ← read 4 r; '(s, r) ← read (be_decode x) r; Some (VBytes s, r)
      else decode_integer bs
  end.

(** The value that the decoder makes of an encoded value. *)
Definition naked (v : value) : value :=
  match v with
  | VInt _ i => VInt Kint64 i
  | VUint _ u => if u <=? 127 then VInt Kint64 u else VUint Kuint64 u
  | VFloat32 b => VFloat64 (float64_of_float32 b)
  | VBytes s => VString s
  | v => v
  end.

(** The length of a map: [nil] counts as the empty map. *)
Definition decode_mapLen (bs : bytes) : option (Z * bytes) :=
  match bs with
  | [] => None
  | b :: r =>
      let bd := byte_val b in
      if bd =? 0xc0 then Some (0, r)
      else if (0x80 <=? bd) && (bd <=? 0x8f) then Some (bd - 0x80, r)
      else if bd =? 0xde then '(x, r) ← read 2 r; Some (be_decode x, r)
      else if bd =? 0xdf then '(x, r) ← read 4 r; Some (be_decode x, r)
      else None
  end.

(** The loop of the map decoder: [n] times a key and a value, each stored
    in the map. *)
Fixpoint decode_entries (n : nat) (bs : bytes) (m : gmap Z value)
  : option (gmap Z value * bytes) :=
  match n with
  | O => Some (m, bs)
  | S n' =>
      '(k, r) ← decode_key bs;
      '(v, r) ← decode_value r;
      decode_entries n' r (<[k := v]> m)
  end.

Definition decode_map (bs : bytes) (m : gmap Z value) : option (gmap Z value) :=
  '(n, r) ← decode_mapLen bs;
  '(m, _) ← decode_entries (Z.to_nat n) r m;
  Some m.

(** Modelled from the spec: [promote] is declared outside table.go; the
    spec has every value "promoted to the canonical runtime type ... (e.g.,
    any integer width → 64-bit signed; any floating width → 64-bit)". *)
Definition promote (v : value) : value :=
  match v with
  | VInt _ i => VInt Kint64 i
  | VUint _ u => VInt Kint64 (to_signed 64 (to_unsigned 64 u))
  | VFloat32 b => VFloat64 (float64_of_float32 b)
  | v => v
  end.

(** [rawEvent.marshal] when the codec visits the data map in the order
    [l]: the timestamp as 8 big-endian bytes, then the map. *)
Definition rawEvent_marshal_in_order (l : list (Z * value)) (e : rawEvent) : bytes :=
  be_encode 8 (timestamp e) ++ encode_map l.

(** [rawEvent.marshal]: the order in which the codec visits a Go map is
    open, so the method is a relation between the event and the byte
    strings it can return. *)
Definition rawEvent_marshal (e : rawEvent) (b : bytes) : Prop :=
  ∃ l, l ≡ₚ map_to_list (data e) ∧ b = rawEvent_marshal_in_order l e.

(** [rawEvent.normalize]. *)
Definition normalize (e : rawEvent) : rawEvent :=
  {| timestamp := timestamp e; data := promote <$> data e |}.

(** [rawEvent.unmarshal] into a fresh event: the event, or the error of the
    decoder; the [assert] on the timestamp panics on a short input. *)
Definition rawEvent_unmarshal (b : bytes) : Res (rawEvent + error) :=
  match read 8 b with
  | None => Panic "timestamp unmarshal error: unexpected EOF"
  | Some (ts, rest) =>
      match decode_map rest ∅ with
      | None => Ok (inr (Errorf "msgpack decode error"))
      | Some m =>
          Ok (inl (normalize {| timestamp := to_signed 64 (be_decode ts); data := m |}))
      end
  end.

End EventCodec.

(** An event and a schema for the examples; the [float32] is 3.1415927
    (the bits 0x40490fdb). *)
Definition sample_event : rawEvent :=
  {| timestamp := -5;
     data := {[ 1 := VInt Kint 300; -2 := VString [x61; x62];
                3 := VFloat32 0x40490fdb;
                4 := VNil; 5 := VBool true; 6 := VInt Kint8 (-100) ]} |}.

Definition action : Property :=
  {| ID := 1; Name := "action"; Transient := false; DataType := "factor" |}.

Definition price : Property :=
  {| ID := -1; Name := "price"; Transient := true; DataType := "float" |}.

Definition sample_schema : Table :=
  {| StrictMode := false; db := None; name := "purchases"; path := "/tmp/purchases";
     properties := {[ "action" := action; "price" := price ]};
     propertiesByID := {[ 1 := action; -1 := price ]};
     shardCount := 4; maxPermanentID := 1; maxTransientID := 1;
     currentShard := 0; currentObject := None; ddTagsCache := None;
     boltStats := None |}.

Global Instance schema_indexed_dec t : Decision (schema_indexed t).
Proof. unfold schema_indexed. apply _. Defined.

(** A table whose name is the single byte 0xff, which is not valid
    UTF-8. *)
Definition misnamed : Table := NewTable (String.string_of_list_byte [xff]) "/tmp/t".

(** The conversion [float64(x)] of a [float32] on bit patterns, an
    instance of [float64_of_float32] for the examples.  A zero keeps its
    sign; a subnormal number [m * 2^-149] is normal as a [float64], with
    the exponent of its leading bit [p]; a normal number gets the new bias
    of the exponent and the mantissa shifted; an infinity stays one, and a
    NaN becomes a quiet NaN with the mantissa shifted. *)
Definition float64_of_float32_bits (b : Z) : Z :=
  let s := b / 2 ^ 31 in
  let e := (b / 2 ^ 23) `mod` 256 in
  let m := b `mod` 2 ^ 23 in
  if e =? 0 then
    if m =? 0 then s * 2 ^ 63
    else
      let p := Z.log2 m in
      s * 2 ^ 63 + (p - 149 + 1023) * 2 ^ 52 + (m - 2 ^ p) * 2 ^ (52 - p)
  else if e =? 255 then
    if m =? 0 then s * 2 ^ 63 + 2047 * 2 ^ 52
    else s * 2 ^ 63 + 2047 * 2 ^ 52 + Z.lor (m * 2 ^ 29) (2 ^ 51)
  else s * 2 ^ 63 + (e - 127 + 1023) * 2 ^ 52 + m * 2 ^ 29.

(** ** Vocabulary of the statements on the stored events *)

(** The buckets hold the event [ev] (key and record) under the object
    [object] of the shard bucket named [shard]. *)
Definition stored (tx : Root) (shard : string) (object : bytes) (ev : bytes * bytes) : Prop :=
  ∃ sb ob, tx !! shard = Some sb ∧ (object, ob) ∈ sb ∧ ev ∈ ob.

(** An event key below the bound: the test of the sweeper's inner loop. *)
Definition expired (bound : bytes) (ev : bytes * bytes) : Prop :=
  bytes_Compare ev.1 bound < 0.

Global Instance expired_dec bound ev : Decision (expired bound ev).
Proof. unfold expired. apply _. Defined.

(** The relations that a batch keeps between the buckets before and after. *)
Definition keeps_unexpired (bound : bytes) (tx tx' : Root) : Prop :=
  ∀ shard object ev,
    stored tx shard object ev → ¬ expired bound ev → stored tx' shard object ev.

Definition adds_nothing (tx tx' : Root) : Prop :=
  dom tx' = dom tx ∧
  ∀ shard object ev, stored tx' shard object ev → stored tx shard object ev.

(** The number of events in a shard bucket, and the numbers of events and
    of objects in all buckets. *)
Definition bucket_events (sb : ShardBucket) : Z :=
  foldr (λ e acc, Z.of_nat (length e.2) + acc) 0 sb.

Definition total_events (tx : Root) : Z :=
  map_fold (λ _ (sb : ShardBucket) acc, bucket_events sb + acc) 0 tx.

Definition total_objects (tx : Root) : Z :=
  map_fold (λ _ (sb : ShardBucket) acc, Z.of_nat (length sb) + acc) 0 tx.

(** No shard bucket holds an object without events. *)
Definition no_empty_object (tx : Root) : Prop :=
  map_Forall (λ _ (sb : ShardBucket), Forall (λ e, e.2 ≠ []) sb) tx.

Global Instance no_empty_object_dec tx : Decision (no_empty_object tx).
Proof. unfold no_empty_object. apply _. Defined.

(** A bucket whose keys ascend strictly, as Bolt keeps them. *)
Fixpoint ascending {V} (b : list (bytes * V)) : Prop :=
  match b with
  | [] => True
  | e :: b' =>
      match b' with
      | [] => True
      | e' :: _ => bytes_Compare e.1 e'.1 < 0
      end ∧ ascending b'
  end.

Global Instance ascending_dec {V} (b : list (bytes * V)) : Decision (ascending b).
Proof.
  induction b as [|e [|e' b'] IH]; simpl; [apply _ .. | ].
  apply and_dec; [apply _ | exact IH].
Defined.

(** ** Names of buckets and keys of factors *)

(** [factorDBName]: [fmt.Sprintf("factors/%d", propertyID)]. *)
Definition factorDBName (propertyID : Z) : string := "factors/" +:+ pretty propertyID.

(** [factorKey]: [fmt.Sprintf(">%s", value)]. *)
Definition factorKey (value : string) : string := ">" +:+ value.

(** [reverseFactorKey]: [fmt.Sprintf("<%d", index)]. *)
Definition reverseFactorKey (index : Z) : string := "<" +:+ pretty index.

(** ** Statistics of the table's operations *)

(** The result of an operation on the 64-bit [int] (and on [time.Duration],
    an [int64]): the value modulo [2^64], as a signed number. *)
Definition int_wrap (z : Z) : Z := to_signed 64 (to_unsigned 64 z).

(** [Stat]: the nested anonymous structs are flattened, a field is named by
    its path.  Counts are [int], durations are [time.Duration]. *)
Record Stat := {
  Event_Fetch_Count : Z;
  Event_Fetch_Duration : Z;
  Event_Insert_Count : Z;
  Event_Insert_Duration : Z;
  Event_Delete_Count : Z;
  Event_Delete_Duration : Z;
  Event_Factorize_CacheHit_Count : Z;
  Event_Factorize_FetchHit_Count : Z;
  Event_Factorize_FetchHit_Duration : Z;
  Event_Factorize_FetchMiss_Count : Z;
  Event_Factorize_FetchMiss_Duration : Z;
  Event_Factorize_Create_Count : Z;
  Event_Factorize_Create_Duration : Z;
  Event_Defactorize_CacheHit_Count : Z;
  Event_Defactorize_FetchHit_Count : Z;
  Event_Defactorize_FetchHit_Duration : Z;
  Event_Defactorize_FetchMiss_Count : Z;
  Event_Defactorize_FetchMiss_Duration : Z;
  Event_Marshal_Count : Z;
  Event_Marshal_Duration : Z;
  Event_Unmarshal_Count : Z;
  Event_Unmarshal_Duration : Z
}.

(** [Stat.Diff]. *)
Definition Diff (s other : Stat) : Stat :=
  {| Event_Fetch_Count := int_wrap (Event_Fetch_Count s - Event_Fetch_Count other);
     Event_Fetch_Duration := int_wrap (Event_Fetch_Duration s - Event_Fetch_Duration other);
     Event_Insert_Count := int_wrap (Event_Insert_Count s - Event_Insert_Count other);
     Event_Insert_Duration := int_wrap (Event_Insert_Duration s - Event_Insert_Duration other);
     Event_Delete_Count := int_wrap (Event_Delete_Count s - Event_Delete_Count other);
     Event_Delete_Duration := int_wrap (Event_Delete_Duration s - Event_Delete_Duration other);
     Event_Factorize_CacheHit_Count :=
       int_wrap (Event_Factorize_CacheHit_Count s - Event_Factorize_CacheHit_Count other);
     Event_Factorize_FetchHit_Count :=
       int_wrap (Event_Factorize_FetchHit_Count s - Event_Factorize_FetchHit_Count other);
     Event_Factorize_FetchHit_Duration :=
       int_wrap (Event_Factorize_FetchHit_Duration s - Event_Factorize_FetchHit_Duration other);
     Event_Factorize_FetchMiss_Count :=
       int_wrap (Event_Factorize_FetchMiss_Count s - Event_Factorize_FetchMiss_Count other);
     Event_Factorize_FetchMiss_Duration :=
       int_wrap (Event_Factorize_FetchMiss_Duration s - Event_Factorize_FetchMiss_Duration other);
     Event_Factorize_Create_Count :=
       int_wrap (Event_Factorize_Create_Count s - Event_Factorize_Create_Count other);
     Event_Factorize_Create_Duration :=
       int_wrap (Event_Factorize_Create_Duration s - Event_Factorize_Create_Duration other);
     Event_Defactorize_CacheHit_Count :=
       int_wrap (Event_Defactorize_CacheHit_Count s - Event_Defactorize_CacheHit_Count other);
     Event_Defactorize_FetchHit_Count :=
       int_wrap (Event_Defactorize_FetchHit_Count s - Event_Defactorize_FetchHit_Count other);
     Event_Defactorize_FetchHit_Duration :=
       int_wrap (Event_Defactorize_FetchHit_Duration s
                 - Event_Defactorize_FetchHit_Duration other);
     Event_Defactorize_FetchMiss_Count :=
       int_wrap (Event_Defactorize_FetchMiss_Count s - Event_Defactorize_FetchMiss_Count other);
     Event_Defactorize_FetchMiss_Duration :=
       int_wrap (Event_Defactorize_FetchMiss_Duration s
                 - Event_Defactorize_FetchMiss_Duration other);
     Event_Marshal_Count := int_wrap (Event_Marshal_Count s - Event_Marshal_Count other);
     Event_Marshal_Duration :=
       int_wrap (Event_Marshal_Duration s - Event_Marshal_Duration other);
     Event_Unmarshal_Count := int_wrap (Event_Unmarshal_Count s - Event_Unmarshal_Count other);
     Event_Unmarshal_Duration :=
       int_wrap (Event_Unmarshal_Duration s - Event_Unmarshal_Duration other) |}.

(** The fields of a [Stat], in the order of the struct. *)
Definition Stat_fields (s : Stat) : list Z :=
  [ Event_Fetch_Count s; Event_Fetch_Duration s;
    Event_Insert_Count s; Event_Insert_Duration s;
    Event_Delete_Count s; Event_Delete_Duration s;
    Event_Factorize_CacheHit_Count s;
    Event_Factorize_FetchHit_Count s; Event_Factorize_FetchHit_Duration s;
    Event_Factorize_FetchMiss_Count s; Event_Factorize_FetchMiss_Duration s;
    Event_Factorize_Create_Count s; Event_Factorize_Create_Duration s;
    Event_Defactorize_CacheHit_Count s;
    Event_Defactorize_FetchHit_Count s; Event_Defactorize_FetchHit_Duration s;
    Event_Defactorize_FetchMiss_Count s; Event_Defactorize_FetchMiss_Duration s;
    Event_Marshal_Count s; Event_Marshal_Duration s;
    Event_Unmarshal_Count s; Event_Unmarshal_Duration s ].

(** A [Stat] whose fields are values of their 64-bit types. *)
Definition Stat_in_range (s : Stat) : Prop :=
  Forall (λ x, - 2 ^ 63 ≤ x < 2 ^ 63) (Stat_fields s).

Global Instance Stat_in_range_dec s : Decision (Stat_in_range s).
Proof. unfold Stat_in_range. apply _. Defined.

(** The zero value [Stat{}]. *)
Definition Stat_zero : Stat :=
  {| Event_Fetch_Count := 0; Event_Fetch_Duration := 0;
     Event_Insert_Count := 0; Event_Insert_Duration := 0;
     Event_Delete_Count := 0; Event_Delete_Duration := 0;
     Event_Factorize_CacheHit_Count := 0;
     Event_Factorize_FetchHit_Count := 0; Event_Factorize_FetchHit_Duration := 0;
     Event_Factorize_FetchMiss_Count := 0; Event_Factorize_FetchMiss_Duration := 0;
     Event_Factorize_Create_Count := 0; Event_Factorize_Create_Duration := 0;
     Event_Defactorize_CacheHit_Count := 0;
     Event_Defactorize_FetchHit_Count := 0; Event_Defactorize_FetchHit_Duration := 0;
     Event_Defactorize_FetchMiss_Count := 0; Event_Defactorize_FetchMiss_Duration := 0;
     Event_Marshal_Count := 0; Event_Marshal_Duration := 0;
     Event_Unmarshal_Count := 0; Event_Unmarshal_Duration := 0 |}.

(** ** Storage statistics *)

(** [bolt.BucketStats]. *)
Module BucketStats.
Record t := {
  BranchPageN : Z; BranchOverflowN : Z; LeafPageN : Z; LeafOverflowN : Z;
  KeyN : Z; Depth : Z;
  BranchAlloc : Z; BranchInuse : Z; LeafAlloc : Z; LeafInuse : Z;
  BucketN : Z; InlineBucketN : Z; InlineBucketInuse : Z
}.

(** The zero value of a [var s bolt.BucketStats]. *)
Definition zero : t :=
  {| BranchPageN := 0; BranchOverflowN := 0; LeafPageN := 0; LeafOverflowN := 0;
     KeyN := 0; Depth := 0;
     BranchAlloc := 0; BranchInuse := 0; LeafAlloc := 0; LeafInuse := 0;
     BucketN := 0; InlineBucketN := 0; InlineBucketInuse := 0 |}.
End BucketStats.

(** [TableStats]. *)
Module TableStats.
Record t := {
  BranchPages : Z; BranchOverflow : Z; LeafPages : Z; LeafOverflow : Z;
  FreePages : Z; PendingPages : Z;
  KeyCount : Z; Depth : Z;
  BranchAlloc : Z; BranchInuse : Z; LeafAlloc : Z; LeafInuse : Z;
  FreeAlloc : Z; FreelistInuse : Z; FreelistAlloc : Z;
  Buckets : Z; InlineBuckets : Z; InlineBucketsInuse : Z
}.
End TableStats.

(** The order of the bucket names in the root of a transaction: the order
    of their bytes. *)
Definition name_le (a b : string * ShardBucket) : Prop :=
  bytes_Compare (String.list_byte_of_string a.1) (String.list_byte_of_string b.1) ≤ 0.

Global Instance name_le_dec a b : Decision (name_le a b).
Proof. unfold name_le. apply _. Defined.

(** [Tx.ForEach]: the buckets of the root by ascending name. *)
Definition tx_ForEach (tx : Root) : list (string * ShardBucket) :=
  merge_sort name_le (map_to_list tx).

(** The prefix of the names that [Stats] takes for data buckets. *)
Definition shardPrefix : string := "shard".

Definition data_bucket (b : string * ShardBucket) : Prop :=
  String.prefix shardPrefix b.1 = true.

Global Instance data_bucket_dec b : Decision (data_bucket b).
Proof. unfold data_bucket. apply _. Defined.

Section StorageStats.

(** [Bucket.Stats] of the bucket of a given name and content, and
    [BucketStats.Add], both of Bolt. *)
Variable bucket_Stats : string → ShardBucket → BucketStats.t.
Variable BucketStats_Add : BucketStats.t → BucketStats.t → BucketStats.t.

(** [DB.Info().PageSize]. *)
Variable db_PageSize : DB → Z.

(** The callback that [Stats] passes to [ForEach], over the buckets in the
    order of the iteration. *)
Definition gather (all : bool) (bs : list (string * ShardBucket)) : BucketStats.t :=
  foldl (λ s b,
           if all || String.prefix shardPrefix b.1
           then BucketStats_Add s (bucket_Stats b.1 b.2)
           else s)
        BucketStats.zero bs.

(** [Table.Stats]: the statistics (a nil pointer when the error is not
    nil) and the error.  On a handle that is closed [bolt.DB.View] returns
    [ErrDatabaseNotOpen] without calling the closure.  The division of Go
    truncates towards zero and panics on a zero divisor. *)
Definition Table_Stats (all : bool) (t : Table)
  : Res (option TableStats.t * option error) :=
  match db t with
  | None => Panic "invalid memory address or nil pointer dereference"
  | Some d =>
      if negb (db_opened d) then Ok (None, Some bolt_ErrDatabaseNotOpen) else
      let s := gather all (tx_ForEach (db_root d)) in
      let dbs := db_stats d in
      let pageSize := db_PageSize d in
      if pageSize =? 0 then Panic "integer divide by zero" else
      Ok (Some
          {| TableStats.BranchPages := BucketStats.BranchPageN s;
             TableStats.BranchOverflow := BucketStats.BranchOverflowN s;
             TableStats.LeafPages := BucketStats.LeafPageN s;
             TableStats.LeafOverflow := BucketStats.LeafOverflowN s;
             TableStats.FreePages := FreePageN dbs;
             TableStats.PendingPages := PendingPageN dbs;
             TableStats.KeyCount := BucketStats.KeyN s;
             TableStats.Depth := BucketStats.Depth s;
             TableStats.BranchAlloc := BucketStats.BranchAlloc s;
             TableStats.BranchInuse := BucketStats.BranchInuse s;
             TableStats.LeafAlloc := BucketStats.LeafAlloc s;
             TableStats.LeafInuse := BucketStats.LeafInuse s;
             TableStats.FreeAlloc := FreeAlloc dbs;
             TableStats.FreelistInuse := FreelistInuse dbs;
             TableStats.FreelistAlloc :=
               int_wrap
                 (int_wrap (Z.quot (int_wrap (FreelistInuse dbs - 1)) pageSize + 1)
                  * pageSize);
             TableStats.Buckets := BucketStats.BucketN s;
             TableStats.InlineBuckets := BucketStats.InlineBucketN s;
             TableStats.InlineBucketsInuse := BucketStats.InlineBucketInuse s |},
          None)
  end.

End StorageStats.

(** ** Closing the table *)

Section Closing.

(** [bolt.DB.Close]: the database object after the call. *)
Variable bolt_DB_Close : DB → DB.

(** [close]: the database is closed; the field [db] keeps pointing to
    it. *)
Definition close (t : Table) : Table :=
  match db t with
  | Some d => set_db (Some (bolt_DB_Close d)) t
  | None => t
  end.

End Closing.

(** Instances for the examples: a bucket counts as one bucket with its
    objects as keys, statistics add up field by field (the depth is the
    largest one), and pages have 4096 bytes. *)
Definition count_keys (nm : string) (b : ShardBucket) : BucketStats.t :=
  {| BucketStats.BranchPageN := 0; BucketStats.BranchOverflowN := 0;
     BucketStats.LeafPageN := 1; BucketStats.LeafOverflowN := 0;
     BucketStats.KeyN := Z.of_nat (length b); BucketStats.Depth := 1;
     BucketStats.BranchAlloc := 0; BucketStats.BranchInuse := 0;
     BucketStats.LeafAlloc := 4096; BucketStats.LeafInuse := 0;
     BucketStats.BucketN := 1; BucketStats.InlineBucketN := 0;
     BucketStats.InlineBucketInuse := 0 |}.

Definition add_fields (a b : BucketStats.t) : BucketStats.t :=
  {| BucketStats.BranchPageN := BucketStats.BranchPageN a + BucketStats.BranchPageN b;
     BucketStats.BranchOverflowN :=
       BucketStats.BranchOverflowN a + BucketStats.BranchOverflowN b;
     BucketStats.LeafPageN := BucketStats.LeafPageN a + BucketStats.LeafPageN b;
     BucketStats.LeafOverflowN := BucketStats.LeafOverflowN a + BucketStats.LeafOverflowN b;
     BucketStats.KeyN := BucketStats.KeyN a + BucketStats.KeyN b;
     BucketStats.Depth := Z.max (BucketStats.Depth a) (BucketStats.Depth b);
     BucketStats.BranchAlloc := BucketStats.BranchAlloc a + BucketStats.BranchAlloc b;
     BucketStats.BranchInuse := BucketStats.BranchInuse a + BucketStats.BranchInuse b;
     BucketStats.LeafAlloc := BucketStats.LeafAlloc a + BucketStats.LeafAlloc b;
     BucketStats.LeafInuse := BucketStats.LeafInuse a + BucketStats.LeafInuse b;
     BucketStats.BucketN := BucketStats.BucketN a + BucketStats.BucketN b;
     BucketStats.InlineBucketN := BucketStats.InlineBucketN a + BucketStats.InlineBucketN b;
     BucketStats.InlineBucketInuse :=
       BucketStats.InlineBucketInuse a + BucketStats.InlineBucketInuse b |}.

Definition page_4096 (d : DB) : Z := 4096.

(** A root with the two shards of [sample_root], a factor bucket and the
    meta bucket. *)
Definition mixed_root : Root :=
  <[factorDBName 1 := [([x61], [])]]> (<["meta" := []]> sample_root).

(** A database with counters other than zero, a [Stat], a document that
    names the table ["renamed"], a store that opens on two empty shards, a
    schema closure that fails, and a [Close] that marks the handle as
    closed. *)
Definition sample_stats : Stats :=
  {| FreePageN := 3; PendingPageN := 1; FreeAlloc := 16384; FreelistInuse := 5000;
     TxN := 7; OpenTxN := 0; TxStats_ := TxStats_zero |}.

Definition stats_db (root : Root) : DB :=
  {| db_root := root; db_stats := sample_stats;
     FillPercent := (9, 10); db_StrictMode := false; db_opened := true |}.

Definition sample_stat : Stat :=
  {| Event_Fetch_Count := 4; Event_Fetch_Duration := 1200;
     Event_Insert_Count := 9; Event_Insert_Duration := 88000;
     Event_Delete_Count := 0; Event_Delete_Duration := 0;
     Event_Factorize_CacheHit_Count := 17;
     Event_Factorize_FetchHit_Count := 2; Event_Factorize_FetchHit_Duration := 300;
     Event_Factorize_FetchMiss_Count := 1; Event_Factorize_FetchMiss_Duration := 150;
     Event_Factorize_Create_Count := 1; Event_Factorize_Create_Duration := 900;
     Event_Defactorize_CacheHit_Count := 5;
     Event_Defactorize_FetchHit_Count := 0; Event_Defactorize_FetchHit_Duration := 0;
     Event_Defactorize_FetchMiss_Count := 0; Event_Defactorize_FetchMiss_Duration := 0;
     Event_Marshal_Count := 9; Event_Marshal_Duration := 4000;
     Event_Unmarshal_Count := 4; Event_Unmarshal_Duration := 2000 |}.

Definition renamed_doc : json := marshal_in_order [] (NewTable "renamed" "").

Definition bolt_Open_fresh (path : string) (mode : Z) (o : bolt_Options) : DB + error :=
  inl (store empty_root).

Definition initSchema_fail : TxFn unit :=
  λ tx t sink, Ok (tx, t, sink, (), Some (Errorf "meta: bucket name required")).

Definition Close_handle (d : DB) : DB :=
  {| db_root := db_root d; db_stats := db_stats d; FillPercent := FillPercent d;
     db_StrictMode := db_StrictMode d; db_opened := false |}.

(** * Properties *)



(** ** Byte strings and buckets *)

Lemma bytes_Compare_refl (a : bytes) : bytes_Compare a a = 0.
Proof.
  induction a as [|x a IH]; [done|]. simpl.
  by rewrite Z.ltb_irrefl.
Qed.

Section BucketFacts.
Context {V : Type}.
Implicit Types (b c : list (bytes * V)) (k : bytes).

Lemma cursor_Seek_suffix k b : cursor_Seek k b `suffix_of` b.
Proof.
  induction b as [|e b IH]; simpl; [done|].
  destruct (bytes_Compare e.1 k <? 0); [by apply suffix_cons_r | done].
Qed.

Lemma cursor_First_elem b k : cursor_First b = Some k → ∃ v, (k, v) ∈ b.
Proof.
  destruct b as [|[k' v] b]; [done|]. intros [= <-]. exists v. left.
Qed.

Lemma cursor_Next_elem c k : cursor_Next c = Some k → ∃ v, (k, v) ∈ c.
Proof.
  destruct c as [|e [|[k' v] c]]; try done. intros [= <-].
  exists v. right. left.
Qed.

Lemma bucket_get_elem b k v : (k, v) ∈ b → ∃ v', bucket_get k b = Some v' ∧ ∃ k', (k', v') ∈ b.
Proof.
  induction b as [|e b IH]; [by intros ?%elem_of_nil|].
  intros Hin. simpl. destruct (bytes_Compare e.1 k =? 0) eqn:E.
  - exists e.2. split; [done|]. exists e.1. destruct e; left.
  - apply elem_of_cons in Hin as [<-|Hin].
    + simpl in E. rewrite bytes_Compare_refl in E. done.
    + destruct (IH Hin) as (v' & -> & k' & Hk'). exists v'. split; [done|].
      exists k'. by right.
Qed.

Lemma bucket_set_elem b k v e :
  e ∈ bucket_set k v b → e ∈ b ∨ e.2 = v.
Proof.
  induction b as [|x b IH]; simpl; [by left|].
  destruct (bytes_Compare x.1 k =? 0).
  - intros [->|?]%elem_of_cons; [by right | left; by right].
  - intros [->|?]%elem_of_cons; [left; left|].
    destruct (IH H) as [?|?]; [left; by right | by right].
Qed.

Lemma bucket_delete_elem b k e : e ∈ bucket_delete k b → e ∈ b.
Proof.
  induction b as [|x b IH]; simpl; [done|].
  destruct (bytes_Compare x.1 k =? 0).
  - by right.
  - intros [->|?]%elem_of_cons; [left | right; auto].
Qed.
End BucketFacts.

(** ** The tag cache *)

Lemma ddTags_spec t : ∃ t', ddTags t = (tags_of t, t') ∧
  tags_of t' = tags_of t ∧ ddTagsCache t' = Some (tags_of t) ∧
  set_ddTagsCache (Some (tags_of t)) t = t'.
Proof.
  unfold ddTags, tags_of. destruct t as [? ? ? ? ? ? ? ? ? ? ? [c|] ?]; simpl; eauto.
Qed.

Lemma tags_of_set_sweep c o t : tags_of (set_sweep c o t) = tags_of t.
Proof. done. Qed.

(** ** The sweep loop *)

Lemma shards_exist_lookup n tx i :
  shards_exist n tx → 0 ≤ i < n → is_Some (tx !! shardDBName i).
Proof.
  unfold shards_exist. rewrite Forall_forall. intros H Hi.
  apply H, elem_of_seqZ. lia.
Qed.

Lemma shards_exist_insert n (tx : Root) nm sb :
  shards_exist n tx → shards_exist n (<[nm := sb]> tx).
Proof.
  unfold shards_exist. intros H. eapply Forall_impl; [exact H|].
  intros i [x Hx]. simpl.
  destruct (decide (nm = shardDBName i)) as [->|Hne].
  - rewrite lookup_insert_eq. eauto.
  - rewrite lookup_insert_ne; eauto.
Qed.

Lemma object_events_le_insert m (tx : Root) nm (sb' : ShardBucket) :
  object_events_le m tx →
  Forall (λ e, Z.of_nat (length e.2) ≤ m) sb' →
  object_events_le m (<[nm := sb']> tx).
Proof. intros H Hsb. by apply map_Forall_insert_2. Qed.

Lemma sweepEvents_spec bound ob ev :
  ∃ ob' ev' k, sweepEvents bound ob ev = (ob', ev', k) ∧
    ev ≤ ev' ≤ ev + Z.of_nat (length ob) ∧
    (length ob' ≤ length ob)%nat ∧
    (k = None → ob' = [] ∧ ev' = ev + Z.of_nat (length ob)).
Proof.
  revert ev. induction ob as [|e ob IH]; intros ev; simpl.
  - exists [], ev, None. repeat split; auto; lia.
  - destruct (bytes_Compare e.1 bound <? 0).
    + destruct (IH (ev + 1)) as (ob' & ev' & k & -> & ? & ? & Hk).
      exists ob', ev', k. repeat split; try lia.
      * by apply Hk.
      * destruct (Hk H1). lia.
    + exists (e :: ob), ev, (Some e.1). repeat split; simpl; try lia; done.
Qed.

Lemma nextObjectKey_elem t (sb : ShardBucket) k :
  nextObjectKey t sb = Some k → ∃ v, (k, v) ∈ sb.
Proof.
  unfold nextObjectKey. destruct (currentObject t) as [c|].
  - intros [v Hv]%cursor_Next_elem. exists v.
    eapply elem_of_suffix; [exact Hv | apply cursor_Seek_suffix].
  - apply cursor_First_elem.
Qed.

Lemma sweep_inv_sb n m tg s :
  sweep_inv n m tg s → ∃ sb, sw_tx s !! sw_sb s = Some sb.
Proof.
  intros (Hn & Hpos & Hc & -> & Hex & _).
  destruct (shards_exist_lookup _ _ _ Hex Hc) as [sb Hsb]. eauto.
Qed.

(** An iteration on an exhausted cursor: the rollover. *)
Lemma sweepStep_exhausted bound s sb n m tg :
  sweep_inv n m tg s →
  sw_tx s !! sw_sb s = Some sb →
  nextObjectKey (sw_t s) sb = None →
  sweepStep bound s =
    Ok {| sw_t := set_ddTagsCache (Some tg)
                    (set_sweep ((currentShard (sw_t s) + 1) `mod` n) None (sw_t s));
          sw_tx := sw_tx s;
          sw_sink := sw_sink s ++ [Count "expiration.rollover" 1 tg];
          sw_sb := shardDBName ((currentShard (sw_t s) + 1) `mod` n);
          swept := swept s; events := events s; objects := objects s |}.
Proof.
  intros (Hn & Hpos & Hc & Hsb & Hex & Hle & Htg & Hm) Hlk Hnone.
  unfold sweepStep. rewrite Hlk, Hnone. unfold ShardCount. rewrite Hn.
  destruct (n =? 0) eqn:E; [lia|].
  rewrite Z.rem_mod_nonneg by lia.
  assert (0 ≤ (currentShard (sw_t s) + 1) `mod` n < n) as Hr
    by (apply Z.mod_pos_bound; lia).
  destruct (shards_exist_lookup _ _ _ Hex Hr) as [sb' Hsb'].
  cbn [currentShard set_sweep]. rewrite Hsb'.
  destruct (ddTags_spec (set_sweep ((currentShard (sw_t s) + 1) `mod` n) None (sw_t s)))
    as (t' & Hdd & _ & _ & Ht').
  rewrite tags_of_set_sweep, Htg in Hdd, Ht'. rewrite Hdd, <- Ht'. done.
Qed.

Lemma sweepStep_inv bound s n m tg :
  sweep_inv n m tg s →
  ∃ s', sweepStep bound s = Ok s' ∧ sweep_inv n m tg s' ∧
    swept s' = swept s ∧
    events s ≤ events s' ≤ events s + m ∧
    objects s ≤ objects s' ≤ objects s + 1 ∧
    name (sw_t s') = name (sw_t s) ∧ db (sw_t s') = db (sw_t s) ∧
    boltStats (sw_t s') = boltStats (sw_t s) ∧
    ∃ k, sw_sink s' = sw_sink s ++ replicate k (Count "expiration.rollover" 1 tg).
Proof.
  intros Hinv. destruct (sweep_inv_sb _ _ _ _ Hinv) as [sb Hlk].
  destruct (nextObjectKey (sw_t s) sb) as [key|] eqn:Hkey.
  - destruct Hinv as (Hn & Hpos & Hc & Hsb & Hex & Hle & Htg & Hm).
    unfold sweepStep. rewrite Hlk, Hkey.
    destruct (nextObjectKey_elem _ _ _ Hkey) as [v Hv].
    destruct (bucket_get_elem _ _ _ Hv) as (ob & -> & k' & Hob).
    assert (Forall (λ e, Z.of_nat (length e.2) ≤ m) sb) as Hsbm
      by (exact (Hle _ _ Hlk)).
    assert (Z.of_nat (length ob) ≤ m) as Hobm.
    { rewrite Forall_forall in Hsbm. exact (Hsbm _ Hob). }
    destruct (sweepEvents_spec bound ob (events s)) as (ob' & ev' & k & -> & Hev & Hlen & Hk).
    assert (Forall (λ e, Z.of_nat (length e.2) ≤ m) (bucket_set key ob' sb)) as Hset.
    { rewrite Forall_forall. intros e [He| ->]%bucket_set_elem.
      - rewrite Forall_forall in Hsbm. auto.
      - lia. }
    destruct k as [k|].
    + eexists. split; [reflexivity|]. unfold sweep_inv. cbn.
      split_and!; try done; try lia.
      * by apply shards_exist_insert.
      * by apply object_events_le_insert.
      * by exists 0%nat; rewrite app_nil_r.
    + eexists. split; [reflexivity|]. unfold sweep_inv. cbn.
      split_and!; try done; try lia.
      * by apply shards_exist_insert.
      * apply object_events_le_insert; [done|].
        rewrite Forall_forall. intros e He%bucket_delete_elem.
        rewrite Forall_forall in Hset. auto.
      * by exists 0%nat; rewrite app_nil_r.
  - rewrite (sweepStep_exhausted _ _ _ _ _ _ Hinv Hlk Hkey).
    destruct Hinv as (Hn & Hpos & Hc & Hsb & Hex & Hle & Htg & Hm).
    assert (0 ≤ (currentShard (sw_t s) + 1) `mod` n < n) as Hr
      by (apply Z.mod_pos_bound; lia).
    eexists. split; [reflexivity|]. unfold sweep_inv. cbn.
    split_and!; try done; try lia.
    by exists 1%nat.
Qed.

Lemma sweepLoop_spec fuel bound n m tg : ∀ s,
  sweep_inv n m tg s →
  0 ≤ swept s ≤ SweepBatchSize →
  SweepBatchSize - swept s ≤ Z.of_nat fuel →
  events s ≤ SweepBatchSize - 1 + m →
  ∃ s', sweepLoop fuel bound s = Ok s' ∧ sweep_inv n m tg s' ∧
    swept s ≤ swept s' ≤ SweepBatchSize ∧
    (swept s' = SweepBatchSize ∨ SweepBatchSize ≤ events s') ∧
    events s ≤ events s' ≤ SweepBatchSize - 1 + m ∧
    objects s ≤ objects s' ∧
    name (sw_t s') = name (sw_t s) ∧ db (sw_t s') = db (sw_t s) ∧
    boltStats (sw_t s') = boltStats (sw_t s) ∧
    ∃ k, sw_sink s' = sw_sink s ++ replicate k (Count "expiration.rollover" 1 tg).
Proof.
  induction fuel as [|fuel IH]; intros s Hinv Hsw Hfuel Hev; simpl.
  - destruct (Z.ltb_spec (swept s) SweepBatchSize) as [E1|E1]; [lia|]. simpl.
    exists s. split_and!; try done; try lia.
    by exists 0%nat; rewrite app_nil_r.
  - destruct (Z.ltb_spec (swept s) SweepBatchSize) as [E1|E1];
      [destruct (Z.ltb_spec (events s) SweepBatchSize) as [E2|E2]|]; simpl.
    + destruct (sweepStep_inv bound _ _ _ _ Hinv)
        as (s1 & -> & Hinv1 & Hsw1 & Hev1 & Hob1 & Hn1 & Hd1 & Hb1 & k1 & Hk1).
      simpl.
      destruct (IH (incr_swept s1)) as (s' & -> & Hinv' & Hsw' & Hex' & Hev' & Hob' & Hn' & Hd' & Hb' & k' & Hk').
      * exact Hinv1.
      * simpl. lia.
      * simpl. lia.
      * simpl. lia.
      * simpl in *. exists s'. split_and!; try done; try lia; try congruence.
        exists (k1 + k')%nat. rewrite Hk', Hk1, <- app_assoc.
        by rewrite replicate_add.
    + exists s. split_and!; try done; try lia.
      by exists 0%nat; rewrite app_nil_r.
    + exists s. split_and!; try done; try lia.
      by exists 0%nat; rewrite app_nil_r.
Qed.

Lemma ddTags_fields t tags t' :
  ddTags t = (tags, t') →
  tags = tags_of t ∧ tags_of t' = tags_of t ∧
  shardCount t' = shardCount t ∧ currentShard t' = currentShard t ∧
  currentObject t' = currentObject t ∧
  name t' = name t ∧ db t' = db t ∧ boltStats t' = boltStats t.
Proof.
  unfold ddTags, tags_of. destruct (ddTagsCache t) eqn:E.
  - intros [= <- <-]. by rewrite E.
  - intros [= <- <-]. done.
Qed.

Local Ltac fin :=
  repeat match goal with H : tags_of _ = _ |- _ => rewrite ?H; clear H end;
  repeat match goal with H : sw_sink _ = _ |- _ => rewrite ?H; clear H end;
  rewrite <- ?app_assoc, ?app_nil_r;
  split_and!; try done; try lia; try congruence.

(** What the closure of a batch leaves, on a table the sweeper can run on. *)
Lemma sweepTx_spec ShiftTimeBytes now expiration (tx : Root) t sink n m :
  shardCount t = n → 0 < n → 0 ≤ currentShard t < n →
  shards_exist n tx → object_events_le m tx → 0 ≤ m →
  ∃ tx' t' k sw ev ob,
    sweepTx ShiftTimeBytes now expiration tx t sink =
      Ok (tx', t',
          sink ++ rollovers k (tags_of t)
               ++ [Count "expiration.sweep" 1 (tags_of t)]
               ++ (if 0 <? ev then [Count "expiration.events" ev (tags_of t)] else [])
               ++ (if 0 <? ob then [Count "expiration.objects" ob (tags_of t)] else []),
          (sw, ev, ob),
          if (ev =? 0) && (ob =? 0) then Some NoDeletes else None) ∧
    0 ≤ sw ≤ SweepBatchSize ∧
    (sw = SweepBatchSize ∨ SweepBatchSize ≤ ev) ∧
    0 ≤ ev ≤ SweepBatchSize - 1 + m ∧ 0 ≤ ob ∧
    shardCount t' = n ∧ 0 ≤ currentShard t' < n ∧
    name t' = name t ∧ db t' = db t ∧ boltStats t' = boltStats t ∧
    tags_of t' = tags_of t ∧ shards_exist n tx'.
Proof.
  intros Hn Hpos Hc Hex Hle Hm. unfold sweepTx.
  destruct (shards_exist_lookup _ _ _ Hex Hc) as [sb0 ->].
  set (s0 := {| sw_t := t; sw_tx := tx; sw_sink := sink;
                sw_sb := shardDBName (currentShard t);
                swept := 0; events := 0; objects := 0 |}).
  destruct (sweepLoop_spec (Z.to_nat SweepBatchSize) (ShiftTimeBytes (now - expiration))
              n m (tags_of t) s0)
    as (s & -> & Hinv & Hsw & Hex' & Hev & Hob & Hnm & Hdb & Hbs & k & Hk);
    try (unfold s0, sweep_inv, SweepBatchSize; simpl; split_and?; try done; lia).
  simpl in *.
  destruct Hinv as (Hn' & _ & Hc' & _ & Hex'' & _ & Htg & _).
  destruct (ddTags (sw_t s)) as [tags1 t1] eqn:E1.
  apply ddTags_fields in E1 as (-> & Ht1 & ? & ? & ? & ? & ? & ?).
  cbn [mbind Res_bind].
  exists (sw_tx s).
  destruct (Z.eqb_spec (events s) 0) as [Ee|Ee];
    [destruct (Z.eqb_spec (objects s) 0) as [Eo|Eo]|]; simpl.
  - exists t1, k, (swept s), (events s), (objects s).
    rewrite Ee, Eo. simpl. fin.
  - rewrite Ee. simpl.
    destruct (Z.ltb_spec 0 (objects s)) as [Ho|Ho]; [|lia].
    destruct (ddTags t1) as [tags2 t2] eqn:E2.
    apply ddTags_fields in E2 as (-> & Ht2 & ? & ? & ? & ? & ? & ?).
    exists t2, k, (swept s), 0, (objects s).
    destruct (Z.eqb_spec (objects s) 0); [lia|].
    destruct (Z.ltb_spec 0 (objects s)); [|lia]. simpl. fin.
  - destruct (Z.ltb_spec 0 (events s)) as [He|He]; [|lia].
    destruct (ddTags t1) as [tags2 t2] eqn:E2.
    apply ddTags_fields in E2 as (-> & Ht2 & ? & ? & ? & ? & ? & ?).
    destruct (Z.ltb_spec 0 (objects s)) as [Ho|Ho].
    + destruct (ddTags t2) as [tags3 t3] eqn:E3.
      apply ddTags_fields in E3 as (-> & Ht3 & ? & ? & ? & ? & ? & ?).
      exists t3, k, (swept s), (events s), (objects s).
      destruct (Z.eqb_spec (events s) 0); [lia|].
      destruct (Z.ltb_spec 0 (events s)); [|lia].
      destruct (Z.ltb_spec 0 (objects s)); [|lia]. simpl. fin.
    + exists t2, k, (swept s), (events s), (objects s).
      destruct (Z.eqb_spec (events s) 0); [lia|].
      destruct (Z.ltb_spec 0 (events s)); [|lia].
      destruct (Z.ltb_spec 0 (objects s)); [lia|]. simpl. fin.
Qed.

Lemma nextObjectKey_nil t : nextObjectKey t [] = None.
Proof. unfold nextObjectKey. by destruct (currentObject t). Qed.

Lemma all_empty_lookup n tx i :
  all_empty n tx → 0 ≤ i < n → tx !! shardDBName i = Some [].
Proof.
  unfold all_empty. rewrite Forall_forall. intros H Hi.
  apply H, elem_of_seqZ. lia.
Qed.

(** Over empty shards every iteration is a rollover, up to the batch size. *)
Lemma sweepLoop_empty fuel bound n m tg : ∀ s,
  sweep_inv n m tg s → all_empty n (sw_tx s) →
  0 ≤ swept s ≤ SweepBatchSize →
  SweepBatchSize - swept s ≤ Z.of_nat fuel →
  events s < SweepBatchSize →
  ∃ s', sweepLoop fuel bound s = Ok s' ∧
    swept s' = SweepBatchSize ∧ events s' = events s ∧ objects s' = objects s ∧
    sw_tx s' = sw_tx s ∧
    sw_sink s' = sw_sink s ++ rollovers (Z.to_nat (SweepBatchSize - swept s)) tg ∧
    currentShard (sw_t s') =
      (currentShard (sw_t s) + (SweepBatchSize - swept s)) `mod` n.
Proof.
  induction fuel as [|fuel IH]; intros s Hinv Hemp Hsw Hfuel Hev; simpl.
  - destruct (Z.ltb_spec (swept s) SweepBatchSize) as [E1|E1]; [lia|]. simpl.
    exists s. replace (SweepBatchSize - swept s) with 0 by lia.
    destruct Hinv as (_ & ? & ? & _).
    rewrite Z.add_0_r, Z.mod_small by lia.
    split_and!; try done; try lia. simpl. by rewrite app_nil_r.
  - destruct (Z.ltb_spec (swept s) SweepBatchSize) as [E1|E1];
      [destruct (Z.ltb_spec (events s) SweepBatchSize) as [E2|E2]; [|lia]|]; simpl.
    + pose proof Hinv as (Hn & Hpos & Hc & Hsb & _).
      assert (sw_tx s !! sw_sb s = Some []) as Hlk
        by (rewrite Hsb; by apply (all_empty_lookup n)).
      destruct (sweepStep_inv bound _ _ _ _ Hinv) as (s1 & Hs1 & Hinv1 & _).
      rewrite (sweepStep_exhausted _ _ _ _ _ _ Hinv Hlk (nextObjectKey_nil _)) in Hs1.
      rewrite (sweepStep_exhausted _ _ _ _ _ _ Hinv Hlk (nextObjectKey_nil _)).
      injection Hs1 as <-. simpl.
      destruct (IH (incr_swept
        {| sw_t := set_ddTagsCache (Some tg)
                     (set_sweep ((currentShard (sw_t s) + 1) `mod` n) None (sw_t s));
           sw_tx := sw_tx s;
           sw_sink := sw_sink s ++ [Count "expiration.rollover" 1 tg];
           sw_sb := shardDBName ((currentShard (sw_t s) + 1) `mod` n);
           swept := swept s; events := events s; objects := objects s |}))
        as (s' & -> & Hsw' & Hev' & Hob' & Htx' & Hsink' & Hcur'); simpl; try done; try lia.
      simpl in *. exists s'. split_and!; try done.
      * rewrite Hsink', <- app_assoc. f_equal.
        replace (Z.to_nat (SweepBatchSize - swept s))
          with (S (Z.to_nat (SweepBatchSize - (swept s + 1)))) by lia.
        done.
      * rewrite Hcur'. rewrite Zplus_mod_idemp_l. f_equal. lia.
    + exists s. replace (SweepBatchSize - swept s) with 0 by lia.
      destruct Hinv as (_ & ? & ? & _).
      rewrite Z.add_0_r, Z.mod_small by lia.
      split_and!; try done; try lia. simpl. by rewrite app_nil_r.
Qed.

Lemma object_events_le_mono m m' (tx : Root) :
  m ≤ m' → object_events_le m tx → object_events_le m' tx.
Proof.
  intros Hm H. eapply map_Forall_impl; [exact H|]. intros nm sb Hsb.
  eapply Forall_impl; [exact Hsb|]. intros e ?. simpl in *. lia.
Qed.

Lemma object_events_bounded (tx : Root) : ∃ m, 0 ≤ m ∧ object_events_le m tx.
Proof.
  induction tx as [|nm sb tx Hnm _ (m & Hm & IH)] using map_first_key_ind.
  - exists 0. split; [done|]. apply map_Forall_empty.
  - assert (∃ m2, 0 ≤ m2 ∧ Forall (λ e : bytes * ObjectBucket, Z.of_nat (length e.2) ≤ m2) sb)
      as (m2 & Hm2 & Hsb).
    { clear. induction sb as [|e sb (m2 & ? & IH)].
      - exists 0. split; [done | constructor].
      - exists (Z.max m2 (Z.of_nat (length e.2))). split; [lia|].
        constructor; [lia|]. eapply Forall_impl; [exact IH|]. intros; simpl in *; lia. }
    exists (Z.max m m2). split; [lia|].
    apply map_Forall_insert_2.
    + eapply Forall_impl; [exact Hsb|]. intros; simpl in *; lia.
    + eapply object_events_le_mono; [|exact IH]. lia.
Qed.

Lemma all_empty_shards_exist n tx : all_empty n tx → shards_exist n tx.
Proof.
  unfold all_empty, shards_exist. intros H. eapply Forall_impl; [exact H|].
  intros i ->. eauto.
Qed.

(** A batch over empty shards: a thousand rollovers and nothing else. *)
Lemma sweepTx_empty ShiftTimeBytes now expiration (tx : Root) t sink n :
  shardCount t = n → 0 < n → 0 ≤ currentShard t < n → all_empty n tx →
  ∃ t', sweepTx ShiftTimeBytes now expiration tx t sink =
          Ok (tx, t',
              sink ++ rollovers (Z.to_nat SweepBatchSize) (tags_of t)
                   ++ [Count "expiration.sweep" 1 (tags_of t)],
              (SweepBatchSize, 0, 0), Some NoDeletes) ∧
    currentShard t' = (currentShard t + SweepBatchSize) `mod` n ∧
    tags_of t' = tags_of t ∧ boltStats t' = boltStats t.
Proof.
  intros Hn Hpos Hc Hemp.
  destruct (object_events_bounded tx) as (m & Hm & Hle).
  pose proof (all_empty_shards_exist _ _ Hemp) as Hex.
  unfold sweepTx.
  destruct (shards_exist_lookup _ _ _ Hex Hc) as [sb0 ->].
  set (s0 := {| sw_t := t; sw_tx := tx; sw_sink := sink;
                sw_sb := shardDBName (currentShard t);
                swept := 0; events := 0; objects := 0 |}).
  assert (sweep_inv n m (tags_of t) s0) as Hinv
    by (unfold s0, sweep_inv; simpl; split_and!; try done; lia).
  destruct (sweepLoop_spec (Z.to_nat SweepBatchSize) (ShiftTimeBytes (now - expiration))
              n m (tags_of t) s0 Hinv)
    as (s & Hs & Hinv' & _ & _ & _ & _ & _ & _ & Hbs & _);
    try (unfold s0, SweepBatchSize; simpl; lia).
  destruct (sweepLoop_empty (Z.to_nat SweepBatchSize) (ShiftTimeBytes (now - expiration))
              n m (tags_of t) s0 Hinv)
    as (s' & Hs' & Hsw & Hev & Hob & Htx & Hsink & Hcur);
    try (unfold s0, SweepBatchSize; simpl; first [done | lia]).
  rewrite Hs in Hs'. injection Hs' as <-. rewrite Hs.
  cbn [mbind Res_bind]. simpl in *.
  destruct Hinv' as (_ & _ & _ & _ & _ & _ & Htg & _).
  destruct (ddTags (sw_t s)) as [tags1 t1] eqn:E1.
  apply ddTags_fields in E1 as (-> & Ht1 & ? & ? & ? & ? & ? & ?).
  rewrite Hev, Hob, Hsw, Htx, Hsink, Htg. simpl.
  exists t1. rewrite Z.sub_0_r in *. rewrite <- app_assoc.
  split_and!; try done; congruence.
Qed.

(** ** The transaction wrapper and the sweeper *)

Section EngineFacts.
Variable Stats_Sub : Stats → option Stats → Stats.
Variable bolt_tx_stats : Stats → Root → Root → bool → Stats.
Variable ShiftTimeBytes : Z → bytes.

Local Abbreviation Update' := (Update Stats_Sub bolt_tx_stats).
Local Abbreviation SweepNextBatch' :=
  (SweepNextBatch Stats_Sub bolt_tx_stats ShiftTimeBytes).
Local Abbreviation sweepTx' := (sweepTx ShiftTimeBytes).

Lemma ddEmitStats_spec t sink d :
  db t = Some d →
  ∃ t', ddEmitStats Stats_Sub t sink =
          Ok (t', sink ++ statMetrics (Stats_Sub (db_stats d) (boltStats t)) (tags_of t)) ∧
    boltStats t' = Some (db_stats d) ∧ db t' = Some d ∧
    shardCount t' = shardCount t ∧ currentShard t' = currentShard t ∧
    currentObject t' = currentObject t ∧ name t' = name t.
Proof.
  intros Hd. unfold ddEmitStats. rewrite Hd.
  destruct (ddTags (set_boltStats (Some (db_stats d)) t)) as [tags t'] eqn:E.
  apply ddTags_fields in E as (-> & _ & ? & ? & ? & ? & ? & ?).
  simpl in *. exists t'. split_and!; try done; congruence.
Qed.

Lemma Update_spec {A} (fn : TxFn A) a0 t sink d tx t1 sink1 a err :
  db t = Some d →
  db_opened d = true →
  fn (db_root d) t sink = Ok (tx, t1, sink1, a, err) →
  let d' := bolt_Update bolt_tx_stats d (bool_decide (err = None)) tx in
  ∃ t2, Update' fn a0 t sink =
          Ok (t2, sink1 ++ statMetrics (Stats_Sub (db_stats d') (boltStats t1)) (tags_of t1),
              a, err) ∧
    boltStats t2 = Some (db_stats d') ∧ db t2 = Some d' ∧
    shardCount t2 = shardCount t1 ∧ currentShard t2 = currentShard t1 ∧
    currentObject t2 = currentObject t1 ∧ name t2 = name t1.
Proof.
  intros Hd Hop Hfn d'. unfold Update. rewrite Hd, Hop, Hfn. cbn [mbind Res_bind].
  fold d'.
  destruct (ddEmitStats_spec (set_db (Some d') t1) sink1 d' eq_refl)
    as (t2 & -> & ? & ? & ? & ? & ? & ?).
  exists t2. cbn [mbind Res_bind]. split_and!; done.
Qed.

(** On a closed handle the closure is not called. *)
Lemma Update_closed {A} (fn : TxFn A) a0 t sink d :
  db t = Some d →
  db_opened d = false →
  ∃ t2, Update' fn a0 t sink =
          Ok (t2, sink ++ statMetrics (Stats_Sub (db_stats d) (boltStats t)) (tags_of t),
              a0, Some bolt_ErrDatabaseNotOpen) ∧
    boltStats t2 = Some (db_stats d) ∧ db t2 = Some d ∧
    shardCount t2 = shardCount t ∧ currentShard t2 = currentShard t ∧
    currentObject t2 = currentObject t ∧ name t2 = name t.
Proof.
  intros Hd Hop. unfold Update. rewrite Hd, Hop.
  destruct (ddEmitStats_spec t sink d Hd) as (t2 & -> & ? & ? & ? & ? & ? & ?).
  exists t2. cbn [mbind Res_bind]. split_and!; done.
Qed.

Lemma opened_Some t d : db t = Some d → opened t = true.
Proof. intros H. unfold opened. rewrite H. done. Qed.

(** A batch on a sweepable table whose handle is open returns, and its
    parts are those of the closure and of the statistics report. *)
Lemma SweepNextBatch_spec t d sink now expiration m :
  sweepable t d → db_opened d = true → object_events_le m (db_root d) → 0 ≤ m →
  ∃ tx' t1 t' k sw ev ob stats,
    let tg := tags_of t in
    let err := if (ev =? 0) && (ob =? 0) then Some NoDeletes else None in
    let sink1 := sink ++ rollovers k tg
             ++ [Count "expiration.sweep" 1 tg]
             ++ (if 0 <? ev then [Count "expiration.events" ev tg] else [])
             ++ (if 0 <? ob then [Count "expiration.objects" ob tg] else []) in
    sweepTx' now expiration (db_root d) t sink = Ok (tx', t1, sink1, (sw, ev, ob), err) ∧
    Update' (sweepTx' now expiration) (0, 0, 0) t sink =
      Ok (t', sink1 ++ statMetrics stats tg, (sw, ev, ob), err) ∧
    SweepNextBatch' now expiration t sink =
      Ok (t', sink1 ++ statMetrics stats tg, (sw, ev, ob)) ∧
    db t' = Some (bolt_Update bolt_tx_stats d (bool_decide (err = None)) tx') ∧
    0 ≤ sw ≤ SweepBatchSize ∧
    (sw = SweepBatchSize ∨ SweepBatchSize ≤ ev) ∧
    0 ≤ ev ≤ SweepBatchSize - 1 + m ∧ 0 ≤ ob ∧
    shardCount t' = shardCount t ∧ 0 ≤ currentShard t' < shardCount t ∧
    shards_exist (shardCount t) tx'.
Proof.
  intros (Hd & Hpos & Hc & Hex) Hop Hle Hm.
  destruct (sweepTx_spec ShiftTimeBytes now expiration (db_root d) t sink
              (shardCount t) m eq_refl Hpos Hc Hex Hle Hm)
    as (tx' & t1 & k & sw & ev & ob & Htx & Hsw & Hexit & Hev & Hob
        & Hn & Hc1 & Hnm & Hdb & Hbs & Htg & Hex').
  destruct (Update_spec _ (0, 0, 0) _ _ _ _ _ _ _ _ Hd Hop Htx)
    as (t' & HU & _ & Hd' & Hn' & Hc' & _).
  rewrite Htg in HU.
  exists tx', t1, t', k, sw, ev, ob. eexists. cbn zeta.
  split_and!; try done; try lia; try congruence.
  unfold SweepNextBatch. rewrite (opened_Some _ _ Hd). cbn [negb].
  rewrite HU. done.
Qed.

(** C1 (amended).  On every table that is open on an open database
    handle, with its shards in place, and for every expiration horizon, a
    single call to [SweepNextBatch] returns; it
    sweeps at most [SweepBatchSize] objects, and its loop ends with
    [swept = SweepBatchSize] or with [events >= SweepBatchSize]: no object
    is started once [SweepBatchSize] events are deleted.  An object that
    was started is swept to its end, so [events] is at most
    [SweepBatchSize - 1] plus the largest number [m] of events held by one
    object (at most [SweepBatchSize] when no object holds more than one
    event). *)
Theorem C1_sweep_batch_bound t d sink now expiration m :
  sweepable t d → db_opened d = true → object_events_le m (db_root d) → 0 ≤ m →
  ∃ t' sink' sw ev ob,
    SweepNextBatch' now expiration t sink = Ok (t', sink', (sw, ev, ob)) ∧
    0 ≤ sw ≤ SweepBatchSize ∧
    (sw = SweepBatchSize ∨ SweepBatchSize ≤ ev) ∧
    0 ≤ ev ≤ SweepBatchSize - 1 + m.
Proof.
  intros Hsw Hop Hle Hm.
  destruct (SweepNextBatch_spec t d sink now expiration m Hsw Hop Hle Hm)
    as (tx' & t1 & t' & k & sw & ev & ob & stats & _ & _ & HS & _ & ? & ? & ? & _).
  eauto 10.
Qed.

(** C2.  On a table whose database handle is open: when the closure of a
    batch ends with no event and no object deleted, it returns the
    sentinel [NoDeletes]; [Update] then rolls the
    transaction back (the committed buckets are those from before the
    batch) and hands the sentinel to [SweepNextBatch], which drops it and
    returns its three counts. *)
Theorem C2_no_deletes_rolls_back t d sink now expiration tx' t1 sink1 sw err :
  db t = Some d →
  db_opened d = true →
  sweepTx' now expiration (db_root d) t sink = Ok (tx', t1, sink1, (sw, 0, 0), err) →
  err = Some NoDeletes ∧
  ∃ t' sink',
    Update' (sweepTx' now expiration) (0, 0, 0) t sink =
      Ok (t', sink', (sw, 0, 0), Some NoDeletes) ∧
    db t' = Some (bolt_Update bolt_tx_stats d false tx') ∧
    db_root <$> db t' = Some (db_root d) ∧
    SweepNextBatch' now expiration t sink = Ok (t', sink', (sw, 0, 0)).
Proof.
  intros Hd Hop Htx.
  assert (err = Some NoDeletes) as ->.
  { revert Htx. unfold sweepTx.
    destruct (db_root d !! shardDBName (currentShard t)); [|done].
    destruct (sweepLoop _ _ _) as [s| |]; [|done..]. cbn [mbind Res_bind].
    destruct (ddTags (sw_t s)) as [tags1 t2].
    destruct ((events s =? 0) && (objects s =? 0)) eqn:E.
    - by intros [= _ _ _ _ _ _ <-].
    - destruct (0 <? events s); destruct (ddTags t2) as [??];
        destruct (0 <? objects s); try destruct (ddTags _) as [??];
        intros [= _ _ _ _ He Ho _]; rewrite He, Ho in E; done. }
  split; [done|].
  destruct (Update_spec _ (0, 0, 0) _ _ _ _ _ _ _ _ Hd Hop Htx)
    as (t' & HU & _ & Hd' & _).
  eexists t', _. split_and!.
  - exact HU.
  - exact Hd'.
  - rewrite Hd'. done.
  - unfold SweepNextBatch. rewrite (opened_Some _ _ Hd). cbn [negb].
    rewrite HU. done.
Qed.

(** C3 (amended).  Every batch on a sweepable table whose database
    handle is open emits [expiration.sweep] once, after its rollover counters, whether it
    commits or aborts; it emits [expiration.events] exactly when it
    deleted an event and [expiration.objects] exactly when it deleted an
    object.  The batch aborts with [NoDeletes] exactly when both counts
    are zero, and then emits neither of these two; otherwise it commits. *)
Theorem C3_sweep_counters t d sink now expiration :
  sweepable t d →
  db_opened d = true →
  ∃ tx' t' k sw ev ob err stats,
    let tg := tags_of t in
    Update' (sweepTx' now expiration) (0, 0, 0) t sink =
      Ok (t',
          (sink ++ rollovers k tg
                ++ [Count "expiration.sweep" 1 tg]
                ++ (if 0 <? ev then [Count "expiration.events" ev tg] else [])
                ++ (if 0 <? ob then [Count "expiration.objects" ob tg] else []))
            ++ statMetrics stats tg,
          (sw, ev, ob), err) ∧
    db t' = Some (bolt_Update bolt_tx_stats d (bool_decide (err = None)) tx') ∧
    (err = Some NoDeletes ∧ ev = 0 ∧ ob = 0 ∨
     err = None ∧ 0 ≤ ev ∧ 0 ≤ ob ∧ (0 < ev ∨ 0 < ob)).
Proof.
  intros Hsw Hop.
  destruct (object_events_bounded (db_root d)) as (m & Hm & Hle).
  destruct (SweepNextBatch_spec t d sink now expiration m Hsw Hop Hle Hm)
    as (tx' & t1 & t' & k & sw & ev & ob & stats & _ & HU & _ & Hd' & _ & _ & Hev & Hob & _).
  exists tx', t', k, sw, ev, ob. eexists _, stats. cbn zeta.
  split_and!; [exact HU | exact Hd' |].
  destruct (Z.eqb_spec ev 0); [destruct (Z.eqb_spec ob 0)|]; simpl.
  - by left.
  - right. split_and!; try done; lia.
  - right. split_and!; try done; lia.
Qed.

(** C4.  On a sweepable table with [n] shards whose database handle is
    open: an iteration of the sweep
    loop whose cursor is exhausted sets [currentShard] to
    [(currentShard + 1) mod n] and [currentObject] to nil, emits one
    [expiration.rollover] counter, deletes nothing, and is followed by the
    loop's [swept += 1]; a batch over empty shards returns
    [(SweepBatchSize, 0, 0)] after [SweepBatchSize] rollovers; and every
    batch leaves [currentShard] in [[0, n)]. *)
Theorem C4_rollover t d sink now expiration :
  sweepable t d →
  db_opened d = true →
  (∀ bound s sb m tg,
     sweep_inv (shardCount t) m tg s →
     sw_tx s !! sw_sb s = Some sb →
     nextObjectKey (sw_t s) sb = None →
     ∃ s', sweepStep bound s = Ok s' ∧
       currentShard (sw_t s') = (currentShard (sw_t s) + 1) `mod` shardCount t ∧
       currentObject (sw_t s') = None ∧
       sw_sink s' = sw_sink s ++ [Count "expiration.rollover" 1 tg] ∧
       swept (incr_swept s') = swept s + 1 ∧
       events s' = events s ∧ objects s' = objects s ∧ sw_tx s' = sw_tx s) ∧
  (∃ t' sink' res,
     SweepNextBatch' now expiration t sink = Ok (t', sink', res) ∧
     shardCount t' = shardCount t ∧
     0 ≤ currentShard t' < shardCount t ∧
     (all_empty (shardCount t) (db_root d) →
      res = (SweepBatchSize, 0, 0) ∧
      emitted "expiration.rollover" sink' =
        emitted "expiration.rollover" sink
          ++ rollovers (Z.to_nat SweepBatchSize) (tags_of t) ∧
      currentShard t' = (currentShard t + SweepBatchSize) `mod` shardCount t)).
Proof.
  intros Hsw Hop. split.
  - intros bound s sb m tg Hinv Hlk Hnone.
    rewrite (sweepStep_exhausted _ _ _ _ _ _ Hinv Hlk Hnone).
    eexists. split; [reflexivity|]. simpl. split_and!; done.
  - destruct (object_events_bounded (db_root d)) as (m & Hm & Hle).
    destruct (SweepNextBatch_spec t d sink now expiration m Hsw Hop Hle Hm)
      as (tx' & t1 & t' & k & sw & ev & ob & stats & Htx & HU & HS & Hd' & _ & _ & _ & _
          & Hn & Hc & _).
    eexists t', _, _. split; [exact HS|]. split; [exact Hn|]. split; [exact Hc|].
    intros Hemp. destruct Hsw as (Hd & Hpos & Hc0 & Hex).
    destruct (sweepTx_empty ShiftTimeBytes now expiration (db_root d) t sink
                (shardCount t) eq_refl Hpos Hc0 Hemp)
      as (t1' & Htx' & Hcur & Htg & Hbs).
    destruct (Update_spec _ (0, 0, 0) _ _ _ _ _ _ _ _ Hd Hop Htx')
      as (t2 & HU' & _ & _ & _ & Hc2 & _).
    rewrite HU' in HU.
    assert (t2 = t') as <- by congruence.
    assert ((SweepBatchSize, 0, 0) = (sw, ev, ob)) as <- by congruence.
    match type of HU with
    | Ok (_, ?sa, _, _) = Ok (_, ?sb, _, _) => assert (sa = sb) as Hsink by congruence
    end.
    split_and!; [done| |congruence].
    cbn zeta. rewrite <- Hsink. unfold emitted.
    rewrite !filter_app.
    assert (∀ k' tg, filter (λ m : Metric, metric_name m = "expiration.rollover")
                       (rollovers k' tg) = rollovers k' tg) as ->.
    { intros k' tg. induction k' as [|k' IH]; [done|].
      unfold rollovers in *. simpl.
      rewrite filter_cons_True by done. f_equal. exact IH. }
    assert (∀ st tg, filter (λ m : Metric, metric_name m = "expiration.rollover")
                       (statMetrics st tg) = []) as -> by done.
    assert (∀ tg, filter (λ m : Metric, metric_name m = "expiration.rollover")
                    [Count "expiration.sweep" 1 tg] = []) as -> by done.
    by rewrite !app_nil_r.
Qed.

(** C8.  Every call of [Update] on a table whose [db] is set emits the
    difference between the fresh statistics of the store and the cached
    snapshot to the sink, as the 21 metrics below and under the tags of
    the table, and caches the fresh snapshot.  On an open handle this
    follows everything the closure emitted, whether the closure returned
    nil (the transaction commits) or an error (it rolls back), and
    [Update] returns the closure's error; on a closed handle the closure is
    not called, the database is as before and [Update] returns the error
    of the store. *)
Theorem C8_update_emits_stats {A} (fn : TxFn A) (a0 : A) t sink d tx t1 sink1 a err :
  db t = Some d →
  let report (s : Stats) (tags : list string) :=
    [ Gauge "bolt.pages.free" (FreePageN s) tags;
      Gauge "bolt.pages.pending" (PendingPageN s) tags;
      Gauge "bolt.pages.free.alloc" (FreeAlloc s) tags;
      Gauge "bolt.pages.freelist.inuse" (FreeAlloc s) tags;
      Count "bolt.txn.total" (TxN s) tags;
      Gauge "bolt.txn.open" (OpenTxN s) tags;
      Count "bolt.txn.page.count" (PageCount (TxStats_ s)) tags;
      Count "bolt.txn.page.alloc" (PageAlloc (TxStats_ s)) tags;
      Count "bolt.txn.cursor.count" (CursorCount (TxStats_ s)) tags;
      Count "bolt.txn.node.count" (NodeCount (TxStats_ s)) tags;
      Count "bolt.txn.node.deref" (NodeDeref (TxStats_ s)) tags;
      Count "bolt.txn.node.rebalance.count" (Rebalance (TxStats_ s)) tags;
      Count "bolt.txn.node.rebalance.time" (RebalanceTime (TxStats_ s)) tags;
      Histogram "bolt.txn.node.rebalance.period"
        (RebalanceTime (TxStats_ s)) (Rebalance (TxStats_ s)) tags;
      Count "bolt.txn.node.split" (Split (TxStats_ s)) tags;
      Count "bolt.txn.node.spill.count" (Spill (TxStats_ s)) tags;
      Count "bolt.txn.node.spill.time" (SpillTime (TxStats_ s)) tags;
      Histogram "bolt.txn.node.spill.period"
        (SpillTime (TxStats_ s)) (Spill (TxStats_ s)) tags;
      Count "bolt.txn.write.count" (Write (TxStats_ s)) tags;
      Count "bolt.txn.write.time" (WriteTime (TxStats_ s)) tags;
      Histogram "bolt.txn.write.period"
        (WriteTime (TxStats_ s)) (Write (TxStats_ s)) tags ] in
  (db_opened d = true →
   fn (db_root d) t sink = Ok (tx, t1, sink1, a, err) →
   let committed := bool_decide (err = None) in
   let fresh := bolt_tx_stats (db_stats d) (db_root d) tx committed in
   ∃ t2,
     Update' fn a0 t sink =
       Ok (t2, sink1 ++ report (Stats_Sub fresh (boltStats t1)) (tags_of t1), a, err) ∧
     boltStats t2 = Some fresh ∧
     (db_stats <$> db t2) = Some fresh ∧
     (db_root <$> db t2) = Some (if committed then tx else db_root d)) ∧
  (db_opened d = false →
   ∃ t2,
     Update' fn a0 t sink =
       Ok (t2, sink ++ report (Stats_Sub (db_stats d) (boltStats t)) (tags_of t),
           a0, Some bolt_ErrDatabaseNotOpen) ∧
     boltStats t2 = Some (db_stats d) ∧
     db t2 = Some d).
Proof.
  intros Hd report. split.
  - intros Hop Hfn committed fresh.
    destruct (Update_spec fn a0 _ _ _ _ _ _ _ _ Hd Hop Hfn)
      as (t2 & HU & Hbs & Hd2 & _).
    exists t2. split_and!; [exact HU | exact Hbs | by rewrite Hd2 | by rewrite Hd2].
  - intros Hop.
    destruct (Update_closed fn a0 _ sink _ Hd Hop) as (t2 & HU & Hbs & Hd2 & _).
    exists t2. split_and!; [exact HU | exact Hbs | exact Hd2].
Qed.

(** C10.  On a table that is not open [SweepNextBatch] returns
    [(0, 0, 0)] at once: the table, with its sweep state, and the sink are
    untouched, and no error or panic is signalled. *)
Theorem C10_sweep_closed_table t sink now expiration :
  opened t = false →
  SweepNextBatch Stats_Sub bolt_tx_stats ShiftTimeBytes now expiration t sink =
    Ok (t, sink, (0, 0, 0)).
Proof.
  intros Hd. unfold SweepNextBatch. rewrite Hd. done.
Qed.

End EngineFacts.

(** ** The schema document *)

Local Ltac members :=
  repeat match goal with
  | |- context [member_of ?a ?b] =>
      let r := eval vm_compute in (member_of a b) in
      change (member_of a b) with r
  end.

Lemma json_to_int_range z old : int_range z → json_to_int (JNumber z) old = Some z.
Proof. intros Hz. unfold json_to_int. by rewrite bool_decide_eq_true_2. Qed.

Lemma json_to_string_valid s old :
  valid_utf8 s → json_to_string (JString (to_valid_utf8 s)) old = Some s.
Proof. intros Hs. unfold json_to_string. by rewrite !Hs. Qed.

Lemma json_to_Property_to_json p old :
  int_range (ID p) → valid_utf8 (Name p) → valid_utf8 (DataType p) →
  json_to_Property (Property_to_json p) old = Some (Some p).
Proof.
  intros Hi Hn Hd. destruct p as [i n tr dt]. cbn [ID Name DataType] in Hi, Hn, Hd.
  unfold json_to_Property, Property_to_json. cbn [foldl ID Name DataType Transient].
  members. cbn [mbind option_bind].
  rewrite json_to_int_range by done. cbn [mbind option_bind ID Name DataType Transient].
  rewrite json_to_string_valid by done. cbn [mbind option_bind ID Name DataType Transient].
  rewrite json_to_string_valid by done. done.
Qed.

Lemma json_to_elements_to_json ps :
  Forall (λ p, int_range (ID p) ∧ valid_utf8 (Name p) ∧ valid_utf8 (DataType p)) ps →
  json_to_elements ((λ p, from_option Property_to_json JNull p) <$> (Some <$> ps)) [] =
    Some (Some <$> ps, []).
Proof.
  induction 1 as [|p ps (Hi & Hn & Hd) _ IH]; [done|].
  rewrite !fmap_cons. cbn [json_to_elements from_option head tail default].
  rewrite json_to_Property_to_json by done. cbn [mbind option_bind].
  rewrite IH. done.
Qed.

Lemma json_Unmarshal_Marshal n sc mp mt ps :
  valid_utf8 n → int_range sc → int_range mp → int_range mt →
  Forall (λ p, int_range (ID p) ∧ valid_utf8 (Name p) ∧ valid_utf8 (DataType p)) ps →
  json_Unmarshal (json_Marshal {| msg_Name := n; msg_ShardCount := sc;
                                  msg_MaxPermanentID := mp; msg_MaxTransientID := mt;
                                  msg_Properties := Some <$> ps |}) =
    Some {| msg_Name := n; msg_ShardCount := sc; msg_MaxPermanentID := mp;
            msg_MaxTransientID := mt; msg_Properties := Some <$> ps |}.
Proof.
  intros Hn Hsc Hmp Hmt Hps.
  unfold json_Marshal, json_Unmarshal.
  cbn [msg_Properties msg_Name msg_ShardCount msg_MaxPermanentID msg_MaxTransientID foldl].
  members. cbn [mbind option_bind].
  rewrite json_to_string_valid by done.
  cbn [mbind option_bind msg_Properties msg_Name msg_ShardCount msg_MaxPermanentID
       msg_MaxTransientID].
  repeat (rewrite json_to_int_range by done;
          cbn [mbind option_bind msg_Properties msg_Name msg_ShardCount msg_MaxPermanentID
               msg_MaxTransientID]).
  destruct ps as [|p ps]; [done|].
  pose proof (json_to_elements_to_json (p :: ps) Hps) as Hel.
  rewrite !fmap_cons in Hel |- *.
  cbn [json_to_Properties app]. rewrite Hel. done.
Qed.

Section Index.
Context `{Countable K} {V : Type} (f : V → K).

Lemma foldl_index_notin (l : list V) (m0 : gmap K V) k :
  k ∉ f <$> l → foldl (λ m p, <[f p := p]> m) m0 l !! k = m0 !! k.
Proof.
  revert m0. induction l as [|x l IH]; intros m0 Hk; [done|].
  rewrite fmap_cons, not_elem_of_cons in Hk. destruct Hk as [Hne Hk].
  simpl. rewrite IH by done. by rewrite lookup_insert_ne.
Qed.

Lemma foldl_index_in (l : list V) (m0 : gmap K V) p :
  NoDup (f <$> l) → p ∈ l → foldl (λ m p, <[f p := p]> m) m0 l !! f p = Some p.
Proof.
  revert m0. induction l as [|x l IH]; intros m0 Hnd Hin; [by apply elem_of_nil in Hin|].
  rewrite fmap_cons in Hnd. apply NoDup_cons in Hnd as [Hx Hnd].
  simpl. apply elem_of_cons in Hin as [->|Hin].
  - rewrite foldl_index_notin by done. by rewrite lookup_insert_eq.
  - by apply IH.
Qed.
End Index.

Section SchemaRoundTrip.
Variable t : Table.
Hypothesis Hwf : schema_indexed t.
Variable ps : list Property.
Hypothesis Hps : ps ≡ₚ (map_to_list (properties t)).*2.

Lemma ps_elem p : p ∈ ps ↔ ∃ k, properties t !! k = Some p.
Proof using Hps.
  rewrite Hps, list_elem_of_fmap. split.
  - intros ([k p'] & -> & Hin). exists k. by apply elem_of_map_to_list.
  - intros [k Hk]. exists (k, p). split; [done|]. by apply elem_of_map_to_list.
Qed.

Lemma ps_names : Name <$> ps ≡ₚ (map_to_list (properties t)).*1.
Proof using Hps Hwf.
  rewrite Hps. destruct Hwf as (Hn & _ & _).
  assert (∀ kv, kv ∈ map_to_list (properties t) → Name kv.2 = kv.1) as Hall.
  { intros [k p] Hin%elem_of_map_to_list. exact (Hn _ _ Hin). }
  revert Hall. generalize (map_to_list (properties t)). clear.
  intros l. induction l as [|kv l IH]; intros Hall; [done|].
  rewrite !fmap_cons. rewrite Hall by left. f_equiv. apply IH.
  intros ? ?. apply Hall. by right.
Qed.

Lemma ps_names_NoDup : NoDup (Name <$> ps).
Proof using Hps Hwf. rewrite ps_names. apply NoDup_fst_map_to_list. Qed.

Lemma ps_NoDup : NoDup ps.
Proof using Hps Hwf. eapply NoDup_fmap_1, ps_names_NoDup. Qed.

Lemma ps_ids_NoDup : NoDup (ID <$> ps).
Proof using Hps Hwf.
  apply NoDup_fmap_2_strong; [|apply ps_NoDup].
  intros p1 p2 [k1 H1]%ps_elem [k2 H2]%ps_elem Hid.
  destruct Hwf as (_ & _ & Hby).
  pose proof (Hby _ _ H1) as E1. pose proof (Hby _ _ H2) as E2.
  simpl in *. rewrite Hid in E1. congruence.
Qed.

Lemma index_by_name :
  foldl (λ m p, <[Name p := p]> m) (∅ : gmap string Property) ps = properties t.
Proof using Hps Hwf.
  apply map_eq. intros k.
  destruct (properties t !! k) as [p|] eqn:E.
  - destruct Hwf as (Hn & _ & _). rewrite <- (Hn _ _ E).
    apply foldl_index_in; [apply ps_names_NoDup|]. apply ps_elem. eauto.
  - rewrite foldl_index_notin; [done|].
    intros (p & -> & [k' Hk']%ps_elem)%list_elem_of_fmap.
    destruct Hwf as (Hn & _ & _). rewrite (Hn _ _ Hk') in E. congruence.
Qed.

Lemma index_by_id :
  foldl (λ m p, <[ID p := p]> m) (∅ : gmap Z Property) ps = propertiesByID t.
Proof using Hps Hwf.
  apply map_eq. intros i.
  destruct (propertiesByID t !! i) as [p|] eqn:E.
  - destruct Hwf as (_ & Hid & _). destruct (Hid _ _ E) as [<- Hp].
    apply foldl_index_in; [apply ps_ids_NoDup|]. apply ps_elem. eauto.
  - rewrite foldl_index_notin; [done|].
    intros (p & -> & [k' Hk']%ps_elem)%list_elem_of_fmap.
    destruct Hwf as (_ & _ & Hby). rewrite (Hby _ _ Hk') in E. done.
Qed.
End SchemaRoundTrip.

(** C6 (amended).  For every table whose two property indexes describe
    one schema, whose numbers are in the range of an [int] and whose
    strings (its name, and the name and data type of every property) are
    valid UTF-8, every document that [marshal] can return is decoded by
    [unmarshal], into any table, to the same name, shard count and id
    allocators, and to the same property indexes by name and by id. *)
Theorem C6_meta_round_trip (t t0 : Table) (doc : json) :
  schema_indexed t →
  schema_encodable t →
  marshal t doc →
  ∃ t', unmarshal doc t0 = Ok (inl t') ∧
    name t' = name t ∧ shardCount t' = shardCount t ∧
    maxPermanentID t' = maxPermanentID t ∧ maxTransientID t' = maxTransientID t ∧
    properties t' = properties t ∧ propertiesByID t' = propertiesByID t.
Proof.
  intros Hwf (Hn & Hsc & Hmp & Hmt & Hprops) (ps & Hps & ->).
  assert (Forall (λ p, int_range (ID p) ∧ valid_utf8 (Name p) ∧ valid_utf8 (DataType p)) ps)
    as Hall.
  { apply Forall_forall. intros p [k Hk]%(ps_elem t ps Hps). exact (Hprops _ _ Hk). }
  unfold unmarshal, marshal_in_order. rewrite json_Unmarshal_Marshal by done.
  cbn [msg_Properties msg_Name msg_ShardCount msg_MaxPermanentID msg_MaxTransientID].
  assert (mapM id (Some <$> ps) = Some ps) as ->.
  { clear. induction ps as [|p ps IH]; [done|].
    rewrite fmap_cons. cbn [mapM]. cbn. rewrite IH. done. }
  eexists. split; [reflexivity|]. cbn.
  split_and!; try done.
  - by apply index_by_name.
  - by apply index_by_id.
Qed.

(** ** Opening the table *)

(** C9 (amended).  [open] on a closed table calls [bolt.Open] with the mode
    0600 and a timeout of one second (10^9 nanoseconds); when the store
    answers with its timeout error, [open] returns a new error with the
    message "table open: timeout", which is not the [TableBusy] error, and
    leaves the table closed and the sink as it was. *)
Theorem C9_open_timeout Stats_Sub bolt_tx_stats bolt_Open initSchema t sink :
  db t = None →
  bolt_Open (path t) mode_0600 {| Timeout := 1 * time_Second |} = inr bolt_ErrTimeout →
  open Stats_Sub bolt_tx_stats bolt_Open initSchema t sink =
    Ok (t, sink, Some (Errorf "table open: timeout")) ∧
  1 * time_Second = 1000000000 ∧
  Errorf "table open: timeout" ≠ TableBusy.
Proof.
  intros Hd Ho. unfold open. rewrite Hd, Ho. done.
Qed.

(** ** Sharding *)

Lemma int_of_unsigned_small u : 0 ≤ u < 2 ^ 63 → int_of_unsigned u = u.
Proof.
  intros Hu. unfold int_of_unsigned, to_signed, to_unsigned.
  rewrite Z.mod_small by lia.
  destruct (Z.ltb_spec u (2 ^ (64 - 1))); [done|]. simpl in *. lia.
Qed.

(** C7.  [shardIndex] gives the same result on two tables of equal
    [shardCount], whatever else differs between them; and with a hash of 32
    unsigned bits, on a table with a positive [shardCount], it returns a
    shard index in [[0, shardCount)]. *)
Theorem C7_shard_index_stable (hash_Local : string → Z) (t1 t2 : Table) (id : string) :
  (∀ s, 0 ≤ hash_Local s < 2 ^ 32) →
  shardCount t1 = shardCount t2 →
  shardIndex hash_Local t1 id = shardIndex hash_Local t2 id ∧
  (0 < shardCount t1 →
   ∃ i, shardIndex hash_Local t1 id = Ok i ∧ 0 ≤ i < shardCount t1).
Proof.
  intros Hh Heq. unfold shardIndex. rewrite <- Heq. split; [done|]. intros Hpos.
  destruct (Z.eqb_spec (shardCount t1) 0); [lia|].
  eexists. split; [reflexivity|].
  rewrite int_of_unsigned_small by (specialize (Hh id); lia).
  apply Z.rem_bound_pos; [apply Hh | done].
Qed.

Lemma fnv32a_range s : 0 ≤ fnv32a s < 2 ^ 32.
Proof.
  unfold fnv32a. generalize (String.list_byte_of_string s). intros l.
  assert (0 ≤ 2166136261 < 2 ^ 32) as H0 by lia. revert H0.
  generalize 2166136261. induction l as [|b l IH]; intros h Hh; [done|].
  simpl. apply IH. apply Z.mod_pos_bound. lia.
Qed.

(** ** Big-endian integers *)

Lemma byte_val_of_Z x : byte_val (byte_of_Z x) = x `mod` 256.
Proof.
  unfold byte_val, byte_of_Z.
  assert (0 ≤ x `mod` 256 < 256) as Hr by (apply Z.mod_pos_bound; lia).
  destruct (Byte.of_N (Z.to_N (x `mod` 256))) as [b|] eqn:E.
  - apply Byte.to_of_N in E. simpl. rewrite E. lia.
  - apply Byte.of_N_None_iff in E. lia.
Qed.

Lemma byte_val_range b : 0 ≤ byte_val b < 256.
Proof.
  unfold byte_val. pose proof (Byte.to_N_bounded b). lia.
Qed.

Lemma length_be_encode n z : length (be_encode n z) = n.
Proof. induction n as [|n IH]; simpl; [done | by rewrite IH]. Qed.

Lemma be_decode_from acc n z :
  fold_left (λ a b, a * 256 + byte_val b) (be_encode n z) acc =
  acc * 256 ^ Z.of_nat n + z `mod` 256 ^ Z.of_nat n.
Proof.
  revert acc. induction n as [|n IH]; intros acc.
  - simpl. rewrite Z.mod_1_r. lia.
  - cbn [be_encode fold_left]. rewrite IH, byte_val_of_Z.
    rewrite Nat2Z.inj_succ, Z.pow_succ_r by lia.
    assert (0 < 256 ^ Z.of_nat n) as Hp by (apply Z.pow_pos_nonneg; lia).
    rewrite (Z.mul_comm 256 (256 ^ Z.of_nat n)).
    rewrite (Z.rem_mul_r z (256 ^ Z.of_nat n) 256) by lia. lia.
Qed.

Lemma be_decode_encode n z : be_decode (be_encode n z) = z `mod` 256 ^ Z.of_nat n.
Proof. unfold be_decode. rewrite be_decode_from. lia. Qed.

Lemma read_app (x r : bytes) n :
  Z.of_nat (length x) = n → read n (x ++ r) = Some (x, r).
Proof.
  intros <-. unfold read. rewrite length_app.
  destruct (Z.ltb_spec (Z.of_nat (length x + length r)) (Z.of_nat (length x))); [lia|].
  rewrite Nat2Z.id, take_app_length, drop_app_length. done.
Qed.

Lemma read_be n z r : read (Z.of_nat n) (be_encode n z ++ r) = Some (be_encode n z, r).
Proof. apply read_app. by rewrite length_be_encode. Qed.

Lemma to_signed_unsigned w i :
  0 < w → - 2 ^ (w - 1) ≤ i < 2 ^ (w - 1) → to_signed w (i `mod` 2 ^ w) = i.
Proof.
  intros Hw Hi. unfold to_signed.
  assert (2 ^ w = 2 * 2 ^ (w - 1)) as E.
  { rewrite <- Z.pow_succ_r by lia. f_equal. lia. }
  destruct (Z.ltb_spec (i `mod` 2 ^ w) (2 ^ (w - 1))) as [H|H].
  - destruct (Z.le_gt_cases 0 i).
    + rewrite Z.mod_small; lia.
    + rewrite <- (Z.mod_add i 1) in H |- * by lia.
      rewrite Z.mod_small in H |- *; lia.
  - destruct (Z.le_gt_cases 0 i).
    + rewrite Z.mod_small in H |- *; lia.
    + rewrite <- (Z.mod_add i 1) by lia.
      rewrite Z.mod_small; lia.
Qed.

(** ** The MessagePack formats *)

Lemma be_encode_1 z : be_encode 1 z = [byte_of_Z z].
Proof. simpl. by rewrite Z.div_1_r. Qed.

Local Ltac byte_consts :=
  change (byte_val xc0) with 0xc0 in *; change (byte_val xc2) with 0xc2 in *;
  change (byte_val xc3) with 0xc3 in *; change (byte_val xca) with 0xca in *;
  change (byte_val xcb) with 0xcb in *; change (byte_val xcc) with 0xcc in *;
  change (byte_val xcd) with 0xcd in *; change (byte_val xce) with 0xce in *;
  change (byte_val xcf) with 0xcf in *; change (byte_val xd0) with 0xd0 in *;
  change (byte_val xd1) with 0xd1 in *; change (byte_val xd2) with 0xd2 in *;
  change (byte_val xd3) with 0xd3 in *; change (byte_val xda) with 0xda in *;
  change (byte_val xdb) with 0xdb in *; change (byte_val xde) with 0xde in *;
  change (byte_val xdf) with 0xdf in *; change (byte_val xd9) with 0xd9 in *;
  change (byte_val xc4) with 0xc4 in *; change (byte_val xc5) with 0xc5 in *;
  change (byte_val xc6) with 0xc6 in *.

(** The step of a fixed-width format: its tag, then [n] big-endian bytes. *)
Local Ltac fixed_width z n :=
  cbn [app decode_integer decode_value decode_mapLen]; byte_consts;
  cbn -[read be_encode]; rewrite <- ?app_assoc;
  change z with (Z.of_nat n); rewrite read_be; cbn [mbind option_bind];
  rewrite be_decode_encode.

Lemma decode_integer_int i r :
  - 2 ^ 63 ≤ i < 2 ^ 63 →
  decode_integer (encodeInt i ++ r) = Some (VInt Kint64 i, r).
Proof.
  intros Hi. unfold encodeInt.
  destruct (Z.leb_spec (-32) i); [destruct (Z.leb_spec i 127)|]; cbn [andb].
  - cbn [app decode_integer]. rewrite byte_val_of_Z.
    destruct (Z.le_gt_cases 0 i).
    + rewrite Z.mod_small by lia.
      destruct (Z.leb_spec i 0x7f); [done|lia].
    + rewrite <- (Z.mod_add i 1), Z.mod_small by lia.
      destruct (Z.leb_spec (i + 1 * 256) 0x7f); [lia|].
      destruct (Z.leb_spec 0xe0 (i + 1 * 256)); [|lia].
      do 2 f_equal. f_equal. lia.
  - destruct (Z.ltb_spec i (-32)); [lia|]. cbn [andb].
    destruct (Z.leb_spec (-32768) i); [|lia].
    destruct (Z.leb_spec i 32767); cbn [andb].
    + fixed_width 2 2%nat. by rewrite to_signed_unsigned by (simpl; lia).
    + destruct (Z.leb_spec (-2147483648) i); [|lia].
      destruct (Z.leb_spec i 2147483647); cbn [andb].
      * fixed_width 4 4%nat. by rewrite to_signed_unsigned by (simpl; lia).
      * fixed_width 8 8%nat. by rewrite to_signed_unsigned by (simpl; lia).
  - destruct (Z.ltb_spec i (-32)); [|lia].
    destruct (Z.leb_spec (-128) i); cbn [andb].
    + rewrite <- be_encode_1.
      fixed_width 1 1%nat. by rewrite to_signed_unsigned by (simpl; lia).
    + destruct (Z.leb_spec (-32768) i); cbn [andb].
      * destruct (Z.leb_spec i 32767); [|lia]. cbn [andb].
        fixed_width 2 2%nat. by rewrite to_signed_unsigned by (simpl; lia).
      * destruct (Z.leb_spec (-2147483648) i); cbn [andb].
        -- destruct (Z.leb_spec i 2147483647); [|lia]. cbn [andb].
           fixed_width 4 4%nat. by rewrite to_signed_unsigned by (simpl; lia).
        -- fixed_width 8 8%nat. by rewrite to_signed_unsigned by (simpl; lia).
Qed.

Lemma decode_integer_uint u r :
  0 ≤ u < 2 ^ 64 →
  decode_integer (encodeUint u ++ r) =
    Some (if u <=? 127 then VInt Kint64 u else VUint Kuint64 u, r).
Proof.
  intros Hu. unfold encodeUint.
  destruct (Z.leb_spec u 127).
  - cbn [app decode_integer]. rewrite byte_val_of_Z, Z.mod_small by lia.
    destruct (Z.leb_spec u 0x7f); [done|lia].
  - destruct (Z.leb_spec u 255).
    + rewrite <- be_encode_1.
      fixed_width 1 1%nat. rewrite Z.mod_small by (simpl; lia). done.
    + destruct (Z.leb_spec u 65535).
      * fixed_width 2 2%nat. rewrite Z.mod_small by (simpl; lia). done.
      * destruct (Z.leb_spec u 4294967295).
        -- fixed_width 4 4%nat. rewrite Z.mod_small by (simpl; lia). done.
        -- fixed_width 8 8%nat. rewrite Z.mod_small by (simpl; lia). done.
Qed.

Lemma decode_key_int k r :
  - 2 ^ 63 ≤ k < 2 ^ 63 → decode_key (encodeInt k ++ r) = Some (k, r).
Proof.
  intros Hk. unfold decode_key. by rewrite decode_integer_int.
Qed.

Lemma encodeInt_tag i : ∃ b t, encodeInt i = b :: t ∧ integer_tag (byte_val b).
Proof.
  unfold encodeInt, integer_tag.
  destruct (Z.leb_spec (-32) i); [destruct (Z.leb_spec i 127)|]; cbn [andb].
  - eexists _, _. split; [done|]. rewrite byte_val_of_Z.
    destruct (Z.le_gt_cases 0 i).
    + rewrite Z.mod_small by lia. lia.
    + rewrite <- (Z.mod_add i 1), Z.mod_small by lia. lia.
  - repeat match goal with |- context [if ?c then _ else _] => destruct c end;
      eexists _, _; (split; [done|]); byte_consts; lia.
  - repeat match goal with |- context [if ?c then _ else _] => destruct c end;
      eexists _, _; (split; [done|]); byte_consts; lia.
Qed.

Lemma encodeUint_tag u : 0 ≤ u → ∃ b t, encodeUint u = b :: t ∧ integer_tag (byte_val b).
Proof.
  intros Hu. unfold encodeUint, integer_tag.
  destruct (Z.leb_spec u 127).
  - eexists _, _. split; [done|]. rewrite byte_val_of_Z, Z.mod_small by lia. lia.
  - repeat match goal with |- context [if ?c then _ else _] => destruct c end;
      eexists _, _; (split; [done|]); byte_consts; lia.
Qed.

Section EventCodecFacts.
Variable float64_of_float32 : Z → Z.

Local Abbreviation decode_value' := (decode_value float64_of_float32).
Local Abbreviation promote' := (promote float64_of_float32).
Local Abbreviation naked := (naked float64_of_float32).

Lemma decode_value_integer b r :
  integer_tag (byte_val b) → decode_value' (b :: r) = decode_integer (b :: r).
Proof.
  unfold integer_tag. intros Ht. cbn [decode_value].
  repeat match goal with
         | |- context [?x =? ?y] => destruct (Z.eqb_spec x y); [lia|]
         end.
  destruct (Z.leb_spec 0xa0 (byte_val b)); [|done].
  destruct (Z.leb_spec (byte_val b) 0xbf); [lia|done].
Qed.

Lemma promote_naked v : valid_value v → promote' (naked v) = promote' v.
Proof.
  destruct v as [| |k i|k u| | | |]; try done. simpl. intros Hu.
  destruct (Z.leb_spec u 127); [|done]. simpl.
  unfold to_unsigned, to_signed.
  assert (2 ^ uint_bits k ≤ 2 ^ 64) by (destruct k; simpl; lia).
  rewrite Z.mod_small by lia.
  destruct (Z.ltb_spec u (2 ^ (64 - 1))); [done|]. simpl in *. lia.
Qed.

Lemma decode_value_string s r :
  Z.of_nat (length s) < 2 ^ 32 →
  decode_value' (encodeString s ++ r) = Some (VString s, r).
Proof.
  intros Hs. unfold encodeString.
  destruct (Z.ltb_spec (Z.of_nat (length s)) 32).
  - cbn [app decode_value]. rewrite byte_val_of_Z, Z.mod_small by lia.
    repeat match goal with
           | |- context [?x =? ?y] => destruct (Z.eqb_spec x y); [lia|]
           end.
    destruct (Z.leb_spec 0xa0 (0xa0 + Z.of_nat (length s))); [|lia].
    destruct (Z.leb_spec (0xa0 + Z.of_nat (length s)) 0xbf); [|lia].
    cbn [andb]. rewrite read_app by lia. done.
  - destruct (Z.ltb_spec (Z.of_nat (length s)) 65536).
    + fixed_width 2 2%nat. rewrite Z.mod_small by (simpl; lia).
      rewrite read_app by done. done.
    + fixed_width 4 4%nat. rewrite Z.mod_small by (simpl; lia).
      rewrite read_app by done. done.
Qed.

Lemma decode_value_encode v r :
  valid_value v → decode_value' (encode_value v ++ r) = Some (naked v, r).
Proof.
  destruct v as [|[|]|k i|k u|b|b|s|s]; cbn [valid_value encode_value naked]; intros Hv;
    try done.
  - destruct (encodeInt_tag i) as (b & t & E & Ht).
    pose proof (decode_integer_int i r) as Hd. rewrite E in Hd |- *.
    cbn [app] in Hd |- *. rewrite decode_value_integer by done.
    apply Hd. destruct k; simpl in Hv; lia.
  - assert (2 ^ uint_bits k ≤ 2 ^ 64) by (destruct k; simpl; lia).
    destruct (encodeUint_tag u) as (b & t & E & Ht); [lia|].
    pose proof (decode_integer_uint u r) as Hd. rewrite E in Hd |- *.
    cbn [app] in Hd |- *. rewrite decode_value_integer by done.
    apply Hd. lia.
  - fixed_width 4 4%nat. rewrite Z.mod_small by (simpl; lia). done.
  - fixed_width 8 8%nat. rewrite Z.mod_small by (simpl; lia). done.
  - by apply decode_value_string.
Qed.

Lemma decode_mapLen_encode n r :
  0 ≤ n < 2 ^ 32 → decode_mapLen (encodeMapLen n ++ r) = Some (n, r).
Proof.
  intros Hn. unfold encodeMapLen.
  destruct (Z.ltb_spec n 16).
  - cbn [app decode_mapLen]. rewrite byte_val_of_Z, Z.mod_small by lia.
    destruct (Z.eqb_spec (0x80 + n) 0xc0); [lia|].
    destruct (Z.leb_spec 0x80 (0x80 + n)); [|lia].
    destruct (Z.leb_spec (0x80 + n) 0x8f); [|lia].
    cbn [andb]. do 2 f_equal. lia.
  - destruct (Z.ltb_spec n 65536).
    + fixed_width 2 2%nat. rewrite Z.mod_small by (simpl; lia). done.
    + fixed_width 4 4%nat. rewrite Z.mod_small by (simpl; lia). done.
Qed.

Lemma decode_entries_encode (l : list (Z * value)) (m : gmap Z value) r :
  Forall (λ kv, - 2 ^ 63 ≤ kv.1 < 2 ^ 63 ∧ valid_value kv.2) l →
  decode_entries float64_of_float32 (length l)
    (concat ((λ kv, encodeInt kv.1 ++ encode_value kv.2) <$> l) ++ r) m =
  Some (foldl (λ m kv, <[kv.1 := naked kv.2]> m) m l, r).
Proof.
  revert m. induction l as [|[k v] l IH]; intros m Hl; [done|].
  apply Forall_cons in Hl as [[Hk Hv] Hl]. simpl in Hk, Hv.
  rewrite fmap_cons. cbn [concat length decode_entries fst snd].
  rewrite <- !app_assoc. rewrite decode_key_int by done.
  cbn [mbind option_bind]. rewrite decode_value_encode by done.
  cbn [mbind option_bind]. rewrite IH by done. done.
Qed.

Lemma foldl_insert_fmap (g : value → value) (l : list (Z * value)) (m0 : gmap Z value) :
  NoDup l.*1 →
  foldl (λ m kv, <[kv.1 := g kv.2]> m) m0 l = (g <$> list_to_map l) ∪ m0.
Proof.
  revert m0. induction l as [|[k v] l IH]; intros m0 Hnd.
  - simpl. by rewrite fmap_empty, (left_id_L ∅ (∪)).
  - rewrite fmap_cons in Hnd. apply NoDup_cons in Hnd as [Hk Hnd].
    cbn [foldl list_to_map foldr fst snd]. rewrite IH by done.
    rewrite fmap_insert, <- insert_union_l.
    rewrite <- insert_union_r; [done|].
    rewrite lookup_fmap. apply not_elem_of_list_to_map_1 in Hk.
    simpl in Hk. by rewrite Hk.
Qed.

(** C5.  For every raw event that Go's types can hold, with data values
    that are integers, floats, booleans, strings or nil, every byte string
    that [marshal] can return is decoded by [unmarshal] to the normalized
    event: it has the same timestamp and the same keys, and under each key
    the value of the event in its canonical type: an integer of any width
    as an [int64], a float as a [float64], a boolean, a string or nil as it
    is. *)
Theorem C5_event_round_trip (e : rawEvent) (b : bytes) :
  valid_event e →
  rawEvent_marshal e b →
  ∃ e',
    rawEvent_unmarshal float64_of_float32 b = Ok (inl e') ∧
    e' = normalize float64_of_float32 e ∧
    timestamp e' = timestamp e ∧
    ∀ k, data e' !! k =
           (λ v, match v with
                 | VInt _ i => VInt Kint64 i
                 | VUint _ u => VInt Kint64 (to_signed 64 u)
                 | VFloat32 x => VFloat64 (float64_of_float32 x)
                 | VNil => VNil
                 | VBool x => VBool x
                 | VFloat64 x => VFloat64 x
                 | VString s => VString s
                 | VBytes s => VBytes s
                 end) <$> data e !! k.
Proof.
  intros (Hts & Hsz & Hdata) (l & Hl & ->).
  unfold rawEvent_unmarshal, rawEvent_marshal_in_order, encode_map.
  change 8 with (Z.of_nat 8). rewrite read_be.
  assert (length l = size (data e)) as Hlen.
  { rewrite Hl. by rewrite length_map_to_list. }
  assert (Forall (λ kv, - 2 ^ 63 ≤ kv.1 < 2 ^ 63 ∧ valid_value kv.2) l) as Hall.
  { rewrite Hl. apply Forall_forall. intros [k v] Hin%elem_of_map_to_list.
    exact (Hdata _ _ Hin). }
  assert (NoDup l.*1) as Hnd.
  { rewrite Hl. apply NoDup_fst_map_to_list. }
  unfold decode_map. rewrite decode_mapLen_encode by lia.
  cbn [mbind option_bind]. rewrite Nat2Z.id.
  rewrite <- (app_nil_r (concat _)). rewrite decode_entries_encode by done.
  cbn [mbind option_bind].
  rewrite be_decode_encode. rewrite to_signed_unsigned by (simpl; lia).
  rewrite foldl_insert_fmap by done. rewrite (right_id_L ∅ (∪)).
  assert (list_to_map l = data e) as ->.
  { rewrite <- (list_to_map_to_list (data e)).
    apply list_to_map_proper; [done|]. by rewrite Hl. }
  assert (promote' <$> (naked <$> data e) = promote' <$> data e) as Hpn.
  { rewrite <- map_fmap_compose. apply map_fmap_ext.
    intros k v Hkv. simpl. apply promote_naked. exact (proj2 (Hdata _ _ Hkv)). }
  eexists. split; [reflexivity|]. unfold normalize. cbn [timestamp data].
  rewrite Hpn. split; [done|]. split; [done|].
  intros k. rewrite lookup_fmap.
  destruct (data e !! k) as [v|] eqn:Hk; [|done]. cbn.
  f_equal. destruct (Hdata _ _ Hk) as [_ Hv].
  destruct v as [| |ki i|ku u| | | |]; try done.
  cbn in Hv |- *. unfold to_unsigned.
  assert (2 ^ uint_bits ku ≤ 2 ^ 64) by (destruct ku; simpl; lia).
  by rewrite Z.mod_small by lia.
Qed.

End EventCodecFacts.

(** * Further properties *)

(** ** What a sweep does to the stored events *)

Section BucketUpdates.
Context {V : Type}.
Implicit Types (b : list (bytes * V)) (k : bytes) (v : V).

Lemma bucket_set_keep b k v v0 k1 v1 :
  (k1, v1) ∈ b → bucket_get k b = Some v0 →
  (k1, v1) ∈ bucket_set k v b ∨ (v1 = v0 ∧ (k1, v) ∈ bucket_set k v b).
Proof.
  induction b as [|e b IH]; [by intros ?%elem_of_nil|].
  intros Hin Hget. simpl in *. destruct (bytes_Compare e.1 k =? 0).
  - injection Hget as <-. apply elem_of_cons in Hin as [<-|Hin].
    + right. split; [done|]. left.
    + left. by right.
  - apply elem_of_cons in Hin as [<-|Hin].
    + left. left.
    + destruct (IH Hin Hget) as [?|[? ?]]; [left|right]; try split; try done; by right.
Qed.

Lemma bucket_set_from b k v k1 v1 :
  (k1, v1) ∈ bucket_set k v b →
  (k1, v1) ∈ b ∨ (v1 = v ∧ ∃ v0, (k1, v0) ∈ b ∧ bucket_get k b = Some v0).
Proof.
  induction b as [|e b IH]; simpl; [by left|].
  destruct (bytes_Compare e.1 k =? 0).
  - intros [[= -> ->]|Hin]%elem_of_cons.
    + right. split; [done|]. exists e.2. split; [|done]. destruct e; left.
    + left. by right.
  - intros [<-|Hin]%elem_of_cons; [left; left|].
    destruct (IH Hin) as [?|(-> & v0 & ? & ?)].
    + left. by right.
    + right. split; [done|]. exists v0. split; [by right|done].
Qed.

Lemma bucket_delete_keep b k x :
  x ∈ b → x ∈ bucket_delete k b ∨ bucket_get k b = Some x.2.
Proof.
  induction b as [|e b IH]; [by intros ?%elem_of_nil|].
  intros Hin. simpl. destruct (bytes_Compare e.1 k =? 0).
  - apply elem_of_cons in Hin as [<-|Hin]; [by right | by left].
  - apply elem_of_cons in Hin as [<-|Hin]; [left; left|].
    destruct (IH Hin); [left; by right | by right].
Qed.

Lemma bucket_get_set b k v v0 :
  bucket_get k b = Some v0 → bucket_get k (bucket_set k v b) = Some v.
Proof.
  induction b as [|e b IH]; [done|]. simpl.
  destruct (bytes_Compare e.1 k =? 0) eqn:E; simpl; rewrite E; [done | exact IH].
Qed.

Lemma length_bucket_set b k v : length (bucket_set k v b) = length b.
Proof.
  induction b as [|e b IH]; [done|]. simpl.
  destruct (bytes_Compare e.1 k =? 0); simpl; [done | by rewrite IH].
Qed.

Lemma length_bucket_delete b k v0 :
  bucket_get k b = Some v0 → S (length (bucket_delete k b)) = length b.
Proof.
  induction b as [|e b IH]; [done|]. simpl.
  destruct (bytes_Compare e.1 k =? 0); simpl; [done|].
  intros Hget. by rewrite IH.
Qed.
End BucketUpdates.

Lemma bucket_events_set (sb : ShardBucket) k ob ob0 :
  bucket_get k sb = Some ob0 →
  bucket_events (bucket_set k ob sb) =
    bucket_events sb - Z.of_nat (length ob0) + Z.of_nat (length ob).
Proof.
  induction sb as [|e sb IH]; [done|]. simpl.
  destruct (bytes_Compare e.1 k =? 0); simpl.
  - intros [= <-]. lia.
  - intros Hget. rewrite IH by done. lia.
Qed.

Lemma bucket_events_delete (sb : ShardBucket) k ob0 :
  bucket_get k sb = Some ob0 →
  bucket_events (bucket_delete k sb) = bucket_events sb - Z.of_nat (length ob0).
Proof.
  induction sb as [|e sb IH]; [done|]. simpl.
  destruct (bytes_Compare e.1 k =? 0); simpl.
  - intros [= <-]. lia.
  - intros Hget. rewrite IH by done. lia.
Qed.

Lemma total_events_insert (tx : Root) nm (sb sb' : ShardBucket) :
  tx !! nm = Some sb →
  total_events (<[nm := sb']> tx) = total_events tx - bucket_events sb + bucket_events sb'.
Proof.
  intros Hlk. unfold total_events.
  rewrite (map_fold_delete_L _ _ nm sb tx); [|intros; lia|done].
  rewrite <- insert_delete_eq.
  rewrite map_fold_insert_L; [lia|intros; lia|apply lookup_delete_eq].
Qed.

Lemma total_objects_insert (tx : Root) nm (sb sb' : ShardBucket) :
  tx !! nm = Some sb →
  total_objects (<[nm := sb']> tx) =
    total_objects tx - Z.of_nat (length sb) + Z.of_nat (length sb').
Proof.
  intros Hlk. unfold total_objects.
  rewrite (map_fold_delete_L _ _ nm sb tx); [|intros; lia|done].
  rewrite <- insert_delete_eq.
  rewrite map_fold_insert_L; [lia|intros; lia|apply lookup_delete_eq].
Qed.

(** The inner loop deletes a prefix of expired events and stops at the
    first event that is not expired. *)
Lemma sweepEvents_prefix bound ob ev :
  ∃ pre ob', sweepEvents bound ob ev =
               (ob', ev + Z.of_nat (length pre), fst <$> head ob') ∧
    ob = pre ++ ob' ∧ Forall (expired bound) pre ∧
    match ob' with [] => True | e :: _ => ¬ expired bound e end.
Proof.
  revert ev. induction ob as [|e ob IH]; intros ev; simpl.
  - exists [], []. rewrite Z.add_0_r. done.
  - destruct (Z.ltb_spec (bytes_Compare e.1 bound) 0) as [He|He].
    + destruct (IH (ev + 1)) as (pre & ob' & -> & -> & Hpre & Hhd).
      exists (e :: pre), ob'. split_and!; try done.
      * do 2 f_equal. simpl length. lia.
      * by constructor.
    + exists [], (e :: ob). rewrite Z.add_0_r. split_and!; try done.
      unfold expired. lia.
Qed.

(** One iteration of the sweep loop is a rollover, which leaves the buckets
    and the counts alone, or a visit of one object: a prefix [pre] of expired
    events of its bucket [ob = pre ++ ob'] is deleted, and the object itself
    when nothing is left. *)
Lemma sweepStep_cases bound s s' :
  sweepStep bound s = Ok s' →
  (sw_tx s' = sw_tx s ∧ events s' = events s ∧ objects s' = objects s) ∨
  (∃ sb key pre ob',
     sw_tx s !! sw_sb s = Some sb ∧ bucket_get key sb = Some (pre ++ ob') ∧
     Forall (expired bound) pre ∧
     events s' = events s + Z.of_nat (length pre) ∧
     match ob' with
     | [] => sw_tx s' = <[sw_sb s := bucket_delete key (bucket_set key [] sb)]> (sw_tx s) ∧
             objects s' = objects s + 1
     | e :: _ => ¬ expired bound e ∧
                 sw_tx s' = <[sw_sb s := bucket_set key ob' sb]> (sw_tx s) ∧
                 objects s' = objects s
     end).
Proof.
  unfold sweepStep.
  destruct (sw_tx s !! sw_sb s) as [sb|] eqn:Hlk; [|done].
  destruct (nextObjectKey (sw_t s) sb) as [key|].
  - destruct (bucket_get key sb) as [ob|] eqn:Hget; [|done].
    destruct (sweepEvents_prefix bound ob (events s)) as (pre & ob' & -> & -> & Hpre & Hhd).
    destruct ob' as [|e ob']; cbn [head fmap option_fmap option_map].
    + intros [= <-]. right. exists sb, key, pre, []. cbn. done.
    + intros [= <-]. right. exists sb, key, pre, (e :: ob'). cbn. done.
  - destruct (ShardCount (sw_t s) =? 0); [done|]. cbn zeta.
    destruct (sw_tx s !! shardDBName _); [|done].
    destruct (ddTags _) as [tags t']. intros [= <-]. left. done.
Qed.

(** A relation between loop states that every iteration establishes, and
    that is reflexive and transitive, holds between the ends of the loop. *)
Lemma sweepLoop_rel (P : SweepState → SweepState → Prop) bound :
  (∀ s, P s s) →
  (∀ s1 s2 s3, P s1 s2 → P s2 s3 → P s1 s3) →
  (∀ s s', sweepStep bound s = Ok s' → P s (incr_swept s')) →
  ∀ fuel s s', sweepLoop fuel bound s = Ok s' → P s s'.
Proof.
  intros Hrefl Htrans Hstep. induction fuel as [|fuel IH]; intros s s'; simpl.
  - destruct (_ && _); [done|]. by intros [= <-].
  - destruct (_ && _); [|by intros [= <-]].
    destruct (sweepStep bound s) as [s1| |] eqn:E; [|done..]. cbn.
    intros Hloop. eapply Htrans; [by apply Hstep | by apply IH].
Qed.

(** The buckets that the closure of a batch leaves, related to those it
    started on by such a relation. *)
Lemma sweepTx_rel (P : SweepState → SweepState → Prop) ShiftTimeBytes now expiration
    tx t sink tx' t' sink' sw ev ob err :
  (∀ s, P s s) →
  (∀ s1 s2 s3, P s1 s2 → P s2 s3 → P s1 s3) →
  (∀ s s', sweepStep (ShiftTimeBytes (now - expiration)) s = Ok s' → P s (incr_swept s')) →
  sweepTx ShiftTimeBytes now expiration tx t sink = Ok (tx', t', sink', (sw, ev, ob), err) →
  ∃ s', P {| sw_t := t; sw_tx := tx; sw_sink := sink;
             sw_sb := shardDBName (currentShard t);
             swept := 0; events := 0; objects := 0 |} s' ∧
    sw_tx s' = tx' ∧ events s' = ev ∧ objects s' = ob ∧ swept s' = sw ∧
    err = if (ev =? 0) && (ob =? 0) then Some NoDeletes else None.
Proof.
  intros Hrefl Htrans Hstep. unfold sweepTx.
  destruct (tx !! _); [|done].
  destruct (sweepLoop _ _ _) as [s'| |] eqn:Hloop; [|done..]. cbn.
  apply (sweepLoop_rel P _ Hrefl Htrans Hstep) in Hloop.
  destruct (ddTags (sw_t s')) as [tags1 t1].
  destruct ((events s' =? 0) && (objects s' =? 0)) eqn:E.
  - intros [= <- _ _ <- <- <- <-]. exists s'. rewrite E. done.
  - destruct (0 <? events s'); destruct (ddTags t1) as [??];
      destruct (0 <? objects s'); try destruct (ddTags _) as [??];
      intros [= <- _ _ <- <- <- <-]; exists s'; rewrite E; done.
Qed.

Lemma stored_insert_ne (tx : Root) nm (sb : ShardBucket) shard object ev :
  shard ≠ nm → stored (<[nm := sb]> tx) shard object ev ↔ stored tx shard object ev.
Proof.
  intros Hne. unfold stored. by setoid_rewrite lookup_insert_ne.
Qed.

Lemma sweepStep_keeps_unexpired bound s s' :
  sweepStep bound s = Ok s' → keeps_unexpired bound (sw_tx s) (sw_tx s').
Proof.
  intros [(-> & _)|(sb & key & pre & ob' & Hlk & Hget & Hpre & _ & Hcase)]%sweepStep_cases;
    [by intros ???|].
  intros shard object ev Hst Hne.
  assert (∀ sb', (∀ ob0, (object, ob0) ∈ sb → ev ∈ ob0 →
                     ∃ ob1, (object, ob1) ∈ sb' ∧ ev ∈ ob1) →
            stored (<[sw_sb s := sb']> (sw_tx s)) shard object ev) as Hins.
  { intros sb' Hsb'. destruct (decide (shard = sw_sb s)) as [->|Hsh].
    - destruct Hst as (sb0 & ob0 & Hlk0 & Hin & Hev).
      rewrite Hlk in Hlk0. injection Hlk0 as <-.
      destruct (Hsb' _ Hin Hev) as (ob1 & ? & ?).
      exists sb', ob1. by rewrite lookup_insert_eq.
    - by apply stored_insert_ne. }
  assert (∀ ob0, (object, ob0) ∈ sb → ev ∈ ob0 →
            ∃ ob1, (object, ob1) ∈ bucket_set key ob' sb ∧ ev ∈ ob1) as Hset.
  { intros ob0 Hin Hev.
    destruct (bucket_set_keep sb key ob' _ _ _ Hin Hget) as [?|[-> ?]]; [by eauto|].
    exists ob'. split; [done|].
    apply elem_of_app in Hev as [Hev|Hev]; [|done].
    rewrite Forall_forall in Hpre. destruct Hne. by apply Hpre. }
  destruct ob' as [|e ob'].
  - destruct Hcase as [-> _]. apply Hins. intros ob0 Hin Hev.
    destruct (Hset _ Hin Hev) as (ob1 & Hin1 & Hev1).
    exists ob1. split; [|done].
    destruct (bucket_delete_keep _ key _ Hin1) as [?|Hg]; [done|].
    rewrite (bucket_get_set _ _ _ _ Hget) in Hg. injection Hg as Hg.
    simpl in Hg. subst ob1. by apply elem_of_nil in Hev1.
  - destruct Hcase as (_ & -> & _). by apply Hins.
Qed.

Lemma sweepStep_adds_nothing bound s s' :
  sweepStep bound s = Ok s' → adds_nothing (sw_tx s) (sw_tx s').
Proof.
  intros [(-> & _)|(sb & key & pre & ob' & Hlk & Hget & Hpre & _ & Hcase)]%sweepStep_cases;
    [by split|].
  assert (∀ sb', (∀ object ob1, (object, ob1) ∈ sb' →
                     ∃ ob0, (object, ob0) ∈ sb ∧ ∀ ev, ev ∈ ob1 → ev ∈ ob0) →
            adds_nothing (sw_tx s) (<[sw_sb s := sb']> (sw_tx s))) as Hins.
  { intros sb' Hsb'. split.
    - apply dom_insert_lookup_L. by rewrite Hlk.
    - intros shard object ev Hst. destruct (decide (shard = sw_sb s)) as [->|Hsh].
      + destruct Hst as (sb1 & ob1 & Hlk1 & Hin & Hev).
        rewrite lookup_insert_eq in Hlk1. injection Hlk1 as <-.
        destruct (Hsb' _ _ Hin) as (ob0 & ? & Hsub).
        exists sb, ob0. auto.
      + by apply stored_insert_ne in Hst. }
  assert (∀ object ob1, (object, ob1) ∈ bucket_set key ob' sb →
            ∃ ob0, (object, ob0) ∈ sb ∧ ∀ ev, ev ∈ ob1 → ev ∈ ob0) as Hset.
  { intros object ob1 [?|(-> & ob0 & Hin & Hg)]%bucket_set_from; [by eauto|].
    exists ob0. split; [done|]. intros ev Hev.
    rewrite Hget in Hg. injection Hg as <-. apply elem_of_app. by right. }
  destruct ob' as [|e ob'].
  - destruct Hcase as [-> _]. apply Hins.
    intros object ob1 Hin%bucket_delete_elem. by apply Hset.
  - destruct Hcase as (_ & -> & _). by apply Hins.
Qed.

Lemma sweepStep_counts bound s s' :
  sweepStep bound s = Ok s' →
  total_events (sw_tx s') + events s' = total_events (sw_tx s) + events s ∧
  total_objects (sw_tx s') + objects s' = total_objects (sw_tx s) + objects s.
Proof.
  intros [(-> & -> & ->)|(sb & key & pre & ob' & Hlk & Hget & Hpre & Hev & Hcase)]%sweepStep_cases;
    [done|].
  pose proof (bucket_get_set sb key ob' _ Hget) as Hget'.
  destruct ob' as [|e ob'].
  - destruct Hcase as [-> ->].
    rewrite (total_events_insert _ _ _ _ Hlk), (total_objects_insert _ _ _ _ Hlk).
    rewrite (bucket_events_delete _ _ _ Hget'), (bucket_events_set _ _ _ _ Hget).
    pose proof (length_bucket_delete _ _ _ Hget') as Hlen.
    rewrite length_bucket_set in Hlen.
    rewrite Hev, length_app. simpl length. lia.
  - destruct Hcase as (_ & -> & ->).
    rewrite (total_events_insert _ _ _ _ Hlk), (total_objects_insert _ _ _ _ Hlk).
    rewrite (bucket_events_set _ _ _ _ Hget), length_bucket_set.
    rewrite Hev, length_app. lia.
Qed.

Lemma bucket_delete_set {V} (b : list (bytes * V)) k v :
  bucket_delete k (bucket_set k v b) = bucket_delete k b.
Proof.
  induction b as [|e b IH]; [done|]. simpl.
  destruct (bytes_Compare e.1 k =? 0) eqn:E; simpl; rewrite E; [done|]. by rewrite IH.
Qed.

Lemma sweepStep_no_empty_object bound s s' :
  sweepStep bound s = Ok s' → no_empty_object (sw_tx s) → no_empty_object (sw_tx s').
Proof.
  intros [(-> & _)|(sb & key & pre & ob' & Hlk & Hget & Hpre & _ & Hcase)]%sweepStep_cases;
    [done|].
  intros Hne. pose proof (Hne _ _ Hlk) as Hsb. simpl in Hsb.
  rewrite Forall_forall in Hsb.
  destruct ob' as [|e ob'].
  - destruct Hcase as [-> _]. rewrite bucket_delete_set.
    apply map_Forall_insert_2; [|done].
    apply Forall_forall. intros x Hx%bucket_delete_elem. by apply Hsb.
  - destruct Hcase as (_ & -> & _).
    apply map_Forall_insert_2; [|done].
    apply Forall_forall. intros x [Hx| ->]%bucket_set_elem; [by apply Hsb | done].
Qed.

(** [bytes.Compare] is a strict order below zero. *)
Lemma bytes_Compare_antisym a b : bytes_Compare b a = - bytes_Compare a b.
Proof.
  revert b. induction a as [|x a IH]; intros [|y b]; simpl; try done.
  destruct (Z.ltb_spec (byte_val x) (byte_val y)), (Z.ltb_spec (byte_val y) (byte_val x));
    try done; try lia; apply IH.
Qed.

Lemma bytes_Compare_lt_trans a b c :
  bytes_Compare a b < 0 → bytes_Compare b c < 0 → bytes_Compare a c < 0.
Proof.
  revert b c. induction a as [|x a IH]; intros [|y b] [|z c]; simpl; try done; try lia.
  destruct (Z.ltb_spec (byte_val x) (byte_val y)), (Z.ltb_spec (byte_val y) (byte_val x)),
    (Z.ltb_spec (byte_val y) (byte_val z)), (Z.ltb_spec (byte_val z) (byte_val y)),
    (Z.ltb_spec (byte_val x) (byte_val z)), (Z.ltb_spec (byte_val z) (byte_val x));
    try done; try lia. apply IH.
Qed.

Lemma ascending_above {V} (e : bytes * V) b :
  ascending (e :: b) → Forall (λ e', bytes_Compare e.1 e'.1 < 0) b.
Proof.
  revert e. induction b as [|e' b IH]; intros e; [constructor|].
  intros [Hlt Hasc]. constructor; [done|].
  eapply Forall_impl; [exact (IH e' Hasc)|]. intros e2 H2. simpl in *.
  by eapply bytes_Compare_lt_trans.
Qed.

Lemma ascending_app {V} (lo : list (bytes * V)) e hi :
  ascending (lo ++ e :: hi) →
  Forall (λ e', bytes_Compare e'.1 e.1 < 0) lo ∧ ascending (e :: hi).
Proof.
  induction lo as [|e0 lo IH]; [by split|]. intros Hasc.
  pose proof (ascending_above _ _ Hasc) as Habove.
  destruct Hasc as [_ Hasc]. destruct (IH Hasc) as [Hlo Hhi].
  split; [|done]. constructor; [|done].
  rewrite Forall_app, Forall_cons in Habove. by destruct Habove as (_ & ? & _).
Qed.

(** X4.  On an object bucket whose event keys ascend, the inner loop of the
    sweeper deletes exactly the expired events: it leaves the events that
    are not below the bound, counts one event for each one below it, and
    ends on the first event kept, or on nil when nothing is kept. *)
Theorem X4_sweep_events_exact bound (ob : ObjectBucket) ev :
  ascending ob →
  sweepEvents bound ob ev =
    (filter (λ e, ¬ expired bound e) ob,
     ev + Z.of_nat (length (filter (expired bound) ob)),
     fst <$> head (filter (λ e, ¬ expired bound e) ob)).
Proof.
  revert ev. induction ob as [|e ob IH]; intros ev Hasc.
  - simpl. by rewrite Z.add_0_r.
  - pose proof (ascending_above _ _ Hasc) as Habove.
    cbn [sweepEvents]. rewrite !filter_cons.
    destruct (Z.ltb_spec (bytes_Compare e.1 bound) 0) as [He|He].
    + rewrite (decide_False (P := ¬ expired bound e)) by (intros H; apply H; exact He).
      rewrite (decide_True (P := expired bound e)) by exact He.
      rewrite IH by apply Hasc. do 2 f_equal. simpl length. lia.
    + assert (Forall (λ e', ¬ expired bound e') ob) as Hkeep.
      { eapply Forall_impl; [exact Habove|]. intros e' Hlt Hexp. unfold expired in Hexp.
        simpl in Hlt. pose proof (bytes_Compare_lt_trans _ _ _ Hlt Hexp). lia. }
      rewrite (decide_True (P := ¬ expired bound e)) by (unfold expired; lia).
      rewrite (decide_False (P := expired bound e)) by (unfold expired; lia).
      assert (filter (λ e0, ¬ expired bound e0) ob = ob) as ->.
      { clear -Hkeep. induction Hkeep as [|e' ob He' _ IH]; [done|].
        rewrite filter_cons, decide_True by done. by rewrite IH. }
      assert (filter (expired bound) ob = []) as ->.
      { clear -Hkeep. induction Hkeep as [|e' ob He' _ IH]; [done|].
        rewrite filter_cons, decide_False by done. done. }
      simpl. by rewrite Z.add_0_r.
Qed.

(** X5.  In a shard bucket with ascending keys that holds the object [k]
    followed by the objects [e1] and [e2]: with [currentObject] at [k] the
    next iteration visits [e1] when the object [k] is still in the bucket,
    and visits [e2] when the object [k] was deleted (as the sweeper deletes
    an object that it has emptied); the object [e1] is then passed over. *)
Theorem X5_sweep_skips_after_delete (t : Table) (k : bytes) (ob : ObjectBucket)
    (lo rest : ShardBucket) (e1 e2 : bytes * ObjectBucket) :
  currentObject t = Some k →
  ascending (lo ++ (k, ob) :: e1 :: e2 :: rest) →
  nextObjectKey t (lo ++ (k, ob) :: e1 :: e2 :: rest) = Some e1.1 ∧
  bucket_delete k (lo ++ (k, ob) :: e1 :: e2 :: rest) = lo ++ e1 :: e2 :: rest ∧
  nextObjectKey t (bucket_delete k (lo ++ (k, ob) :: e1 :: e2 :: rest)) = Some e2.1.
Proof.
  intros Hk Hasc. unfold nextObjectKey. rewrite Hk.
  apply ascending_app in Hasc as [Hlo [Hk1 _]]. simpl in Hk1.
  assert (∀ tl : ShardBucket, cursor_Seek k (lo ++ tl) = cursor_Seek k tl) as Hseek.
  { intros tl. clear -Hlo. induction Hlo as [|e lo He _ IH]; [done|]. simpl in *.
    destruct (Z.ltb_spec (bytes_Compare e.1 k) 0); [done|lia]. }
  assert (∀ tl : ShardBucket, bucket_delete k (lo ++ tl) = lo ++ bucket_delete k tl) as Hdel.
  { intros tl. clear -Hlo. induction Hlo as [|e lo He _ IH]; [done|]. simpl in *.
    destruct (Z.eqb_spec (bytes_Compare e.1 k) 0); [lia|]. by rewrite IH. }
  rewrite Hdel, !Hseek. simpl. rewrite bytes_Compare_refl. simpl.
  split; [done|]. split; [done|].
  pose proof (bytes_Compare_antisym k e1.1).
  destruct (Z.ltb_spec (bytes_Compare e1.1 k) 0); [lia|done].
Qed.

Section SweepBatchFacts.
Variable Stats_Sub : Stats → option Stats → Stats.
Variable bolt_tx_stats : Stats → Root → Root → bool → Stats.
Variable ShiftTimeBytes : Z → bytes.

(** On a handle that is closed a batch does nothing but report the
    statistics. *)
Lemma SweepNextBatch_closed t d sink now expiration :
  db t = Some d →
  db_opened d = false →
  ∃ t' sink',
    SweepNextBatch Stats_Sub bolt_tx_stats ShiftTimeBytes now expiration t sink =
      Ok (t', sink', (0, 0, 0)) ∧
    db t' = Some d ∧ shardCount t' = shardCount t ∧ currentShard t' = currentShard t.
Proof.
  intros Hd Hop.
  destruct (Update_closed Stats_Sub bolt_tx_stats
              (sweepTx ShiftTimeBytes now expiration) (0, 0, 0) t sink d Hd Hop)
    as (t' & HU & _ & Hd' & Hn & Hc & _).
  eexists t', _. unfold SweepNextBatch. rewrite (opened_Some _ _ Hd). cbn [negb].
  rewrite HU. done.
Qed.

(** A batch on a sweepable table returns; the buckets it commits are those
    that its loop has reached, or, when the loop deleted nothing or did
    not run, the buckets from before. *)
Lemma SweepNextBatch_rel (P : SweepState → SweepState → Prop) t d sink now expiration :
  sweepable t d →
  (∀ s, P s s) →
  (∀ s1 s2 s3, P s1 s2 → P s2 s3 → P s1 s3) →
  (∀ s s', sweepStep (ShiftTimeBytes (now - expiration)) s = Ok s' → P s (incr_swept s')) →
  ∃ t' sink' d' s',
    SweepNextBatch Stats_Sub bolt_tx_stats ShiftTimeBytes now expiration t sink =
      Ok (t', sink', (swept s', events s', objects s')) ∧
    db t' = Some d' ∧
    P {| sw_t := t; sw_tx := db_root d; sw_sink := sink;
         sw_sb := shardDBName (currentShard t);
         swept := 0; events := 0; objects := 0 |} s' ∧
    (db_root d' = sw_tx s' ∨
     db_root d' = db_root d ∧ events s' = 0 ∧ objects s' = 0).
Proof.
  intros Hsw Hrefl Htrans Hstep.
  destruct (db_opened d) eqn:Hop; cycle 1.
  { destruct (SweepNextBatch_closed t d sink now expiration (proj1 Hsw) Hop)
      as (t' & sink' & HS & Hd' & _).
    exists t', sink', d,
      {| sw_t := t; sw_tx := db_root d; sw_sink := sink;
         sw_sb := shardDBName (currentShard t);
         swept := 0; events := 0; objects := 0 |}.
    split; [exact HS|]. split; [exact Hd'|].
    split; [apply Hrefl|]. right. done. }
  destruct (object_events_bounded (db_root d)) as (m & Hm & Hle).
  destruct (SweepNextBatch_spec Stats_Sub bolt_tx_stats ShiftTimeBytes
              t d sink now expiration m Hsw Hop Hle Hm)
    as (tx' & t1 & t' & k & sw & ev & ob & stats & Htx & _ & HS & Hd' & _).
  cbn zeta in *.
  destruct (sweepTx_rel P _ _ _ _ _ _ _ _ _ _ _ _ _ Hrefl Htrans Hstep Htx)
    as (s' & HP & <- & <- & <- & <- & _).
  eexists t', _, _, s'. split; [exact HS|]. split; [exact Hd'|]. split; [exact HP|].
  cbn [bolt_Update db_root].
  destruct (Z.eqb_spec (events s') 0) as [He|He];
    [destruct (Z.eqb_spec (objects s') 0) as [Ho|Ho]|]; cbn; auto.
Qed.

(** X1.  A batch on a sweepable table never deletes an event that is not
    expired: every event stored before the call whose key is not below the
    bound is stored after it, under the same object of the same shard. *)
Theorem X1_sweep_keeps_unexpired t d sink now expiration :
  sweepable t d →
  ∃ t' sink' res d',
    SweepNextBatch Stats_Sub bolt_tx_stats ShiftTimeBytes now expiration t sink =
      Ok (t', sink', res) ∧
    db t' = Some d' ∧
    keeps_unexpired (ShiftTimeBytes (now - expiration)) (db_root d) (db_root d').
Proof.
  intros Hsw.
  destruct (SweepNextBatch_rel
              (λ s s', keeps_unexpired (ShiftTimeBytes (now - expiration))
                         (sw_tx s) (sw_tx s'))
              t d sink now expiration Hsw)
    as (t' & sink' & d' & s' & HS & Hd' & HP & Hroot).
  - by intros s ???.
  - intros s1 s2 s3 H12 H23 shard object ev Hst Hne.
    apply H23; [by apply H12|done].
  - intros s s1 Hstep. by apply sweepStep_keeps_unexpired in Hstep.
  - eexists t', sink', _, d'. split; [exact HS|]. split; [done|].
    destruct Hroot as [->|(-> & _)]; [exact HP | by intros ???].
Qed.

(** X2.  A batch on a sweepable table adds nothing: the buckets after the
    call have the names of the buckets before, and every event stored
    after the call was stored before it, under the same object of the same
    shard. *)
Theorem X2_sweep_adds_nothing t d sink now expiration :
  sweepable t d →
  ∃ t' sink' res d',
    SweepNextBatch Stats_Sub bolt_tx_stats ShiftTimeBytes now expiration t sink =
      Ok (t', sink', res) ∧
    db t' = Some d' ∧
    adds_nothing (db_root d) (db_root d').
Proof.
  intros Hsw.
  destruct (SweepNextBatch_rel (λ s s', adds_nothing (sw_tx s) (sw_tx s'))
              t d sink now expiration Hsw)
    as (t' & sink' & d' & s' & HS & Hd' & HP & Hroot).
  - by intros s.
  - intros s1 s2 s3 [Hd12 H12] [Hd23 H23]. split; [congruence|].
    intros ????. by apply H12, H23.
  - intros s s1 Hstep. by apply sweepStep_adds_nothing in Hstep.
  - eexists t', sink', _, d'. split; [exact HS|]. split; [done|].
    destruct Hroot as [->|(-> & _)]; [exact HP | by split].
Qed.

(** X3.  The counts that a batch returns are the numbers of events and of
    objects that it removed from the database: the events (objects) stored
    after the call, plus the returned [events] ([objects]), are the events
    (objects) stored before it. *)
Theorem X3_sweep_counts_deletions t d sink now expiration :
  sweepable t d →
  ∃ t' sink' sw ev ob d',
    SweepNextBatch Stats_Sub bolt_tx_stats ShiftTimeBytes now expiration t sink =
      Ok (t', sink', (sw, ev, ob)) ∧
    db t' = Some d' ∧
    total_events (db_root d') + ev = total_events (db_root d) ∧
    total_objects (db_root d') + ob = total_objects (db_root d).
Proof.
  intros Hsw.
  destruct (SweepNextBatch_rel
              (λ s s',
                 total_events (sw_tx s') + events s' = total_events (sw_tx s) + events s ∧
                 total_objects (sw_tx s') + objects s' =
                   total_objects (sw_tx s) + objects s)
              t d sink now expiration Hsw)
    as (t' & sink' & d' & s' & HS & Hd' & [He Ho] & Hroot).
  - done.
  - intros s1 s2 s3 [? ?] [? ?]. lia.
  - intros s s1 Hstep. by apply sweepStep_counts in Hstep.
  - cbn in He, Ho. eexists t', sink', _, _, _, d'. split; [exact HS|]. split; [done|].
    destruct Hroot as [->|(-> & E1 & E2)]; lia.
Qed.

(** X6.  A batch leaves a sweepable table sweepable: the table is still
    open, its shard count is what it was, its shard cursor is in range and
    every shard bucket is in place, so the next batch returns as well. *)
Theorem X6_sweep_keeps_sweepable t d sink now expiration :
  sweepable t d →
  ∃ t' sink' res d',
    SweepNextBatch Stats_Sub bolt_tx_stats ShiftTimeBytes now expiration t sink =
      Ok (t', sink', res) ∧
    shardCount t' = shardCount t ∧
    sweepable t' d'.
Proof.
  intros Hsw. pose proof Hsw as (Hd & Hpos & Hc & Hex).
  destruct (db_opened d) eqn:Hop; cycle 1.
  { destruct (SweepNextBatch_closed t d sink now expiration Hd Hop)
      as (t' & sink' & HS & Hd' & Hn & Hc').
    eexists t', sink', _, d. split; [exact HS|]. split; [done|].
    split; [exact Hd'|]. rewrite Hn, Hc'. done. }
  destruct (object_events_bounded (db_root d)) as (m & Hm & Hle).
  destruct (SweepNextBatch_spec Stats_Sub bolt_tx_stats ShiftTimeBytes
              t d sink now expiration m Hsw Hop Hle Hm)
    as (tx' & t1 & t' & k & sw & ev & ob & stats & _ & _ & HS & Hd' & _ & _ & _ & _
        & Hn & Hc' & Hex').
  eexists t', _, _, _. split; [exact HS|]. split; [done|].
  split; [exact Hd'|]. rewrite Hn. split; [done|]. split; [done|].
  cbn. by destruct (bool_decide _).
Qed.

(** X22.  The sweeper leaves no empty object behind: when no object of
    the database is without events before a batch, none is after it (an
    object whose events were all deleted is deleted with them). *)
Theorem X22_sweep_leaves_no_empty_object t d sink now expiration :
  sweepable t d →
  no_empty_object (db_root d) →
  ∃ t' sink' res d',
    SweepNextBatch Stats_Sub bolt_tx_stats ShiftTimeBytes now expiration t sink =
      Ok (t', sink', res) ∧
    db t' = Some d' ∧
    no_empty_object (db_root d').
Proof.
  intros Hsw Hne.
  destruct (SweepNextBatch_rel
              (λ s s', no_empty_object (sw_tx s) → no_empty_object (sw_tx s'))
              t d sink now expiration Hsw)
    as (t' & sink' & d' & s' & HS & Hd' & HP & Hroot).
  - done.
  - intros s1 s2 s3 H12 H23 H1. by apply H23, H12.
  - intros s s1 Hstep. exact (sweepStep_no_empty_object _ _ _ Hstep).
  - eexists t', sink', _, d'. split; [exact HS|]. split; [done|].
    destruct Hroot as [->|(-> & _)]; [by apply HP | done].
Qed.
End SweepBatchFacts.

(** ** Names of buckets and keys of factors *)

Lemma string_app_inj_l (p s1 s2 : string) : p +:+ s1 = p +:+ s2 → s1 = s2.
Proof. induction p as [|c p IH]; simpl; [done|]. intros [= H]. by apply IH. Qed.

(** X7.  Bucket names do not collide: two shards, or two factor
    properties, have the same bucket name only when they have the same
    number, and no shard bucket, factor bucket and the bucket ["meta"] share
    a name. *)
Theorem X7_bucket_names_distinct (i j : Z) :
  (shardDBName i = shardDBName j → i = j) ∧
  (factorDBName i = factorDBName j → i = j) ∧
  shardDBName i ≠ factorDBName j ∧
  shardDBName i ≠ "meta" ∧ factorDBName j ≠ "meta".
Proof.
  split_and!.
  - intros H. apply string_app_inj_l in H. by apply (inj pretty).
  - intros H. apply string_app_inj_l in H. by apply (inj pretty).
  - done.
  - done.
  - done.
Qed.

(** X8.  Inside a factor bucket the two directions of the index do not
    collide: [factorKey] and [reverseFactorKey] are injective, and no key
    of a value is the key of an index. *)
Theorem X8_factor_keys_distinct (v w : string) (i j : Z) :
  (factorKey v = factorKey w → v = w) ∧
  (reverseFactorKey i = reverseFactorKey j → i = j) ∧
  factorKey v ≠ reverseFactorKey i.
Proof.
  split_and!.
  - intros H. by apply string_app_inj_l in H.
  - intros H. apply string_app_inj_l in H. by apply (inj pretty).
  - done.
Qed.

(** ** Differences of operation statistics *)

Lemma int_wrap_range z : - 2 ^ 63 ≤ int_wrap z < 2 ^ 63.
Proof.
  unfold int_wrap, to_signed, to_unsigned.
  pose proof (Z.mod_pos_bound z (2 ^ 64) ltac:(lia)).
  destruct (Z.ltb_spec (z `mod` 2 ^ 64) (2 ^ (64 - 1))); simpl in *; lia.
Qed.

Lemma int_wrap_mod z : int_wrap z `mod` 2 ^ 64 = z `mod` 2 ^ 64.
Proof.
  unfold int_wrap, to_signed, to_unsigned.
  destruct (Z.ltb_spec (z `mod` 2 ^ 64) (2 ^ (64 - 1))).
  - by rewrite Z.mod_mod.
  - rewrite <- (Z.mul_1_l (2 ^ 64)) at 2.
    rewrite <- Zminus_mod_idemp_r, Z.mod_mul, Z.sub_0_r by lia. by rewrite Z.mod_mod.
Qed.

Lemma int_wrap_congr a b : a `mod` 2 ^ 64 = b `mod` 2 ^ 64 → int_wrap a = int_wrap b.
Proof. intros H. unfold int_wrap, to_unsigned. by rewrite H. Qed.

Lemma int_wrap_small z : - 2 ^ 63 ≤ z < 2 ^ 63 → int_wrap z = z.
Proof.
  intros Hz. unfold int_wrap, to_signed, to_unsigned.
  destruct (Z.le_gt_cases 0 z).
  - rewrite Z.mod_small by lia.
    destruct (Z.ltb_spec z (2 ^ (64 - 1))); simpl in *; lia.
  - replace (z `mod` 2 ^ 64) with (z + 2 ^ 64).
    + destruct (Z.ltb_spec (z + 2 ^ 64) (2 ^ (64 - 1))); simpl in *; lia.
    + apply (Z.mod_unique_pos _ _ (-1)); lia.
Qed.

Lemma int_wrap_sub_sub a b c :
  int_wrap (int_wrap (a - c) - int_wrap (b - c)) = int_wrap (a - b).
Proof.
  apply int_wrap_congr.
  rewrite Zminus_mod, !int_wrap_mod, <- Zminus_mod. f_equal. lia.
Qed.

Lemma int_wrap_sub_0 a b :
  - 2 ^ 63 ≤ a < 2 ^ 63 → - 2 ^ 63 ≤ b < 2 ^ 63 → int_wrap (a - b) = 0 → a = b.
Proof.
  intros Ha Hb H.
  pose proof (int_wrap_mod (a - b)) as Hm. rewrite H in Hm.
  rewrite Z.mod_0_l in Hm by lia. symmetry in Hm.
  apply Z.mod_divide in Hm as [k Hk]; lia.
Qed.

(** X9.  Differences telescope: the difference between two differences
    taken against the same snapshot is the difference of the two
    snapshots, in every field, also when a subtraction wraps around. *)
Theorem X9_Diff_telescopes (a b c : Stat) :
  Diff (Diff a c) (Diff b c) = Diff a b.
Proof.
  destruct a, b, c. unfold Diff. cbn. f_equal; apply int_wrap_sub_sub.
Qed.

(** X10.  The difference of two snapshots is the zero [Stat] exactly when
    the snapshots are equal: no field is left out of the difference. *)
Theorem X10_Diff_zero_iff_equal (a b : Stat) :
  Stat_in_range a → Stat_in_range b →
  Diff a b = Stat_zero ↔ a = b.
Proof.
  intros Ha Hb. split.
  - destruct a, b. unfold Stat_in_range, Stat_fields in Ha, Hb. cbn in Ha, Hb.
    rewrite !Forall_cons in Ha, Hb.
    unfold Diff, Stat_zero. cbn. intros [= ? ? ? ? ? ? ? ? ? ? ? ? ? ? ? ? ? ? ? ? ? ?].
    f_equal; apply int_wrap_sub_0; tauto.
  - intros <-. destruct a. unfold Diff, Stat_zero. cbn.
    rewrite !Z.sub_diag. reflexivity.
Qed.

(** ** Storage statistics *)

Lemma byte_val_inj x y : byte_val x = byte_val y → x = y.
Proof.
  unfold byte_val. intros H. apply (inj Z.of_N) in H.
  assert (Byte.of_N (Byte.to_N x) = Byte.of_N (Byte.to_N y)) as E by (by rewrite H).
  rewrite !Byte.of_to_N in E. by injection E.
Qed.

Lemma bytes_Compare_eq a b : bytes_Compare a b = 0 → a = b.
Proof.
  revert b. induction a as [|x a IH]; intros [|y b]; simpl; try done.
  destruct (Z.ltb_spec (byte_val x) (byte_val y)); [done|].
  destruct (Z.ltb_spec (byte_val y) (byte_val x)); [done|].
  intros Hc. f_equal; [apply byte_val_inj; lia | by apply IH].
Qed.

Lemma bytes_Compare_le_trans a b c :
  bytes_Compare a b ≤ 0 → bytes_Compare b c ≤ 0 → bytes_Compare a c ≤ 0.
Proof.
  intros H1 H2.
  destruct (Z.eq_dec (bytes_Compare a b) 0) as [E1|E1].
  { apply bytes_Compare_eq in E1 as ->. done. }
  destruct (Z.eq_dec (bytes_Compare b c) 0) as [E2|E2].
  { apply bytes_Compare_eq in E2 as ->. done. }
  pose proof (bytes_Compare_lt_trans a b c). lia.
Qed.

Global Instance name_le_trans : Transitive name_le.
Proof. intros x y z. unfold name_le. apply bytes_Compare_le_trans. Qed.

Global Instance name_le_total : Total name_le.
Proof.
  intros x y. unfold name_le.
  pose proof (bytes_Compare_antisym (String.list_byte_of_string x.1)
                (String.list_byte_of_string y.1)). lia.
Qed.

Lemma name_le_antisym x y : name_le x y → name_le y x → x.1 = y.1.
Proof.
  unfold name_le. intros H1 H2.
  pose proof (bytes_Compare_antisym (String.list_byte_of_string x.1)
                (String.list_byte_of_string y.1)) as Ha.
  assert (String.list_byte_of_string x.1 = String.list_byte_of_string y.1) as E
    by (apply bytes_Compare_eq; lia).
  rewrite <- (String.string_of_list_byte_of_string x.1),
          <- (String.string_of_list_byte_of_string y.1). by rewrite E.
Qed.

Lemma StronglySorted_filter {A} (R : relation A) (P : A → Prop) `{!∀ x, Decision (P x)} l :
  StronglySorted R l → StronglySorted R (filter P l).
Proof.
  induction 1 as [|x l Hl IH Hx]; [constructor|].
  rewrite filter_cons. destruct (decide (P x)); [|done].
  constructor; [done|].
  rewrite Forall_forall in Hx |- *. intros y Hy.
  apply list_elem_of_filter in Hy as [_ Hy]. by apply Hx.
Qed.

(** The iteration over the data buckets of a root is the iteration over
    the root restricted to its data buckets. *)
Lemma tx_ForEach_filter (tx : Root) :
  filter data_bucket (tx_ForEach tx) = tx_ForEach (filter data_bucket tx).
Proof.
  unfold tx_ForEach.
  apply (StronglySorted_unique_strong name_le).
  - intros x1 x2 Hx1 Hx2 H12 H21.
    apply list_elem_of_filter in Hx1 as [_ Hx1].
    rewrite merge_sort_Permutation in Hx1, Hx2.
    pose proof (name_le_antisym _ _ H12 H21) as E.
    destruct x1 as [k1 v1], x2 as [k2 v2]. simpl in E. subst k2.
    apply elem_of_map_to_list in Hx1, Hx2.
    apply map_lookup_filter_Some in Hx2 as [Hx2 _]. congruence.
  - apply StronglySorted_filter, (StronglySorted_merge_sort _).
  - apply (StronglySorted_merge_sort _).
  - rewrite !merge_sort_Permutation.
    apply NoDup_Permutation.
    + apply NoDup_filter, NoDup_map_to_list.
    + apply NoDup_map_to_list.
    + intros [k v]. rewrite list_elem_of_filter, !elem_of_map_to_list.
      rewrite map_lookup_filter_Some. tauto.
Qed.

Section StorageStatsFacts.
Variable bucket_Stats : string → ShardBucket → BucketStats.t.
Variable BucketStats_Add : BucketStats.t → BucketStats.t → BucketStats.t.
Variable db_PageSize : DB → Z.

Lemma gather_filter bs :
  gather bucket_Stats BucketStats_Add false bs =
  gather bucket_Stats BucketStats_Add true (filter data_bucket bs).
Proof.
  unfold gather. generalize BucketStats.zero.
  induction bs as [|b bs IH]; intros s0; [done|].
  rewrite filter_cons. cbn [foldl orb].
  destruct (decide (data_bucket b)) as [E|E]; unfold data_bucket in E.
  - rewrite E. cbn [foldl orb]. apply IH.
  - apply not_true_is_false in E. rewrite E. apply IH.
Qed.

(** X11.  On a table whose database handle is open and has a positive
    page size, [Stats] returns the statistics and a nil error, and
    [FreelistAlloc] is [FreelistInuse] rounded up to a multiple of the page
    size; when the freelist uses no byte, it is one whole page. *)
Theorem X11_Stats_FreelistAlloc (all : bool) (t : Table) (d : DB) :
  db t = Some d →
  db_opened d = true →
  0 < db_PageSize d →
  0 ≤ FreelistInuse (db_stats d) →
  FreelistInuse (db_stats d) + db_PageSize d < 2 ^ 63 →
  ∃ ts, Table_Stats bucket_Stats BucketStats_Add db_PageSize all t = Ok (Some ts, None) ∧
    TableStats.FreelistInuse ts = FreelistInuse (db_stats d) ∧
    (1 ≤ FreelistInuse (db_stats d) →
     (db_PageSize d | TableStats.FreelistAlloc ts) ∧
     FreelistInuse (db_stats d) ≤ TableStats.FreelistAlloc ts
       < FreelistInuse (db_stats d) + db_PageSize d) ∧
    (FreelistInuse (db_stats d) = 0 → 1 < db_PageSize d →
     TableStats.FreelistAlloc ts = db_PageSize d).
Proof.
  intros Hd Hop Hp Hu Hsum. unfold Table_Stats. rewrite Hd, Hop. cbn [negb].
  destruct (Z.eqb_spec (db_PageSize d) 0) as [|_]; [lia|].
  eexists. split; [reflexivity|]. cbn.
  set (u := FreelistInuse (db_stats d)) in *. set (p := db_PageSize d) in *.
  split; [done|].
  rewrite (int_wrap_small (u - 1)) by lia.
  split.
  - intros Hu1.
    rewrite Z.quot_div_nonneg by lia.
    pose proof (Z.div_mod (u - 1) p ltac:(lia)) as Hdm.
    pose proof (Z.mod_pos_bound (u - 1) p Hp) as Hmod.
    assert (0 ≤ (u - 1) / p) by (apply Z.div_pos; lia).
    assert ((u - 1) / p * p ≤ u - 1) by lia.
    rewrite (int_wrap_small ((u - 1) / p + 1)) by nia.
    rewrite int_wrap_small by nia.
    split; [by apply Z.divide_factor_r | nia].
  - intros Hu0 Hp1. rewrite Hu0.
    change (0 - 1) with (- (1)). rewrite Z.quot_opp_l, Z.quot_small by lia.
    rewrite (int_wrap_small (- 0 + 1)) by lia.
    rewrite int_wrap_small by lia. lia.
Qed.

(** X12.  [Stats(false)] accounts for the data buckets only: two tables
    whose database handles are both open or both closed, with the same
    counters and page size and the same buckets under the names that begin
    with ["shard"], get the same result, whatever their other buckets
    hold.  Every shard bucket has such a name; the factor buckets and the
    bucket ["meta"] have not. *)
Theorem X12_Stats_data_buckets_only (t1 t2 : Table) (d1 d2 : DB) :
  db t1 = Some d1 → db t2 = Some d2 →
  db_opened d1 = db_opened d2 →
  db_stats d1 = db_stats d2 → db_PageSize d1 = db_PageSize d2 →
  filter data_bucket (db_root d1) = filter data_bucket (db_root d2) →
  Table_Stats bucket_Stats BucketStats_Add db_PageSize false t1 =
    Table_Stats bucket_Stats BucketStats_Add db_PageSize false t2 ∧
  (∀ i b, data_bucket (shardDBName i, b)) ∧
  (∀ j b, ¬ data_bucket (factorDBName j, b)) ∧
  (∀ b, ¬ data_bucket ("meta"%string, b)).
Proof.
  intros H1 H2 Ho Hs Hp Hf. split; [|done].
  unfold Table_Stats. rewrite H1, H2, Ho, Hs, Hp.
  by rewrite !gather_filter, !tx_ForEach_filter, Hf.
Qed.
End StorageStatsFacts.

(** ** Reading the schema *)

Lemma foldl_index_Some `{Countable K} {V : Type} (f : V → K) (l : list V)
    (m0 : gmap K V) k p :
  foldl (λ m p, <[f p := p]> m) m0 l !! k = Some p →
  (p ∈ l ∧ f p = k) ∨ m0 !! k = Some p.
Proof.
  revert m0. induction l as [|x l IH]; intros m0 Hlk; [by right|].
  simpl in Hlk. apply IH in Hlk as [[Hin Hf]|Hlk].
  - left. split; [by right|done].
  - destruct (decide (f x = k)) as [<-|Hne].
    + rewrite lookup_insert_eq in Hlk. injection Hlk as ->. left. split; [by left|done].
    + rewrite lookup_insert_ne in Hlk by done. by right.
Qed.

(** X13.  When the decoded document holds properties (no nil pointer)
    with pairwise distinct names and pairwise distinct ids, [unmarshal]
    leaves the two indexes of the table as one schema: each holds exactly
    the properties of the document, under their names and under their ids,
    whatever the table held before. *)
Theorem X13_unmarshal_builds_schema (doc : json) (msg : tableRawMessage)
    (ps : list Property) (t0 : Table) :
  json_Unmarshal doc = Some msg →
  msg_Properties msg = Some <$> ps →
  NoDup (Name <$> ps) →
  NoDup (ID <$> ps) →
  ∃ t', unmarshal doc t0 = Ok (inl t') ∧
    schema_indexed t' ∧
    (∀ p, p ∈ ps ↔ properties t' !! Name p = Some p) ∧
    (∀ p, p ∈ ps ↔ propertiesByID t' !! ID p = Some p).
Proof.
  intros Hdoc Hps Hnames Hids. unfold unmarshal. rewrite Hdoc, Hps.
  assert (mapM id (Some <$> ps) = Some ps) as ->.
  { clear. induction ps as [|p ps IH]; [done|].
    rewrite fmap_cons. cbn [mapM]. cbn. rewrite IH. done. }
  eexists. split; [reflexivity|]. unfold schema_indexed. cbn.
  assert (∀ k p, foldl (λ m p, <[Name p := p]> m) (∅ : gmap string Property) ps !! k = Some p
                 → p ∈ ps ∧ Name p = k) as Hn.
  { intros k p Hlk. by apply foldl_index_Some in Hlk as [?|Hlk]. }
  assert (∀ i p, foldl (λ m p, <[ID p := p]> m) (∅ : gmap Z Property) ps !! i = Some p
                 → p ∈ ps ∧ ID p = i) as Hi.
  { intros i p Hlk. by apply foldl_index_Some in Hlk as [?|Hlk]. }
  split_and!.
  - intros k p Hlk. by apply Hn in Hlk as [_ ?].
  - intros i p Hlk. apply Hi in Hlk as [Hin ?]. split; [done|].
    by apply (foldl_index_in Name).
  - intros k p Hlk. apply Hn in Hlk as [Hin _]. cbn. by apply (foldl_index_in ID).
  - intros p. split; [by apply (foldl_index_in Name)|]. intros Hlk. by apply Hn in Hlk as [? _].
  - intros p. split; [by apply (foldl_index_in ID)|]. intros Hlk. by apply Hi in Hlk as [? _].
Qed.

(** X14.  The tag list is computed once: after a first call of [ddTags],
    a call on the table that [unmarshal] has filled from a document returns
    the same tags and changes nothing, also when the document gave the table
    another name. *)
Theorem X14_ddTags_not_refreshed (t t1 t2 : Table) (tags : list string) (doc : json) :
  ddTags t = (tags, t1) →
  unmarshal doc t1 = Ok (inl t2) →
  ddTags t2 = (tags, t2) ∧
  (ddTagsCache t = None → tags = ["table:" +:+ name t]).
Proof.
  intros Htags Hun. split.
  - destruct (ddTags_spec t) as (t1' & E & _ & Hc & _).
    rewrite Htags in E. injection E as -> <-.
    unfold unmarshal in Hun. destruct (json_Unmarshal doc); [|done].
    destruct (mapM id _); [|done].
    injection Hun as <-. unfold ddTags. cbn. by rewrite Hc.
  - intros Hnone. unfold ddTags in Htags. rewrite Hnone in Htags. by injection Htags as <- _.
Qed.

(** ** The transaction wrapper, opening and closing *)

Section LifecycleFacts.
Variable Stats_Sub : Stats → option Stats → Stats.
Variable bolt_tx_stats : Stats → Root → Root → bool → Stats.
Variable bolt_Open : string → Z → bolt_Options → DB + error.
Variable initSchema : TxFn unit.
Variable bolt_DB_Close : DB → DB.

Local Abbreviation open' := (open Stats_Sub bolt_tx_stats bolt_Open initSchema).

(** X15.  When the store opens and the closure that initialises the schema
    returns an error, [open] returns that error after the transaction was
    rolled back, and yet leaves [t.db] set: the table counts as opened, and
    a second [open] returns nil at once, without initialising the schema. *)
Theorem X15_open_failed_schema_stays_open (t : Table) (sink : list Metric) (d : DB)
    (tx : Root) (t1 : Table) (sink1 : list Metric) (e : error) :
  db t = None →
  bolt_Open (path t) mode_0600 {| Timeout := 1 * time_Second |} = inl d →
  (let d0 := {| db_root := db_root d; db_stats := db_stats d;
                FillPercent := (9, 10); db_StrictMode := StrictMode t;
                db_opened := true |} in
   initSchema (db_root d) (set_boltStats (Some (db_stats d)) (set_db (Some d0) t)) sink =
     Ok (tx, t1, sink1, (), Some e)) →
  ∃ t' sink' d',
    open' t sink = Ok (t', sink', Some e) ∧
    db t' = Some d' ∧ db_root d' = db_root d ∧
    opened t' = true ∧
    open' t' sink' = Ok (t', sink', None).
Proof.
  intros Hd Ho Hinit. cbn zeta in Hinit. unfold open at 1.
  rewrite bool_decide_eq_false_2 by (rewrite Hd; intros H; by apply H).
  rewrite Ho.
  set (d0 := {| db_root := db_root d; db_stats := db_stats d;
                FillPercent := (9, 10); db_StrictMode := StrictMode t;
                db_opened := true |}) in *.
  destruct (Update_spec Stats_Sub bolt_tx_stats initSchema ()
              (set_boltStats (Some (db_stats d)) (set_db (Some d0) t)) sink d0
              tx t1 sink1 () (Some e) eq_refl eq_refl Hinit) as (t2 & HU & _ & Hd2 & _).
  change (db_stats d0) with (db_stats d). rewrite HU. cbn [mbind Res_bind].
  eexists t2, _, _. split; [reflexivity|]. split; [exact Hd2|].
  split; [reflexivity|]. split; [by eapply opened_Some|].
  unfold open. rewrite bool_decide_eq_true_2; [done|]. by rewrite Hd2.
Qed.

(** X16.  [close] closes the database and leaves [t.db] pointing to it: a
    table that was opened still counts as opened after [close], and [open]
    then returns nil at once, without opening the database again. *)
Theorem X16_close_keeps_handle (t : Table) (sink : list Metric) :
  opened t = true →
  opened (close bolt_DB_Close t) = true ∧
  open' (close bolt_DB_Close t) sink = Ok (close bolt_DB_Close t, sink, None).
Proof.
  unfold opened, close, open. intros Ho%bool_decide_eq_true.
  destruct (db t) as [d|] eqn:Hd; [|done]. cbn. done.
Qed.

(** X17.  In every report of [ddEmitStats] the gauge
    ["bolt.pages.freelist.inuse"] is sent once, and carries the value of
    [FreeAlloc], the value of the gauge ["bolt.pages.free.alloc"]: the
    value of [FreelistInuse] is in no metric of that name. *)
Theorem X17_freelist_gauge_reports_FreeAlloc (t : Table) (sink : list Metric) (d : DB) :
  db t = Some d →
  ∃ t' new,
    ddEmitStats Stats_Sub t sink = Ok (t', sink ++ new) ∧
    let v := FreeAlloc (Stats_Sub (db_stats d) (boltStats t)) in
    emitted "bolt.pages.freelist.inuse" new =
      [Gauge "bolt.pages.freelist.inuse" v (tags_of t)] ∧
    emitted "bolt.pages.free.alloc" new =
      [Gauge "bolt.pages.free.alloc" v (tags_of t)].
Proof.
  intros Hd. destruct (ddEmitStats_spec Stats_Sub t sink d Hd) as (t' & -> & _).
  eexists t', _. split; [reflexivity|]. done.
Qed.

(** X18.  Reports are differences of consecutive snapshots: an [Update]
    on an open handle leaves the counters of the database as the snapshot
    of the table, and the report of the next [Update] has 21 metrics, among
    them the count of transactions, the count of writes and the free
    pages of the difference between the counters after its transaction and
    that snapshot, whatever the closures do with the buckets. *)
Theorem X18_updates_report_deltas {A B} (fn1 : TxFn A) (fn2 : TxFn B) (a0 : A) (b0 : B)
    (t t1 : Table) (sink sink1 : list Metric) (d : DB) (tx1 : Root) (a : A)
    (e1 : option error) :
  db t = Some d →
  db_opened d = true →
  fn1 (db_root d) t sink = Ok (tx1, t1, sink1, a, e1) →
  let d1 := bolt_Update bolt_tx_stats d (bool_decide (e1 = None)) tx1 in
  ∃ t2 s2,
    Update Stats_Sub bolt_tx_stats fn1 a0 t sink = Ok (t2, s2, a, e1) ∧
    db t2 = Some d1 ∧ boltStats t2 = Some (db_stats d1) ∧
    ∀ tx2 t3 s3 b e2,
      fn2 (db_root d1) t2 s2 = Ok (tx2, t3, s3, b, e2) →
      boltStats t3 = boltStats t2 →
      let d2 := bolt_Update bolt_tx_stats d1 (bool_decide (e2 = None)) tx2 in
      let delta := Stats_Sub (db_stats d2) (Some (db_stats d1)) in
      ∃ t4 report,
        Update Stats_Sub bolt_tx_stats fn2 b0 t2 s2 = Ok (t4, s3 ++ report, b, e2) ∧
        length report = 21%nat ∧
        emitted "bolt.txn.total" report =
          [Count "bolt.txn.total" (TxN delta) (tags_of t3)] ∧
        emitted "bolt.txn.write.count" report =
          [Count "bolt.txn.write.count" (Write (TxStats_ delta)) (tags_of t3)] ∧
        emitted "bolt.pages.free" report =
          [Gauge "bolt.pages.free" (FreePageN delta) (tags_of t3)] ∧
        db t4 = Some d2 ∧ boltStats t4 = Some (db_stats d2).
Proof.
  intros Hd Hop Hfn1 d1.
  destruct (Update_spec Stats_Sub bolt_tx_stats fn1 a0 _ _ _ _ _ _ _ _ Hd Hop Hfn1)
    as (t2 & HU1 & Hbs & Hd2 & _).
  eexists t2, _. split; [exact HU1|]. split; [exact Hd2|]. split; [exact Hbs|].
  intros tx2 t3 s3 b e2 Hfn2 Hkeep d2 delta.
  destruct (Update_spec Stats_Sub bolt_tx_stats fn2 b0 _ _ _ _ _ _ _ _ Hd2 Hop Hfn2)
    as (t4 & HU2 & Hbs4 & Hd4 & _).
  eexists t4, _. split; [exact HU2|]. rewrite Hkeep, Hbs. done.
Qed.

End LifecycleFacts.

(** ** Sharding *)

(** X19.  On a table with a positive shard count whose shard buckets are
    in place, and with a hash of 32 unsigned bits, the shard of every
    object id has its bucket. *)
Theorem X19_shard_bucket_exists (hash_Local : string → Z) (t : Table) (tx : Root)
    (id : string) :
  (∀ s, 0 ≤ hash_Local s < 2 ^ 32) →
  0 < shardCount t →
  shards_exist (shardCount t) tx →
  ∃ i sb, shardIndex hash_Local t id = Ok i ∧ tx !! shardDBName i = Some sb.
Proof.
  intros Hh Hpos Hex. unfold shardIndex.
  destruct (Z.eqb_spec (shardCount t) 0); [lia|].
  rewrite int_of_unsigned_small by (specialize (Hh id); lia).
  assert (0 ≤ Z.rem (hash_Local id) (shardCount t) < shardCount t) as Hi
    by (apply Z.rem_bound_pos; [apply Hh | done]).
  destruct (shards_exist_lookup _ _ _ Hex Hi) as [sb Hsb]. eauto.
Qed.

(** ** Decoding of event records *)

Section EventDecodingFacts.
Variable float64_of_float32 : Z → Z.

(** X21.  [unmarshal] reads the timestamp and one map and ignores what
    follows: any bytes after a marshalled event do not change the result. *)
Theorem X21_unmarshal_ignores_trailing_bytes (e : rawEvent) (b junk : bytes) :
  valid_event e →
  rawEvent_marshal e b →
  rawEvent_unmarshal float64_of_float32 (b ++ junk) =
    rawEvent_unmarshal float64_of_float32 b.
Proof.
  intros (Hts & Hsz & Hdata) (l & Hl & ->).
  assert (length l = size (data e)) as Hlen.
  { rewrite Hl. by rewrite length_map_to_list. }
  assert (Forall (λ kv, - 2 ^ 63 ≤ kv.1 < 2 ^ 63 ∧ valid_value kv.2) l) as Hall.
  { rewrite Hl. apply Forall_forall. intros [k v] Hin%elem_of_map_to_list.
    exact (Hdata _ _ Hin). }
  assert (∀ r, rawEvent_unmarshal float64_of_float32 (rawEvent_marshal_in_order l e ++ r) =
               Ok (inl (normalize float64_of_float32
                          {| timestamp := to_signed 64 (be_decode (be_encode 8 (timestamp e)));
                             data := foldl (λ m kv, <[kv.1 := naked float64_of_float32 kv.2]> m)
                                       ∅ l |}))) as Hany.
  { intros r. unfold rawEvent_unmarshal, rawEvent_marshal_in_order, encode_map.
    rewrite <- !app_assoc.
    change 8 with (Z.of_nat 8). rewrite read_be.
    unfold decode_map. rewrite decode_mapLen_encode by lia.
    cbn [mbind option_bind]. rewrite Nat2Z.id.
    rewrite decode_entries_encode by done. done. }
  rewrite Hany. rewrite <- (app_nil_r (rawEvent_marshal_in_order l e)). by rewrite Hany.
Qed.

End EventDecodingFacts.

(** * Examples: the theorems at concrete inputs *)

Lemma C1_witness :
  ∃ t' sink' sw ev ob,
    SweepNextBatch Stats_sub count_tx ShiftTimeBytes_spec 2500 0
      (open_table 2 sample_root) [] = Ok (t', sink', (sw, ev, ob)) ∧
    0 ≤ sw ≤ SweepBatchSize ∧
    (sw = SweepBatchSize ∨ SweepBatchSize ≤ ev) ∧
    0 ≤ ev ≤ SweepBatchSize - 1 + 5.
Proof.
  apply (C1_sweep_batch_bound Stats_sub count_tx ShiftTimeBytes_spec
           (open_table 2 sample_root) (store sample_root) [] 2500 0 5).
  - unfold sweepable. split_and!; try done.
    apply (bool_decide_unpack _). by vm_compute.
  - reflexivity.
  - apply (bool_decide_unpack _). by vm_compute.
  - lia.
Defined.

(** One object with 1001 expired events: the batch deletes all of them. *)
Lemma C1_counterexample :
  counts_of (SweepNextBatch Stats_sub count_tx ShiftTimeBytes_spec 5000000 0
               (open_table 1 big_root) []) = Some (1, 1001, 1) ∧
  SweepBatchSize < 1001.
Proof. split; [by vm_compute | done]. Qed.

Lemma C2_witness :
  Some NoDeletes = Some NoDeletes ∧
  ∃ t' sink',
    Update Stats_sub count_tx (sweepTx ShiftTimeBytes_spec 0 0) (0, 0, 0)
      (open_table 2 empty_root) [] = Ok (t', sink', (1000, 0, 0), Some NoDeletes) ∧
    db t' = Some (bolt_Update count_tx (store empty_root) false empty_root) ∧
    db_root <$> db t' = Some (db_root (store empty_root)) ∧
    SweepNextBatch Stats_sub count_tx ShiftTimeBytes_spec 0 0
      (open_table 2 empty_root) [] = Ok (t', sink', (1000, 0, 0)).
Proof.
  eapply (C2_no_deletes_rolls_back Stats_sub count_tx ShiftTimeBytes_spec
            (open_table 2 empty_root) (store empty_root) [] 0 0 empty_root _ _ 1000
            (Some NoDeletes)).
  - reflexivity.
  - reflexivity.
  - vm_compute. reflexivity.
Defined.

Lemma C3_witness :
  ∃ tx' t' k sw ev ob err stats,
    let tg := tags_of (open_table 2 sample_root) in
    Update Stats_sub count_tx (sweepTx ShiftTimeBytes_spec 2500 0) (0, 0, 0)
      (open_table 2 sample_root) [] =
      Ok (t',
          ([] ++ rollovers k tg
              ++ [Count "expiration.sweep" 1 tg]
              ++ (if 0 <? ev then [Count "expiration.events" ev tg] else [])
              ++ (if 0 <? ob then [Count "expiration.objects" ob tg] else []))
            ++ statMetrics stats tg,
          (sw, ev, ob), err) ∧
    db t' = Some (bolt_Update count_tx (store sample_root) (bool_decide (err = None)) tx') ∧
    (err = Some NoDeletes ∧ ev = 0 ∧ ob = 0 ∨
     err = None ∧ 0 ≤ ev ∧ 0 ≤ ob ∧ (0 < ev ∨ 0 < ob)).
Proof.
  apply (C3_sweep_counters Stats_sub count_tx ShiftTimeBytes_spec
           (open_table 2 sample_root) (store sample_root) [] 2500 0).
  - unfold sweepable. split_and!; try done.
    apply (bool_decide_unpack _). by vm_compute.
  - reflexivity.
Defined.

(** A batch over empty shards aborts with [NoDeletes], leaves the buckets
    as they were, and has emitted [expiration.sweep]. *)
Lemma C3_counterexample :
  match Update Stats_sub count_tx (sweepTx ShiftTimeBytes_spec 0 0) (0, 0, 0)
          (open_table 2 empty_root) [] with
  | Ok (t', sink', _, err) =>
      err = Some NoDeletes ∧
      db_root <$> db t' = Some empty_root ∧
      emitted "expiration.sweep" sink' = [Count "expiration.sweep" 1 ["table:t"]]
  | _ => False
  end.
Proof. vm_compute. done. Qed.

Lemma C4_witness :
  (∀ bound s sb m tg,
     sweep_inv (shardCount (open_table 2 empty_root)) m tg s →
     sw_tx s !! sw_sb s = Some sb →
     nextObjectKey (sw_t s) sb = None →
     ∃ s', sweepStep bound s = Ok s' ∧
       currentShard (sw_t s') =
         (currentShard (sw_t s) + 1) `mod` shardCount (open_table 2 empty_root) ∧
       currentObject (sw_t s') = None ∧
       sw_sink s' = sw_sink s ++ [Count "expiration.rollover" 1 tg] ∧
       swept (incr_swept s') = swept s + 1 ∧
       events s' = events s ∧ objects s' = objects s ∧ sw_tx s' = sw_tx s) ∧
  (∃ t' sink' res,
     SweepNextBatch Stats_sub count_tx ShiftTimeBytes_spec 0 0
       (open_table 2 empty_root) [] = Ok (t', sink', res) ∧
     shardCount t' = shardCount (open_table 2 empty_root) ∧
     0 ≤ currentShard t' < shardCount (open_table 2 empty_root) ∧
     (all_empty (shardCount (open_table 2 empty_root)) (db_root (store empty_root)) →
      res = (SweepBatchSize, 0, 0) ∧
      emitted "expiration.rollover" sink' =
        emitted "expiration.rollover" []
          ++ rollovers (Z.to_nat SweepBatchSize) (tags_of (open_table 2 empty_root)) ∧
      currentShard t' =
        (currentShard (open_table 2 empty_root) + SweepBatchSize)
          `mod` shardCount (open_table 2 empty_root))).
Proof.
  apply (C4_rollover Stats_sub count_tx ShiftTimeBytes_spec
           (open_table 2 empty_root) (store empty_root) [] 0 0).
  - unfold sweepable. split_and!; try done.
    apply (bool_decide_unpack _). by vm_compute.
  - reflexivity.
Defined.

Lemma C5_witness :
  ∃ e',
    rawEvent_unmarshal float64_of_float32_bits
      (rawEvent_marshal_in_order (map_to_list (data sample_event)) sample_event) =
      Ok (inl e') ∧
    e' = normalize float64_of_float32_bits sample_event ∧
    timestamp e' = timestamp sample_event ∧
    ∀ k, data e' !! k =
           (λ v, match v with
                 | VInt _ i => VInt Kint64 i
                 | VUint _ u => VInt Kint64 (to_signed 64 u)
                 | VFloat32 x => VFloat64 (float64_of_float32_bits x)
                 | VNil => VNil
                 | VBool x => VBool x
                 | VFloat64 x => VFloat64 x
                 | VString s => VString s
                 | VBytes s => VBytes s
                 end) <$> data sample_event !! k.
Proof.
  apply (C5_event_round_trip float64_of_float32_bits sample_event).
  - apply (bool_decide_unpack _). by vm_compute.
  - exists (map_to_list (data sample_event)). split; reflexivity.
Defined.

Lemma C6_witness :
  ∃ t', unmarshal (marshal_in_order [action; price] sample_schema) (NewTable "" "") =
          Ok (inl t') ∧
    name t' = name sample_schema ∧ shardCount t' = shardCount sample_schema ∧
    maxPermanentID t' = maxPermanentID sample_schema ∧
    maxTransientID t' = maxTransientID sample_schema ∧
    properties t' = properties sample_schema ∧
    propertiesByID t' = propertiesByID sample_schema.
Proof.
  apply (C6_meta_round_trip sample_schema (NewTable "" "")).
  - apply (bool_decide_unpack _). by vm_compute.
  - apply (bool_decide_unpack _). by vm_compute.
  - exists [action; price]. split; [|reflexivity].
    apply (bool_decide_unpack _). by vm_compute.
Defined.

(** A table named by the byte 0xff: the document that [marshal] returns
    holds U+FFFD in its place, and [unmarshal] gives that name to the
    table. *)
Lemma C6_counterexample :
  schema_indexed misnamed ∧
  marshal misnamed (marshal_in_order [] misnamed) ∧
  ∃ t', unmarshal (marshal_in_order [] misnamed) (NewTable "" "") = Ok (inl t') ∧
    name t' = String.string_of_list_byte [xef; xbf; xbd] ∧
    name t' ≠ name misnamed.
Proof.
  split; [apply (bool_decide_unpack _); by vm_compute|].
  split; [exists []; split; [done | reflexivity]|].
  eexists. split; [vm_compute; reflexivity|]. split; [reflexivity | done].
Qed.

Lemma C7_witness :
  shardIndex fnv32a sample_schema "u1" = shardIndex fnv32a (open_table 4 empty_root) "u1" ∧
  (0 < shardCount sample_schema →
   ∃ i, shardIndex fnv32a sample_schema "u1" = Ok i ∧ 0 ≤ i < shardCount sample_schema).
Proof.
  apply (C7_shard_index_stable fnv32a sample_schema (open_table 4 empty_root) "u1").
  - exact fnv32a_range.
  - reflexivity.
Defined.

(** An [Update] on an open handle, and one on the same table after
    [close]. *)
Lemma C8_witness :
  (∃ t2,
     Update Stats_sub count_tx initSchema_nop () (open_table 2 empty_root) [] =
       Ok (t2,
           [] ++ statMetrics
                   (Stats_sub (count_tx Stats_zero empty_root empty_root true)
                      (boltStats (open_table 2 empty_root)))
                   (tags_of (open_table 2 empty_root)),
           (), None) ∧
     boltStats t2 = Some (count_tx Stats_zero empty_root empty_root true) ∧
     db_stats <$> db t2 = Some (count_tx Stats_zero empty_root empty_root true) ∧
     db_root <$> db t2 = Some empty_root) ∧
  (∃ t2,
     Update Stats_sub count_tx initSchema_nop ()
       (close Close_handle (open_table 2 empty_root)) [] =
       Ok (t2,
           [] ++ statMetrics (Stats_sub Stats_zero (Some Stats_zero)) ["table:t"],
           (), Some bolt_ErrDatabaseNotOpen) ∧
     boltStats t2 = Some Stats_zero ∧
     db t2 = Some (Close_handle (store empty_root))).
Proof.
  split.
  - apply (C8_update_emits_stats Stats_sub count_tx initSchema_nop ()
             (open_table 2 empty_root) [] (store empty_root) empty_root
             (open_table 2 empty_root) [] () None eq_refl).
    + reflexivity.
    + reflexivity.
  - apply (C8_update_emits_stats Stats_sub count_tx initSchema_nop ()
             (close Close_handle (open_table 2 empty_root)) []
             (Close_handle (store empty_root)) empty_root
             (open_table 2 empty_root) [] () None eq_refl).
    reflexivity.
Defined.

Lemma C9_witness :
  open Stats_sub count_tx bolt_Open_locked initSchema_nop (NewTable "t" "/tmp/t") [] =
    Ok (NewTable "t" "/tmp/t", [], Some (Errorf "table open: timeout")) ∧
  1 * time_Second = 1000000000 ∧
  Errorf "table open: timeout" ≠ TableBusy.
Proof.
  apply (C9_open_timeout Stats_sub count_tx bolt_Open_locked initSchema_nop
           (NewTable "t" "/tmp/t") []).
  - reflexivity.
  - reflexivity.
Defined.

(** The store times out: the error of [open] is not [TableBusy]. *)
Lemma C9_counterexample :
  match open Stats_sub count_tx bolt_Open_locked initSchema_nop (NewTable "t" "/tmp/t") [] with
  | Ok (_, _, Some e) => e = Errorf "table open: timeout" ∧ e ≠ TableBusy
  | _ => False
  end.
Proof. vm_compute. done. Qed.

Lemma C10_witness :
  SweepNextBatch Stats_sub count_tx ShiftTimeBytes_spec 0 0 (NewTable "t" "/tmp/t") [] =
    Ok (NewTable "t" "/tmp/t", [], (0, 0, 0)).
Proof.
  apply (C10_sweep_closed_table Stats_sub count_tx ShiftTimeBytes_spec
           (NewTable "t" "/tmp/t") [] 0 0).
  reflexivity.
Defined.

(** ** Further examples *)

(** ** The sweeper on the sample database *)

Lemma X1_witness :
  ∃ t' sink' res d',
    SweepNextBatch Stats_sub count_tx ShiftTimeBytes_spec 2500 0
      (open_table 2 sample_root) [] = Ok (t', sink', res) ∧
    db t' = Some d' ∧
    keeps_unexpired (ShiftTimeBytes_spec (2500 - 0))
      (db_root (store sample_root)) (db_root d').
Proof.
  apply (X1_sweep_keeps_unexpired Stats_sub count_tx ShiftTimeBytes_spec
           (open_table 2 sample_root) (store sample_root) [] 2500 0).
  unfold sweepable. split_and!; try done.
  apply (bool_decide_unpack _). by vm_compute.
Defined.

Lemma X2_witness :
  ∃ t' sink' res d',
    SweepNextBatch Stats_sub count_tx ShiftTimeBytes_spec 2500 0
      (open_table 2 sample_root) [] = Ok (t', sink', res) ∧
    db t' = Some d' ∧
    adds_nothing (db_root (store sample_root)) (db_root d').
Proof.
  apply (X2_sweep_adds_nothing Stats_sub count_tx ShiftTimeBytes_spec
           (open_table 2 sample_root) (store sample_root) [] 2500 0).
  unfold sweepable. split_and!; try done.
  apply (bool_decide_unpack _). by vm_compute.
Defined.

Lemma X3_witness :
  ∃ t' sink' sw ev ob d',
    SweepNextBatch Stats_sub count_tx ShiftTimeBytes_spec 2500 0
      (open_table 2 sample_root) [] = Ok (t', sink', (sw, ev, ob)) ∧
    db t' = Some d' ∧
    total_events (db_root d') + ev = total_events (db_root (store sample_root)) ∧
    total_objects (db_root d') + ob = total_objects (db_root (store sample_root)).
Proof.
  apply (X3_sweep_counts_deletions Stats_sub count_tx ShiftTimeBytes_spec
           (open_table 2 sample_root) (store sample_root) [] 2500 0).
  unfold sweepable. split_and!; try done.
  apply (bool_decide_unpack _). by vm_compute.
Defined.

Lemma X4_witness :
  sweepEvents (ShiftTimeBytes_spec 2500) (events_upto 5) 0 =
    (filter (λ e, ¬ expired (ShiftTimeBytes_spec 2500) e) (events_upto 5),
     0 + Z.of_nat (length (filter (expired (ShiftTimeBytes_spec 2500)) (events_upto 5))),
     fst <$> head (filter (λ e, ¬ expired (ShiftTimeBytes_spec 2500) e) (events_upto 5))).
Proof.
  apply (X4_sweep_events_exact (ShiftTimeBytes_spec 2500) (events_upto 5) 0).
  apply (bool_decide_unpack _). by vm_compute.
Defined.

Lemma X5_witness :
  let t := set_sweep 0 (Some [x61]) (open_table 1 ∅) in
  let sb : ShardBucket :=
    [] ++ ([x61], events_upto 1) :: ([x62], events_upto 2) :: ([x63], events_upto 3) :: [] in
  nextObjectKey t sb = Some [x62] ∧
  bucket_delete [x61] sb = [] ++ [([x62], events_upto 2); ([x63], events_upto 3)] ∧
  nextObjectKey t (bucket_delete [x61] sb) = Some [x63].
Proof.
  apply (X5_sweep_skips_after_delete (set_sweep 0 (Some [x61]) (open_table 1 ∅))
           [x61] (events_upto 1) [] [] ([x62], events_upto 2) ([x63], events_upto 3)).
  - reflexivity.
  - apply (bool_decide_unpack _). by vm_compute.
Defined.

Lemma X6_witness :
  ∃ t' sink' res d',
    SweepNextBatch Stats_sub count_tx ShiftTimeBytes_spec 2500 0
      (open_table 2 sample_root) [] = Ok (t', sink', res) ∧
    shardCount t' = shardCount (open_table 2 sample_root) ∧
    sweepable t' d'.
Proof.
  apply (X6_sweep_keeps_sweepable Stats_sub count_tx ShiftTimeBytes_spec
           (open_table 2 sample_root) (store sample_root) [] 2500 0).
  unfold sweepable. split_and!; try done.
  apply (bool_decide_unpack _). by vm_compute.
Defined.

Lemma X22_witness :
  ∃ t' sink' res d',
    SweepNextBatch Stats_sub count_tx ShiftTimeBytes_spec 2500 0
      (open_table 2 sample_root) [] = Ok (t', sink', res) ∧
    db t' = Some d' ∧
    no_empty_object (db_root d').
Proof.
  apply (X22_sweep_leaves_no_empty_object Stats_sub count_tx ShiftTimeBytes_spec
           (open_table 2 sample_root) (store sample_root) [] 2500 0).
  - unfold sweepable. split_and!; try done.
    apply (bool_decide_unpack _). by vm_compute.
  - apply (bool_decide_unpack _). by vm_compute.
Defined.

(** ** Statistics *)

Lemma X10_witness : Diff sample_stat Stat_zero = Stat_zero ↔ sample_stat = Stat_zero.
Proof.
  apply (X10_Diff_zero_iff_equal sample_stat Stat_zero).
  - apply (bool_decide_unpack _). by vm_compute.
  - apply (bool_decide_unpack _). by vm_compute.
Defined.

Lemma X11_witness :
  let t := set_db (Some (stats_db sample_root)) (open_table 2 sample_root) in
  ∃ ts, Table_Stats count_keys add_fields page_4096 true t = Ok (Some ts, None) ∧
    TableStats.FreelistInuse ts = FreelistInuse (db_stats (stats_db sample_root)) ∧
    (1 ≤ FreelistInuse (db_stats (stats_db sample_root)) →
     (page_4096 (stats_db sample_root) | TableStats.FreelistAlloc ts) ∧
     FreelistInuse (db_stats (stats_db sample_root)) ≤ TableStats.FreelistAlloc ts
       < FreelistInuse (db_stats (stats_db sample_root)) + page_4096 (stats_db sample_root)) ∧
    (FreelistInuse (db_stats (stats_db sample_root)) = 0 →
     1 < page_4096 (stats_db sample_root) →
     TableStats.FreelistAlloc ts = page_4096 (stats_db sample_root)).
Proof.
  apply (X11_Stats_FreelistAlloc count_keys add_fields page_4096 true
           (set_db (Some (stats_db sample_root)) (open_table 2 sample_root))
           (stats_db sample_root)).
  - reflexivity.
  - reflexivity.
  - reflexivity.
  - by vm_compute.
  - reflexivity.
Defined.

Lemma X12_witness :
  Table_Stats count_keys add_fields page_4096 false
    (set_db (Some (stats_db mixed_root)) (open_table 2 sample_root)) =
  Table_Stats count_keys add_fields page_4096 false
    (set_db (Some (stats_db sample_root)) (open_table 2 sample_root)) ∧
  (∀ i b, data_bucket (shardDBName i, b)) ∧
  (∀ j b, ¬ data_bucket (factorDBName j, b)) ∧
  (∀ b, ¬ data_bucket ("meta"%string, b)).
Proof.
  apply (X12_Stats_data_buckets_only count_keys add_fields page_4096
           (set_db (Some (stats_db mixed_root)) (open_table 2 sample_root))
           (set_db (Some (stats_db sample_root)) (open_table 2 sample_root))
           (stats_db mixed_root) (stats_db sample_root)).
  - reflexivity.
  - reflexivity.
  - reflexivity.
  - reflexivity.
  - reflexivity.
  - by vm_compute.
Defined.

(** ** The schema, the tags and the life cycle *)

Lemma X13_witness :
  ∃ t', unmarshal (marshal_in_order [action; price] sample_schema) (NewTable "" "") =
          Ok (inl t') ∧
    schema_indexed t' ∧
    (∀ p, p ∈ [action; price] ↔ properties t' !! Name p = Some p) ∧
    (∀ p, p ∈ [action; price] ↔ propertiesByID t' !! ID p = Some p).
Proof.
  apply (X13_unmarshal_builds_schema (marshal_in_order [action; price] sample_schema)
           {| msg_Name := "purchases"; msg_ShardCount := 4; msg_MaxPermanentID := 1;
              msg_MaxTransientID := 1; msg_Properties := [Some action; Some price] |}
           [action; price] (NewTable "" "")).
  - by vm_compute.
  - reflexivity.
  - apply (bool_decide_unpack _). by vm_compute.
  - apply (bool_decide_unpack _). by vm_compute.
Defined.

Lemma X14_witness :
  ∃ t2, unmarshal renamed_doc (ddTags sample_schema).2 = Ok (inl t2) ∧
    name t2 = "renamed"%string ∧
    ddTags t2 = (["table:purchases"%string], t2) ∧
    (ddTagsCache sample_schema = None →
     ["table:purchases"%string] = ["table:" +:+ name sample_schema]).
Proof.
  eexists. split; [vm_compute; reflexivity|]. split; [reflexivity|].
  apply (X14_ddTags_not_refreshed sample_schema (ddTags sample_schema).2 _
           ["table:purchases"%string] renamed_doc).
  - reflexivity.
  - vm_compute. reflexivity.
Defined.

Lemma X15_witness :
  ∃ t' sink' d',
    open Stats_sub count_tx bolt_Open_fresh initSchema_fail (NewTable "t" "/tmp/t") [] =
      Ok (t', sink', Some (Errorf "meta: bucket name required")) ∧
    db t' = Some d' ∧ db_root d' = db_root (store empty_root) ∧
    opened t' = true ∧
    open Stats_sub count_tx bolt_Open_fresh initSchema_fail t' sink' = Ok (t', sink', None).
Proof.
  eapply (X15_open_failed_schema_stays_open Stats_sub count_tx bolt_Open_fresh
            initSchema_fail (NewTable "t" "/tmp/t") [] (store empty_root)).
  - reflexivity.
  - reflexivity.
  - reflexivity.
Defined.

Lemma X16_witness :
  opened (close Close_handle (open_table 2 sample_root)) = true ∧
  open Stats_sub count_tx bolt_Open_fresh initSchema_nop
    (close Close_handle (open_table 2 sample_root)) [] =
    Ok (close Close_handle (open_table 2 sample_root), [], None).
Proof.
  apply (X16_close_keeps_handle Stats_sub count_tx bolt_Open_fresh initSchema_nop
           Close_handle (open_table 2 sample_root) []).
  reflexivity.
Defined.

Lemma X17_witness :
  let t := set_db (Some (stats_db sample_root)) (open_table 2 sample_root) in
  ∃ t' new,
    ddEmitStats Stats_sub t [] = Ok (t', [] ++ new) ∧
    let v := FreeAlloc (Stats_sub (db_stats (stats_db sample_root)) (boltStats t)) in
    emitted "bolt.pages.freelist.inuse" new =
      [Gauge "bolt.pages.freelist.inuse" v (tags_of t)] ∧
    emitted "bolt.pages.free.alloc" new =
      [Gauge "bolt.pages.free.alloc" v (tags_of t)].
Proof.
  apply (X17_freelist_gauge_reports_FreeAlloc Stats_sub
           (set_db (Some (stats_db sample_root)) (open_table 2 sample_root)) []
           (stats_db sample_root)).
  reflexivity.
Defined.

Lemma X18_witness :
  let d1 := bolt_Update count_tx (store empty_root) (bool_decide (None = @None error))
              empty_root in
  ∃ t2 s2,
    Update Stats_sub count_tx initSchema_nop () (open_table 2 empty_root) [] =
      Ok (t2, s2, (), None) ∧
    db t2 = Some d1 ∧ boltStats t2 = Some (db_stats d1) ∧
    ∀ tx2 t3 s3 b e2,
      initSchema_fail (db_root d1) t2 s2 = Ok (tx2, t3, s3, b, e2) →
      boltStats t3 = boltStats t2 →
      let d2 := bolt_Update count_tx d1 (bool_decide (e2 = None)) tx2 in
      let delta := Stats_sub (db_stats d2) (Some (db_stats d1)) in
      ∃ t4 report,
        Update Stats_sub count_tx initSchema_fail () t2 s2 = Ok (t4, s3 ++ report, b, e2) ∧
        length report = 21%nat ∧
        emitted "bolt.txn.total" report =
          [Count "bolt.txn.total" (TxN delta) (tags_of t3)] ∧
        emitted "bolt.txn.write.count" report =
          [Count "bolt.txn.write.count" (Write (TxStats_ delta)) (tags_of t3)] ∧
        emitted "bolt.pages.free" report =
          [Gauge "bolt.pages.free" (FreePageN delta) (tags_of t3)] ∧
        db t4 = Some d2 ∧ boltStats t4 = Some (db_stats d2).
Proof.
  apply (X18_updates_report_deltas Stats_sub count_tx initSchema_nop initSchema_fail () ()
           (open_table 2 empty_root) (open_table 2 empty_root) [] [] (store empty_root)
           empty_root () None).
  - reflexivity.
  - reflexivity.
  - reflexivity.
Defined.

Lemma X19_witness :
  ∃ i sb, shardIndex fnv32a (open_table 2 sample_root) "u1" = Ok i ∧
    sample_root !! shardDBName i = Some sb.
Proof.
  apply (X19_shard_bucket_exists fnv32a (open_table 2 sample_root) sample_root "u1").
  - exact fnv32a_range.
  - reflexivity.
  - apply (bool_decide_unpack _). by vm_compute.
Defined.

(** ** Event records *)

Lemma X21_witness :
  rawEvent_unmarshal float64_of_float32_bits
    (rawEvent_marshal_in_order (map_to_list (data sample_event)) sample_event
       ++ [x00; xff]) =
  rawEvent_unmarshal float64_of_float32_bits
    (rawEvent_marshal_in_order (map_to_list (data sample_event)) sample_event).
Proof.
  apply (X21_unmarshal_ignores_trailing_bytes float64_of_float32_bits sample_event).
  - apply (bool_decide_unpack _). by vm_compute.
  - exists (map_to_list (data sample_event)). split; reflexivity.
Defined.
